(** * tiny_io_expander: the serial protocol layer of [src/app/app.cpp]

    A shallow embedding of the output ring buffer ([respond_putc],
    [App::write_buffer], [App::write_done]), the responder ([vrespond],
    [respond]), the command parser ([Parser]) and the dispatcher and
    controller ([App]), followed by the properties proved about them.

    Conventions.
    - [size_t], [int], [uint8_t], [uint16_t] and [uint64_t] values are integers
      of [Z] in the range of the type; every operation that can leave the
      range has its wrap-around written out ([size_wrap], [int_wrap], ...).
      The target is the 32-bit RP2040, so [size_t] and [int] are 32 bits wide.
    - A [char] is its code in [0, 255] ([char] is unsigned on the ARM target).
    - A C string is the list of its bytes before the terminating NUL. *)

From Stdlib Require Import ZArith Lia String Ascii.
From stdpp Require Import base option list.

Local Open Scope Z_scope.

(** ** Machine integers *)

Definition size_wrap (x : Z) : Z := x mod 2 ^ 32.
Definition uint8_wrap (x : Z) : Z := x mod 2 ^ 8.
Definition uint16_wrap (x : Z) : Z := x mod 2 ^ 16.
Definition uint64_wrap (x : Z) : Z := x mod 2 ^ 64.

(** Two's complement 32-bit [int]. *)
Definition int_wrap (x : Z) : Z := (x + 2 ^ 31) mod 2 ^ 32 - 2 ^ 31.

Definition int_range (x : Z) : Prop := - 2 ^ 31 <= x < 2 ^ 31.

(** [++x] on an [int]. *)
Definition int_incr (x : Z) : Z := int_wrap (x + 1).

(** ** Characters and string literals *)

Definition char : Type := Z.

Definition chars (s : string) : list char :=
  map (fun a => Z.of_nat (nat_of_ascii a)) (list_ascii_of_string s).

Definition CR : char := 13.
Definition LF : char := 10.
Definition ESC : char := 27.
Definition QUOTE : char := 34.
Definition CRLF : list char := [CR; LF].

(** ** The output ring buffer

    [static char output_buffer[output_bufferSIZE]], [tx_index] (the write
    cursor) and [tx_sent] (the drain cursor). *)

Definition output_bufferSIZE : Z := 2048.

Record Tx : Type := mkTx {
  output_buffer : list char;
  tx_index : Z;
  tx_sent : Z
}.

(** The array is indexed by a cursor. A store outside the array is undefined
    in the source; here it leaves the list as it is. [tx_valid] below is the
    invariant under which no such store happens. *)
Definition respond_putc (c : char) (t : Tx) : bool * Tx :=
  let new_index := size_wrap (tx_index t + 1) in
  let new_index :=
    if output_bufferSIZE <=? new_index then 0 else new_index in
  if new_index =? tx_sent t then (false, t)
  else (true, {| output_buffer := <[Z.to_nat (tx_index t) := c]> (output_buffer t);
                 tx_index := new_index;
                 tx_sent := tx_sent t |}).

(** [App::write_buffer]: the start index of the span and its size. *)
Definition write_buffer (t : Tx) : Z * Z :=
  let send_index := tx_sent t in
  let size :=
    if tx_index t <? tx_sent t then output_bufferSIZE - tx_sent t
    else tx_index t - tx_sent t in
  (send_index, size).

(** [App::write_done]; the argument is converted to [size_t] at the call. *)
Definition write_done (length : Z) (t : Tx) : Tx :=
  let new_sent := size_wrap (tx_sent t + size_wrap length) in
  let new_sent := if output_bufferSIZE <=? new_sent then 0 else new_sent in
  {| output_buffer := output_buffer t;
     tx_index := tx_index t;
     tx_sent := new_sent |}.

(** The state the [App] constructor leaves: both cursors zeroed. *)
Definition tx_init (buf : list char) : Tx :=
  {| output_buffer := buf; tx_index := 0; tx_sent := 0 |}.

(** *** Observations on the ring *)

Definition tx_valid (t : Tx) : Prop :=
  0 <= tx_index t < output_bufferSIZE /\ 0 <= tx_sent t < output_bufferSIZE /\
  Z.of_nat (length (output_buffer t)) = output_bufferSIZE.

(** Occupied bytes: [(write_cursor - drain_cursor) mod C]. *)
Definition occupied (t : Tx) : Z :=
  (tx_index t - tx_sent t) mod output_bufferSIZE.

Definition free_space (t : Tx) : Z := output_bufferSIZE - 1 - occupied t.

(** The slot holding the [k]-th unread byte. *)
Definition unread_slot (t : Tx) (k : Z) : nat :=
  Z.to_nat ((tx_sent t + k) mod output_bufferSIZE).

(** The unread bytes, oldest first. *)
Definition unread (t : Tx) : list char :=
  map (fun k => output_buffer t !!! unread_slot t (Z.of_nat k))
      (seq 0 (Z.to_nat (occupied t))).

(** *** Sequences of calls *)

Inductive tx_call : Type :=
  | Put (c : char)
  | Advance (length : Z).

(** Runs the calls in order. The second component counts the bytes written
    and not yet drained: one more for every accepted [Put], [length] fewer
    for every [Advance length]. *)
Fixpoint tx_run (calls : list tx_call) (t : Tx) (outstanding : Z) : Tx * Z :=
  match calls with
  | [] => (t, outstanding)
  | Put c :: calls =>
      let '(ok, t') := respond_putc c t in
      tx_run calls t' (if ok then outstanding + 1 else outstanding)
  | Advance n :: calls =>
      tx_run calls (write_done n t) (outstanding - size_wrap n)
  end.

(** The calls keep to the transport's contract: no [Advance] is for more
    bytes than the span [write_buffer] offered just before. *)
Fixpoint disciplined (calls : list tx_call) (t : Tx) : Prop :=
  match calls with
  | [] => True
  | Put c :: calls => disciplined calls (respond_putc c t).2
  | Advance n :: calls =>
      0 <= n <= (write_buffer t).2 /\ disciplined calls (write_done n t)
  end.

(** ** The directive decoder

    [Conversion] is declared in [io/conversion.h], which is not part of the
    sources at hand. *)

Module Conversion.

Inductive Type_ : Type :=
  | PERCENT | CHARACTER
  | SIGNED_INT | UNSIGNED_INT
  | LONG_SIGNED_INT | LONG_UNSIGNED_INT
  | LONG_LONG_SIGNED_INT | LONG_LONG_UNSIGNED_INT
  | POINTER | DOUBLE | STRING
  | UNKNOWN.

#[export] Instance Type_eq_dec : EqDecision Type_.
Proof. solve_decision. Defined.

(** Modelled from the spec: the [Conversion] class, a decoder that turns
    one [%]-directive into a short-lived rendered string. [parse] reads the
    directive at the head of the format and gives its type and the number
    of bytes the format pointer advances by; the [from_] functions give the
    rendered C string, or [None] for a null pointer. A [double] is carried
    as its bit pattern. *)
Class t : Type := {
  parse : list char -> Type_ * nat;
  from_character : Z -> option (list char);
  from_signed_int : Z -> option (list char);
  from_unsigned_int : Z -> option (list char);
  from_double : Z -> option (list char);
  from_string : list char -> option (list char)
}.

End Conversion.

(** ** Variadic arguments *)

Inductive va_value : Type :=
  | va_int (v : Z)
  | va_unsigned (v : Z)
  | va_long (v : Z)
  | va_unsigned_long (v : Z)
  | va_long_long (v : Z)
  | va_unsigned_long_long (v : Z)
  | va_pointer (v : Z)
  | va_double (bits : Z)
  | va_string (s : list char).

Definition va_list : Type := list va_value.

(** ** The responder *)

Section Responder.

Context {conversion : Conversion.t}.

Import Conversion.

(** The [switch] of [vrespond]: fetches the argument the directive asks for
    and renders it. [va_arg] on an exhausted list or on an argument of
    another type is undefined in the source: [None] here. *)
Definition vrespond_convert (type : Type_) (args : va_list)
  : option (option (list char) * va_list) :=
  match type, args with
  | PERCENT, _ => Some (from_character 37, args)
  | CHARACTER, va_int value :: args => Some (from_character value, args)
  | SIGNED_INT, va_int value :: args => Some (from_signed_int value, args)
  | UNSIGNED_INT, va_unsigned value :: args =>
      Some (from_unsigned_int value, args)
  | LONG_SIGNED_INT, va_long value :: args =>
      Some (from_signed_int value, args)
  | LONG_UNSIGNED_INT, va_unsigned_long value :: args =>
      Some (from_unsigned_int value, args)
  | LONG_LONG_SIGNED_INT, va_long_long value :: args =>
      Some (from_signed_int value, args)
  | LONG_LONG_UNSIGNED_INT, va_unsigned_long_long value :: args =>
      Some (from_unsigned_int value, args)
  | POINTER, va_pointer value :: args =>
      Some (from_unsigned_int (size_wrap value), args)
  | DOUBLE, va_double value :: args => Some (from_double value, args)
  | STRING, va_string value :: args => Some (from_string value, args)
  | UNKNOWN, _ => Some (None, args)
  | _, _ => None
  end.

(** The inner [while]: queues the rendered string a byte at a time for as
    long as there is room. *)
Fixpoint respond_puts (buffer : list char) (room : bool) (t : Tx)
  : bool * Tx :=
  match buffer with
  | [] => (room, t)
  | c :: buffer =>
      if room then
        let '(room, t) := respond_putc c t in respond_puts buffer room t
      else (room, t)
  end.

(** The variables of [vrespond] that its loop reads and writes. *)
Record vr : Type := mkVr {
  format : list char;
  args : va_list;
  room : bool;
  result : Z;
  tx : Tx
}.

Inductive flow : Type :=
  | Next (s : vr)
  | Break (s : vr)
  | Undefined.

(** One pass through the body of the outer [while], entered with [*format]
    equal to [c] and [rest] behind it. *)
Definition vrespond_body (c : char) (rest : list char) (s : vr) : flow :=
  if c =? 37 then
    let '(type, n) := parse rest in
    let format := drop n rest in
    if decide (type = UNKNOWN) then
      Break {| format := format; args := args s; room := room s;
               result := result s; tx := tx s |}
    else
      match vrespond_convert type (args s) with
      | None => Undefined
      | Some (buffer, args) =>
          let '(room, t) :=
            match buffer with
            | Some buffer => respond_puts buffer (room s) (tx s)
            | None => (room s, tx s)
            end in
          Next {| format := format; args := args; room := room;
                  result := result s; tx := t |}
      end
  else
    let '(room, t) := respond_putc c (tx s) in
    Next {| format := rest; args := args s; room := room;
            result := int_incr (result s); tx := t |}.

(** The outer [while (room && *format != '\0')]. Every pass shortens the
    format, so [S (length format)] passes are enough
    ([vrespond_loop_fuel]); [None] stands for undefined behaviour, and for
    a loop cut short by lack of fuel. *)
Fixpoint vrespond_loop (fuel : nat) (s : vr) : option vr :=
  match format s with
  | [] => Some s
  | c :: rest =>
      if room s then
        match fuel with
        | O => None
        | S fuel =>
            match vrespond_body c rest s with
            | Next s => vrespond_loop fuel s
            | Break s => Some s
            | Undefined => None
            end
        end
      else Some s
  end.

(** [vrespond]. The local [result] is declared without an initialiser;
    [result0] is the content its storage happens to hold. *)
Definition vrespond (result0 : Z) (format : list char) (args : va_list)
  (t : Tx) : option (Z * Tx) :=
  s ← vrespond_loop (S (length format))
        {| format := format; args := args; room := true;
           result := result0; tx := t |};
  Some (result s, tx s).

Definition respond (result0 : Z) (format : list char) (args : va_list)
  (t : Tx) : option (Z * Tx) :=
  vrespond result0 format args t.

(** A call whose returned value is dropped, as at every call site in this
    file. The ring it leaves does not depend on the content of the
    uninitialised local ([respond_tx_indep]). *)
Definition respond_ (format : list char) (args : va_list) (t : Tx)
  : option Tx :=
  snd <$> respond 0 format args t.

(** *** What a call renders, the ring set aside

    The bytes [vrespond] would queue if the ring never filled. *)
Fixpoint render (fuel : nat) (format : list char) (args : va_list)
  : option (list char) :=
  match format with
  | [] => Some []
  | c :: rest =>
      match fuel with
      | O => None
      | S fuel =>
          if c =? 37 then
            let '(type, n) := parse rest in
            if decide (type = UNKNOWN) then Some []
            else
              '(buffer, args) ← vrespond_convert type args;
              bytes ← render fuel (drop n rest) args;
              Some (default [] buffer ++ bytes)
          else
            bytes ← render fuel rest args;
            Some (c :: bytes)
      end
  end.

Definition rendering (format : list char) (args : va_list)
  : option (list char) :=
  render (S (length format)) format args.

Definition with_result (r : Z) (s : vr) : vr :=
  {| format := format s; args := args s; room := room s; result := r;
     tx := tx s |}.

(** [iterates s s']: the loop entered in [s] is in [s'] after some number
    of complete passes. *)
Inductive iterates : vr -> vr -> Prop :=
  | iterates_refl s : iterates s s
  | iterates_step s c rest s' s'' :
      format s = c :: rest -> room s = true ->
      vrespond_body c rest s = Next s' ->
      iterates s' s'' ->
      iterates s s''.

(** The loop stands before a directive the decoder does not know. *)
Definition at_unknown (s : vr) : Prop :=
  exists rest,
    format s = 37 :: rest /\ room s = true /\ (parse rest).1 = UNKNOWN.

End Responder.

(** ** The command parser *)

Module Parser.

Inductive State : Type := COMMAND | TARGET | NEXT_VALUE | VALUE.
Inductive Command : Type := NONE | STATUS | RESET | VALVE.

Definition NUM_VALUES : nat := 2.

Record t : Type := mk {
  state : State;
  command : Command;
  target : Z;
  index : Z;
  values : list Z
}.

(** The constructor. Its initialiser list names [state], [command],
    [target] and [values] and leaves [index] out: [index0] is what the
    storage of [index] holds when the constructor runs. *)
Definition ctor (index0 : Z) : t :=
  {| state := COMMAND; command := NONE; target := 0; index := index0;
     values := replicate NUM_VALUES 0 |}.

Definition reset (p : t) : t :=
  {| state := COMMAND; command := NONE; target := 0; index := 0;
     values := (fun _ => 0) <$> values p |}.

Definition set_state (s : State) (p : t) : t :=
  {| state := s; command := command p; target := target p;
     index := index p; values := values p |}.

Definition set_command (c : Command) (p : t) : t :=
  {| state := state p; command := c; target := target p;
     index := index p; values := values p |}.

Definition set_target (x : Z) (p : t) : t :=
  {| state := state p; command := command p; target := x;
     index := index p; values := values p |}.

Definition set_index (x : Z) (p : t) : t :=
  {| state := state p; command := command p; target := target p;
     index := x; values := values p |}.

Definition set_values (vs : list Z) (p : t) : t :=
  {| state := state p; command := command p; target := target p;
     index := index p; values := vs |}.

(** [c >= '0' && c <= '9'] *)
Definition is_digit (c : char) : bool := (48 <=? c) && (c <=? 57).

(** The bytes that end a value: all but ESC, the digits and the
    separators [,] and [:]. *)
Definition is_terminator (c : char) : bool :=
  negb (c =? 27) && negb (is_digit c) && negb ((c =? 44) || (c =? 58)).

(** [values[index] = v]. [std::array::operator[]] does not check its index;
    an index outside the array is undefined: [None]. *)
Definition store_value (v : Z) (p : t) : option t :=
  let i := Z.to_nat (index p) in
  _ ← values p !! i;
  Some (set_values (<[i := v]> (values p)) p).

Section Parse.

Context {conversion : Conversion.t}.

(** [Parser::parse]: the returned flag, the parser and the ring. *)
Definition parse (c : char) (p : t) (tx : Tx) : option (bool * t * Tx) :=
  match state p with
  | COMMAND =>
      if (c =? 115) || (c =? 83) then
        Some (true, set_command STATUS p, tx)
      else if (c =? 114) || (c =? 82) then
        Some (false, set_state NEXT_VALUE (set_command RESET p), tx)
      else if (c =? 118) || (c =? 86) then
        Some (false, set_state TARGET (set_command VALVE p), tx)
      else if 32 <? c then
        tx ← respond_ (chars "Ec'%c'" ++ CRLF) [va_int c] tx;
        Some (false, reset p, tx)
      else Some (false, p, tx)
  | TARGET =>
      if c =? 27 then Some (false, reset p, tx)
      else if is_digit c then
        Some (false, set_state NEXT_VALUE (set_target (uint8_wrap (c - 48)) p), tx)
      else if 32 <? c then
        tx ← respond_ (chars "Et'%c'" ++ CRLF) [va_int c] tx;
        Some (false, reset p, tx)
      else Some (false, p, tx)
  | NEXT_VALUE =>
      if c =? 27 then Some (false, reset p, tx)
      else if is_digit c then
        p ← store_value (uint16_wrap (c - 48)) p;
        Some (false, set_state VALUE p, tx)
      else Some (false, p, tx)
  | VALUE =>
      if c =? 27 then Some (false, reset p, tx)
      else if is_digit c then
        v ← values p !! Z.to_nat (index p);
        p ← store_value (uint16_wrap (v * 10 + uint16_wrap (c - 48))) p;
        Some (false, p, tx)
      else if (c =? 44) || (c =? 58) then
        let p := set_index (uint8_wrap (index p + 1)) p in
        if index p <? Z.of_nat (length (values p)) then
          Some (false, set_state NEXT_VALUE p, tx)
        else Some (true, p, tx)
      else Some (true, p, tx)
  end.

(** Feeds the bytes in order until [parse] returns [true]; gives the
    flags returned so far with the parser and the ring then reached. *)
Fixpoint parse_all (cs : list char) (p : t) (tx : Tx)
  : option (list bool * t * Tx) :=
  match cs with
  | [] => Some ([], p, tx)
  | c :: cs =>
      '(done, p, tx) ← parse c p tx;
      if done : bool then Some ([true], p, tx)
      else
        '(flags, p, tx) ← parse_all cs p tx;
        Some (false :: flags, p, tx)
  end.

End Parse.

End Parser.

(** ** The dispatcher and the controller *)

Module App.

(** The indicator states named by [App::periodic]. *)
Inductive State : Type :=
  | CONNECTED | DISCONNECTED | VALVE0_ON | VALVE1_ON | BOTH_VALVES_ON.

Inductive device : Type :=
  | indicator_ | valve0_ | valve1_
  | moisture0_ | moisture1_ | flow0_ | flow1_.

(** What the controller asks of its collaborators, in the order asked. *)
Inductive action : Type :=
  | periodic_of (d : device)
  | set_state (s : State)
  | pulse (d : device) (duration : Z)
  | console_printf (format : list char) (args : va_list)
  | reset_usb_boot (a b : Z)
  | watchdog_reboot (a b delay_ms : Z).

(** What the collaborators answer when asked. *)
Record readings : Type := mkReadings {
  time_us_64 : Z;
  indicator_get_state : Z;
  valve0_get : bool;
  valve1_get : bool;
  moisture0_updated : bool;
  moisture0_value : Z;
  moisture1_updated : bool;
  moisture1_value : Z;
  flow0_updated : bool;
  flow0_value : Z;
  flow1_updated : bool;
  flow1_value : Z
}.

Definition TIMEOUT_DELAY : Z := 10 * 1000 * 1000.
Definition RESET_DELAY_MS : Z := 100.
Definition RX_BUFFER_SIZE : nat := 64 + 1.

(** The statics of the translation unit and the members of [App].
    [halted] is set once [reset_usb_boot], which does not return, has been
    called. *)
Record t : Type := mk {
  tx : Tx;
  parser : Parser.t;
  rx_buffer : list char;
  timeout_ : Z;
  actions : list action;
  halted : bool
}.

Definition set_tx (x : Tx) (a : t) : t :=
  {| tx := x; parser := parser a; rx_buffer := rx_buffer a;
     timeout_ := timeout_ a; actions := actions a; halted := halted a |}.

Definition set_parser (p : Parser.t) (a : t) : t :=
  {| tx := tx a; parser := p; rx_buffer := rx_buffer a;
     timeout_ := timeout_ a; actions := actions a; halted := halted a |}.

Definition set_rx_buffer (b : list char) (a : t) : t :=
  {| tx := tx a; parser := parser a; rx_buffer := b;
     timeout_ := timeout_ a; actions := actions a; halted := halted a |}.

Definition set_timeout_ (x : Z) (a : t) : t :=
  {| tx := tx a; parser := parser a; rx_buffer := rx_buffer a;
     timeout_ := x; actions := actions a; halted := halted a |}.

Definition act (x : action) (a : t) : t :=
  {| tx := tx a; parser := parser a; rx_buffer := rx_buffer a;
     timeout_ := timeout_ a; actions := actions a ++ [x];
     halted := halted a |}.

Definition halt (a : t) : t :=
  {| tx := tx a; parser := parser a; rx_buffer := rx_buffer a;
     timeout_ := timeout_ a; actions := actions a; halted := true |}.

(** The program at start-up: statics are zero-initialised, then the
    constructors of [parser] and of [App] run. *)
Definition boot : t :=
  {| tx := tx_init (replicate (Z.to_nat output_bufferSIZE) 0);
     parser := Parser.ctor 0;
     rx_buffer := replicate RX_BUFFER_SIZE 0;
     timeout_ := 0;
     actions := [];
     halted := false |}.

Definition b2i (b : bool) : Z := if b then 1 else 0.

(** [(x.updated()) ? ' ' : '-'] *)
Definition fresh (updated : bool) : Z := if updated then 32 else 45.

Definition quoted (s : string) : list char := QUOTE :: chars s ++ [QUOTE].

Definition status_format : list char :=
  chars "R{" ++ quoted "l" ++ chars ":%d," ++ quoted "v0" ++ chars ":%d,"
  ++ quoted "v1" ++ chars ":%d," ++ quoted "m0" ++ chars ":%c%d,"
  ++ quoted "m1" ++ chars ":%c%d," ++ quoted "m2" ++ chars ":%c%d,"
  ++ quoted "f0" ++ chars ":%c%d," ++ quoted "f1" ++ chars ":%c%d}"
  ++ CRLF.

Section Dispatch.

Context {conversion : Conversion.t}.

Definition respond_in (format : list char) (args : va_list) (a : t)
  : option t :=
  x ← respond_ format args (tx a); Some (set_tx x a).

(** [App::perform_command] *)
Definition perform_command (rd : readings) (a : t) : option t :=
  match Parser.command (parser a) with
  | Parser.STATUS =>
      respond_in status_format
        [ va_int (indicator_get_state rd);
          va_int (b2i (valve0_get rd)); va_int (b2i (valve1_get rd));
          va_int (fresh (moisture0_updated rd)); va_int (moisture0_value rd);
          va_int (fresh (moisture1_updated rd)); va_int (moisture1_value rd);
          va_int (fresh (moisture1_updated rd)); va_int 0;
          va_int (fresh (flow0_updated rd)); va_int (flow0_value rd);
          va_int (fresh (flow1_updated rd)); va_int (flow1_value rd) ] a
  | Parser.RESET =>
      v ← Parser.values (parser a) !! 0%nat;
      let a := act (console_printf (chars "Reset value: %d" ++ CRLF)
                      [va_int v]) a in
      if v =? 5511 then Some (halt (act (reset_usb_boot 0 0) a))
      else if v =? 1033 then
        Some (act (watchdog_reboot 0 0 RESET_DELAY_MS) a)
      else respond_in (chars "Er%d" ++ CRLF) [va_int v] a
  | Parser.VALVE =>
      v ← Parser.values (parser a) !! 0%nat;
      let target := Parser.target (parser a) in
      let a := act (console_printf
                      (chars "Valve target: %d pulse: %d" ++ CRLF)
                      [va_int target; va_int v]) a in
      if target =? 0 then
        respond_in (chars "AV0" ++ CRLF) [] (act (pulse valve0_ v) a)
      else if target =? 1 then
        respond_in (chars "AV1" ++ CRLF) [] (act (pulse valve1_ v) a)
      else respond_in (chars "Ev%d" ++ CRLF) [va_int target] a
  | Parser.NONE => Some a
  end.

(** [App::parse] *)
Definition parse (rd : readings) (c : char) (a : t) : option t :=
  if halted a then Some a
  else
    let a := set_timeout_ (uint64_wrap (TIMEOUT_DELAY + time_us_64 rd)) a in
    '(done, p, x) ← Parser.parse c (parser a) (tx a);
    let a := set_parser p (set_tx x a) in
    if done : bool then
      a ← perform_command rd a;
      if halted a then Some a
      else Some (set_parser (Parser.reset (parser a)) a)
    else Some a.

(** [App::read_done]: the loop over [rx_buffer[i]] for [i < length].
    [env i] is what the collaborators answer while byte [i] is handled;
    reading past the end of [rx_buffer] is undefined: [None]. *)
Fixpoint read_loop (env : nat -> readings) (ixs : list nat) (a : t)
  : option t :=
  match ixs with
  | [] => Some a
  | i :: ixs =>
      c ← rx_buffer a !! i;
      a ← parse (env i) c a;
      read_loop env ixs a
  end.

Definition read_done (env : nat -> readings) (length : Z) (a : t)
  : option t :=
  read_loop env (seq 0 (Z.to_nat (size_wrap length))) a.

(** The transport stores the bytes that arrived at the start of the
    buffer [App::read_buffer] handed out, then calls [read_done]. *)
Definition receive (env : nat -> readings) (bytes : list char) (a : t)
  : option t :=
  let buffer := bytes ++ drop (length bytes) (rx_buffer a) in
  read_done env (Z.of_nat (length bytes)) (set_rx_buffer buffer a).

End Dispatch.

(** The priority order of the spec: both valves, then valve 0, then valve
    1, then the elapsed deadline. *)
Inductive resolves : bool -> bool -> bool -> State -> Prop :=
  | resolves_both elapsed : resolves true true elapsed BOTH_VALVES_ON
  | resolves_valve0 elapsed : resolves true false elapsed VALVE0_ON
  | resolves_valve1 elapsed : resolves false true elapsed VALVE1_ON
  | resolves_disconnected : resolves false false true DISCONNECTED
  | resolves_connected : resolves false false false CONNECTED.

(** [App::periodic]; [rd] is what the collaborators answer once their own
    [periodic] has run. *)
Definition periodic (rd : readings) (a : t) : t :=
  let a := foldl (fun a d => act (periodic_of d) a) a
             [indicator_; valve0_; valve1_; moisture0_; moisture1_;
              flow0_; flow1_] in
  let valve0_on := valve0_get rd in
  let valve1_on := valve1_get rd in
  if valve0_on && valve1_on then act (set_state BOTH_VALVES_ON) a
  else if valve0_on then act (set_state VALVE0_ON) a
  else if valve1_on then act (set_state VALVE1_ON) a
  else if timeout_ a <? time_us_64 rd then act (set_state DISCONNECTED) a
  else act (set_state CONNECTED) a.

(** The last state the indicator was given, if any. *)
Definition indicator_state (a : t) : option State :=
  last (omap (fun x => match x with set_state s => Some s | _ => None end)
             (actions a)).

End App.

(** ** A decoder for the directive subset *)

(** The decimal digits of a non-negative number, most significant first. *)
Fixpoint decimal_digits (fuel : nat) (n : Z) (acc : list char) : list char :=
  match fuel with
  | O => acc
  | S fuel =>
      let acc := (48 + n mod 10) :: acc in
      if n / 10 =? 0 then acc else decimal_digits fuel (n / 10) acc
  end.

Definition decimal (n : Z) : list char :=
  if n <? 0 then 45 :: decimal_digits 20 (- n) []
  else decimal_digits 20 n [].

(** Modelled from the spec: a [Conversion] for the directives [%%], [%c],
    [%d]/[%i], [%u], the [l]/[ll] length modifiers with signed or unsigned,
    [%p], [%f] and [%s]; anything else is unknown. Integers are rendered in
    decimal. Rendering of floating point is left out: [from_double] gives no
    string. *)
Definition directive_parse (format : list char) : Conversion.Type_ * nat :=
  let signed c := (c =? 100) || (c =? 105) in
  match format with
  | c :: rest =>
      if c =? 37 then (Conversion.PERCENT, 1%nat)
      else if c =? 99 then (Conversion.CHARACTER, 1%nat)
      else if signed c then (Conversion.SIGNED_INT, 1%nat)
      else if c =? 117 then (Conversion.UNSIGNED_INT, 1%nat)
      else if c =? 112 then (Conversion.POINTER, 1%nat)
      else if c =? 102 then (Conversion.DOUBLE, 1%nat)
      else if c =? 115 then (Conversion.STRING, 1%nat)
      else if c =? 108 then
        match rest with
        | c :: rest =>
            if signed c then (Conversion.LONG_SIGNED_INT, 2%nat)
            else if c =? 117 then (Conversion.LONG_UNSIGNED_INT, 2%nat)
            else if c =? 108 then
              match rest with
              | c :: _ =>
                  if signed c then (Conversion.LONG_LONG_SIGNED_INT, 3%nat)
                  else if c =? 117 then
                    (Conversion.LONG_LONG_UNSIGNED_INT, 3%nat)
                  else (Conversion.UNKNOWN, 0%nat)
              | [] => (Conversion.UNKNOWN, 0%nat)
              end
            else (Conversion.UNKNOWN, 0%nat)
        | [] => (Conversion.UNKNOWN, 0%nat)
        end
      else (Conversion.UNKNOWN, 0%nat)
  | [] => (Conversion.UNKNOWN, 0%nat)
  end.

Definition character_string (v : Z) : list char :=
  if uint8_wrap v =? 0 then [] else [uint8_wrap v].

Definition decimal_conversion : Conversion.t :=
  {| Conversion.parse := directive_parse;
     Conversion.from_character v := Some (character_string v);
     Conversion.from_signed_int v := Some (decimal v);
     Conversion.from_unsigned_int v := Some (decimal v);
     Conversion.from_double _ := None;
     Conversion.from_string s := Some s |}.

(** A decoder renders integers in decimal, as the spec's examples have it. *)
Definition renders_decimal (conversion : Conversion.t) : Prop :=
  (forall rest, Conversion.parse (100 :: rest) = (Conversion.SIGNED_INT, 1%nat))
  /\ (forall v, Conversion.from_signed_int v = Some (decimal v)).

(** The ring after the bytes have been queued, as far as they fit. *)
Definition tx_after (bytes : list char) (t : Tx) : Tx :=
  (respond_puts bytes true t).2.

(** A ring with two free slots left. *)
Definition tx_nearly_full : Tx :=
  {| output_buffer := replicate (Z.to_nat output_bufferSIZE) 0;
     tx_index := 2045; tx_sent := 0 |}.

(** The parser as [reset] leaves it. *)
Definition parser_idle : Parser.t :=
  Parser.mk Parser.COMMAND Parser.NONE 0 0 [0; 0].

(** Collaborators that answer nothing of note. *)
Definition idle : App.readings :=
  {| App.time_us_64 := 0; App.indicator_get_state := 0;
     App.valve0_get := false; App.valve1_get := false;
     App.moisture0_updated := false; App.moisture0_value := 0;
     App.moisture1_updated := false; App.moisture1_value := 0;
     App.flow0_updated := false; App.flow0_value := 0;
     App.flow1_updated := false; App.flow1_value := 0 |}.


(** ** Further observations *)

(** The bytes the pair returned by [write_buffer] denotes: [size] bytes of
    the array from [send_index] on. *)
Definition span_bytes (t : Tx) : list char :=
  let '(send_index, size) := write_buffer t in
  take (Z.to_nat size) (drop (Z.to_nat send_index) (output_buffer t)).

(** The transport sends the whole span offered and reports it. *)
Definition drain (t : Tx) : Tx := write_done (write_buffer t).2 t.

(** What holds of the parser between calls of [parse]: the array has its
    two 16-bit slots, [index] is inside it and [target] is a byte. *)
Definition parser_ok (p : Parser.t) : Prop :=
  length (Parser.values p) = Parser.NUM_VALUES /\
  Forall (fun v => 0 <= v < 2 ^ 16) (Parser.values p) /\
  0 <= Parser.index p < Z.of_nat Parser.NUM_VALUES /\
  0 <= Parser.target p < 2 ^ 8.

(** The number a run of digit bytes spells, most significant first. *)
Definition digits_value (ds : list char) : Z :=
  foldl (fun acc c => acc * 10 + (c - 48)) 0 ds.

Definition is_separator (c : char) : bool := (c =? 44) || (c =? 58).

(** The parser after a command letter (and, for VALVE, the target digit):
    waiting for the first value. *)
Definition parser_awaiting (command : Parser.Command) (target : Z)
  : Parser.t :=
  Parser.mk Parser.NEXT_VALUE command target 0 [0; 0].

(** The bytes handled one after the other by [App::parse], byte [k] under
    the answers [env (i + k)]: what the loop of [read_done] does, the
    receive buffer set aside. *)
Fixpoint feed `{conversion : Conversion.t} (env : nat -> App.readings)
  (i : nat) (bytes : list char) (a : App.t) : option App.t :=
  match bytes with
  | [] => Some a
  | c :: bytes => a ← App.parse (env i) c a; feed env (S i) bytes a
  end.

(** All of the state but the receive buffer. *)
Definition observable (a : App.t)
  : Tx * Parser.t * Z * list App.action * bool :=
  (App.tx a, App.parser a, App.timeout_ a, App.actions a, App.halted a).

(** A decoder renders [%c] as the character itself. *)
Definition renders_char (conversion : Conversion.t) : Prop :=
  (forall rest,
     Conversion.parse (99 :: rest) = (Conversion.CHARACTER, 1%nat))
  /\ (forall v, Conversion.from_character v = Some (character_string v)).

(** What holds of the program between bytes: the ring is well formed and,
    unless the device has left for the boot loader, so is the parser. *)
Definition app_ok (a : App.t) : Prop :=
  tx_valid (App.tx a) /\
  (App.halted a = false -> parser_ok (App.parser a)).

(** The line the STATUS command answers with. *)
Definition status_line (rd : App.readings) : list char :=
  chars "R{" ++ App.quoted "l" ++ chars ":"
  ++ decimal (App.indicator_get_state rd) ++ chars ","
  ++ App.quoted "v0" ++ chars ":" ++ decimal (App.b2i (App.valve0_get rd))
  ++ chars "," ++ App.quoted "v1" ++ chars ":"
  ++ decimal (App.b2i (App.valve1_get rd)) ++ chars ","
  ++ App.quoted "m0" ++ chars ":" ++ [App.fresh (App.moisture0_updated rd)]
  ++ decimal (App.moisture0_value rd) ++ chars ","
  ++ App.quoted "m1" ++ chars ":" ++ [App.fresh (App.moisture1_updated rd)]
  ++ decimal (App.moisture1_value rd) ++ chars ","
  ++ App.quoted "m2" ++ chars ":" ++ [App.fresh (App.moisture1_updated rd)]
  ++ decimal 0 ++ chars ","
  ++ App.quoted "f0" ++ chars ":" ++ [App.fresh (App.flow0_updated rd)]
  ++ decimal (App.flow0_value rd) ++ chars ","
  ++ App.quoted "f1" ++ chars ":" ++ [App.fresh (App.flow1_updated rd)]
  ++ decimal (App.flow1_value rd) ++ chars "}" ++ CRLF.

(** The valve a target selects. *)
Definition valve_of (target : Z) : App.device :=
  if target =? 0 then App.valve0_ else App.valve1_.

(** [c != 27] and not a digit: the bytes NEXT_VALUE passes over, and the
    bytes that end a value in VALUE (a separator or a terminator). *)
Definition ends_value (c : char) : bool :=
  negb (c =? 27) && negb (Parser.is_digit c).

(** * Properties *)

(** ** Machine integers *)

Ltac euclid := Z.to_euclidean_division_equations; lia.

(** Case analysis on the integer tests of the goal. *)
Ltac ztest :=
  match goal with
  | |- context [?a <=? ?b] => destruct (Z.leb_spec a b)
  | |- context [?a <? ?b] => destruct (Z.ltb_spec a b)
  | |- context [?a =? ?b] => destruct (Z.eqb_spec a b)
  end.

Lemma size_wrap_small x : 0 <= x < 2 ^ 32 -> size_wrap x = x.
Proof. intros H. unfold size_wrap. by apply Z.mod_small. Qed.

Lemma size_wrap_range x : 0 <= size_wrap x < 2 ^ 32.
Proof. unfold size_wrap. apply Z.mod_pos_bound. lia. Qed.

Lemma int_wrap_range x : int_range (int_wrap x).
Proof. unfold int_range, int_wrap. euclid. Qed.

Lemma int_wrap_small x : int_range x -> int_wrap x = x.
Proof. unfold int_range, int_wrap. intros H. euclid. Qed.

Lemma int_wrap_add x y : int_wrap (int_wrap x + y) = int_wrap (x + y).
Proof.
  unfold int_wrap.
  replace ((x + 2 ^ 31) mod 2 ^ 32 - 2 ^ 31 + y + 2 ^ 31)
    with ((x + 2 ^ 31) mod 2 ^ 32 + y) by lia.
  rewrite Zplus_mod_idemp_l. do 2 f_equal. lia.
Qed.

(** ** The ring buffer *)

Lemma occupied_range t : 0 <= occupied t <= output_bufferSIZE - 1.
Proof.
  unfold occupied, output_bufferSIZE.
  pose proof (Z.mod_pos_bound (tx_index t - tx_sent t) 2048). lia.
Qed.

Lemma free_space_range t : 0 <= free_space t <= output_bufferSIZE - 1.
Proof. pose proof (occupied_range t). unfold free_space. lia. Qed.

Lemma tx_init_valid buf :
  Z.of_nat (length buf) = output_bufferSIZE -> tx_valid (tx_init buf).
Proof. unfold tx_valid, output_bufferSIZE. simpl. lia. Qed.

Lemma respond_putc_valid c t : tx_valid t -> tx_valid (respond_putc c t).2.
Proof.
  unfold tx_valid, respond_putc, output_bufferSIZE. intros (Hi & Hs & Hl).
  rewrite size_wrap_small by lia.
  repeat ztest; simpl; rewrite ?length_insert; lia.
Qed.

Lemma write_done_valid n t : tx_valid t -> tx_valid (write_done n t).
Proof.
  unfold tx_valid, write_done, output_bufferSIZE. intros (Hi & Hs & Hl). simpl.
  pose proof (size_wrap_range (tx_sent t + size_wrap n)).
  ztest; lia.
Qed.

(** [respond_putc] refuses exactly when no free slot is left. *)
Lemma respond_putc_full c t :
  tx_valid t -> (respond_putc c t).1 = false <-> free_space t = 0.
Proof.
  unfold tx_valid, respond_putc, free_space, occupied, output_bufferSIZE.
  intros (Hi & Hs & Hl). rewrite size_wrap_small by lia.
  repeat ztest; simpl; split; intros; try done; euclid.
Qed.

Lemma respond_putc_refused c t t' :
  respond_putc c t = (false, t') -> t' = t.
Proof. unfold respond_putc. repeat ztest; by intros [= <-]. Qed.

Lemma respond_putc_occupied c t t' :
  tx_valid t -> respond_putc c t = (true, t') ->
  occupied t' = occupied t + 1 /\ tx_sent t' = tx_sent t.
Proof.
  unfold tx_valid, respond_putc, occupied, output_bufferSIZE.
  intros (Hi & Hs & Hl). rewrite size_wrap_small by lia.
  repeat ztest; intros [= <-]; simpl; split; try done; euclid.
Qed.

(** An accepted byte is stored in the slot behind the unread bytes and
    touches no other slot. *)
Lemma respond_putc_buffer c t t' :
  tx_valid t -> respond_putc c t = (true, t') ->
  output_buffer t' = <[unread_slot t (occupied t) := c]> (output_buffer t).
Proof.
  unfold tx_valid, respond_putc, unread_slot, occupied, output_bufferSIZE.
  intros (Hi & Hs & Hl). rewrite size_wrap_small by lia.
  repeat ztest; intros [= <-]; simpl; f_equal; f_equal; euclid.
Qed.

Lemma unread_slot_inj t j k :
  0 <= j < output_bufferSIZE -> 0 <= k < output_bufferSIZE ->
  unread_slot t j = unread_slot t k -> j = k.
Proof.
  unfold unread_slot, output_bufferSIZE. intros Hj Hk H.
  apply Z2Nat.inj in H; euclid.
Qed.

Lemma unread_slot_lt t k :
  tx_valid t -> (unread_slot t k < length (output_buffer t))%nat.
Proof.
  unfold tx_valid, unread_slot, output_bufferSIZE. intros (Hi & Hs & Hl).
  pose proof (Z.mod_pos_bound (tx_sent t + k) 2048). lia.
Qed.

Lemma respond_putc_unread c t t' :
  tx_valid t -> respond_putc c t = (true, t') -> unread t' = unread t ++ [c].
Proof.
  intros Hv Hp.
  destruct (respond_putc_occupied _ _ _ Hv Hp) as [Ho Hs].
  pose proof (respond_putc_buffer _ _ _ Hv Hp) as Hb.
  pose proof (occupied_range t) as Hr. pose proof (occupied_range t') as Hr'.
  unfold unread. rewrite Ho, Z2Nat.inj_add, Nat.add_1_r, seq_S, map_app by lia.
  simpl. f_equal.
  - apply map_ext_in. intros k Hk%in_seq.
    unfold unread_slot at 1. rewrite Hs. fold (unread_slot t (Z.of_nat k)).
    rewrite Hb. apply list_lookup_total_insert_ne.
    intros Heq. apply unread_slot_inj in Heq; lia.
  - unfold unread_slot at 1. rewrite Hs, Z2Nat.id by lia.
    fold (unread_slot t (occupied t)). rewrite Hb. f_equal.
    apply list_lookup_total_insert_eq. by apply unread_slot_lt.
Qed.

(** ** Sequences of [put] and [advance] *)

Lemma write_done_outstanding n t g :
  tx_valid t -> g <= occupied t ->
  g - size_wrap n <= occupied (write_done n t).
Proof.
  unfold tx_valid, write_done, occupied, output_bufferSIZE.
  intros (Hi & Hs & Hl) Hg. simpl.
  pose proof (size_wrap_range n) as Hn.
  destruct (Z.lt_ge_cases (size_wrap n) 2048) as [Hsmall|Hbig].
  - rewrite (size_wrap_small (_ + _)) by lia. ztest; euclid.
  - pose proof (Z.mod_pos_bound (tx_index t - tx_sent t) 2048).
    match goal with |- _ <= ?x mod _ => pose proof (Z.mod_pos_bound x 2048) end.
    lia.
Qed.

Lemma tx_run_invariant calls : forall t g,
  tx_valid t -> g <= occupied t ->
  tx_valid (tx_run calls t g).1 /\
  (tx_run calls t g).2 <= occupied (tx_run calls t g).1.
Proof.
  induction calls as [|[c|n] calls IH]; intros t g Hv Hg; simpl; [done| |].
  - destruct (respond_putc c t) as [ok t'] eqn:Hp.
    pose proof (respond_putc_valid c t Hv) as Hv'. rewrite Hp in Hv'.
    apply IH; [done|]. destruct ok.
    + apply respond_putc_occupied in Hp as [-> _]; [lia|done].
    + by apply respond_putc_refused in Hp as ->.
  - apply IH; [by apply write_done_valid|by apply write_done_outstanding].
Qed.

Lemma write_buffer_occupied t :
  tx_valid t -> 0 <= (write_buffer t).2 <= occupied t.
Proof.
  unfold tx_valid, write_buffer, occupied, output_bufferSIZE.
  intros (Hi & Hs & Hl). simpl. ztest; euclid.
Qed.

Lemma write_done_occupied n t :
  tx_valid t -> 0 <= n <= (write_buffer t).2 ->
  occupied (write_done n t) = occupied t - size_wrap n.
Proof.
  unfold tx_valid, write_buffer, write_done, occupied, output_bufferSIZE.
  intros (Hi & Hs & Hl). simpl. intros Hn.
  assert (0 <= n <= 2048) as Hn' by (revert Hn; ztest; lia).
  rewrite (size_wrap_small n), size_wrap_small by lia.
  revert Hn. repeat ztest; intros; euclid.
Qed.

(** Under the transport's contract the occupied count is exactly the number
    of bytes written and not yet drained. *)
Lemma tx_run_disciplined calls : forall t g,
  tx_valid t -> disciplined calls t -> g = occupied t ->
  (tx_run calls t g).2 = occupied (tx_run calls t g).1.
Proof.
  induction calls as [|[c|n] calls IH]; intros t g Hv Hd Hg; simpl; [done| |].
  - simpl in Hd. destruct (respond_putc c t) as [ok t'] eqn:Hp.
    pose proof (respond_putc_valid c t Hv) as Hv'. rewrite Hp in Hv'.
    apply IH; [done|done|]. destruct ok.
    + apply respond_putc_occupied in Hp as [-> _]; [lia|done].
    + by apply respond_putc_refused in Hp as ->.
  - destruct Hd as [Hn Hd].
    apply IH; [by apply write_done_valid|done|].
    rewrite write_done_occupied by done. lia.
Qed.

(** ** The responder *)

Section ResponderFacts.

Context {conversion : Conversion.t}.

Lemma respond_puts_no_room buffer t : respond_puts buffer false t = (false, t).
Proof. by destruct buffer. Qed.

(** The inner loop queues the longest prefix of the string that fits. *)
Lemma respond_puts_unread buffer : forall room t room' t',
  tx_valid t -> (room = false -> free_space t = 0) ->
  respond_puts buffer room t = (room', t') ->
  tx_valid t' /\ (room' = false -> free_space t' = 0) /\
  tx_sent t' = tx_sent t /\
  unread t' = unread t ++ take (Z.to_nat (free_space t)) buffer /\
  free_space t' =
    free_space t - Z.of_nat (length (take (Z.to_nat (free_space t)) buffer)).
Proof.
  induction buffer as [|c buffer IH]; intros room t room' t' Hv Hroom; simpl.
  { intros [= <- <-]. rewrite take_nil, app_nil_r. simpl.
    split_and!; [done..|lia]. }
  destruct room.
  2:{ intros [= <- <-]. rewrite (Hroom eq_refl). simpl.
      rewrite app_nil_r. split_and!; auto. }
  destruct (respond_putc c t) as [ok t1] eqn:Hp.
  pose proof (respond_putc_valid c t Hv) as Hv1.
  pose proof (respond_putc_full c t Hv) as Hfull.
  pose proof (free_space_range t) as Hfr.
  rewrite Hp in Hv1, Hfull. simpl in Hv1, Hfull. destruct ok.
  - destruct (respond_putc_occupied _ _ _ Hv Hp) as [Ho Hs].
    assert (free_space t1 = free_space t - 1) as Hf1
      by (unfold free_space; lia).
    assert (free_space t <> 0) as Hne by (intros H0; by apply Hfull in H0).
    intros Hrec. apply IH in Hrec as (Hv' & Hr' & Hs' & Hu' & Hf'); [|done..].
    replace (Z.to_nat (free_space t)) with (S (Z.to_nat (free_space t1)))
      by lia.
    simpl. rewrite (respond_putc_unread _ _ _ Hv Hp), <- app_assoc in Hu'.
    split_and!; [done|done|congruence|done|lia].
  - apply respond_putc_refused in Hp as ->.
    rewrite respond_puts_no_room. intros [= <- <-].
    rewrite (proj1 Hfull eq_refl). simpl. rewrite app_nil_r.
    split_and!; auto.
Qed.

Lemma take_app_rest (l k : list char) (n : nat) :
  take n (l ++ k) = take n l ++ take (n - length (take n l)) k.
Proof.
  rewrite take_app, length_take. f_equal.
  destruct (Nat.le_gt_cases n (length l)).
  - by replace (n - length l)%nat with 0%nat by lia;
      replace (n - n `min` length l)%nat with 0%nat by lia.
  - by replace (n `min` length l)%nat with (length l) by lia.
Qed.

Lemma vrespond_body_shortens c rest s s' :
  vrespond_body c rest s = Next s' ->
  (length (format s') <= length rest)%nat.
Proof.
  unfold vrespond_body. ztest.
  - destruct (Conversion.parse rest) as [type n]. case_decide; [done|].
    destruct (vrespond_convert _ _) as [[[buffer|] args']|]; [| |done].
    + destruct (respond_puts _ _ _). intros [= <-]. simpl.
      rewrite length_drop. lia.
    + intros [= <-]. simpl. rewrite length_drop. lia.
  - destruct (respond_putc _ _). by intros [= <-].
Qed.

(** Fuel beyond the length of the format changes nothing. *)
Lemma vrespond_loop_fuel fuel' : forall s s' fuel,
  vrespond_loop fuel' s = Some s' ->
  (length (format s) < fuel)%nat ->
  vrespond_loop fuel s = Some s'.
Proof.
  induction fuel' as [|fuel' IH]; intros s s' fuel;
    destruct fuel as [|fuel]; simpl;
    destruct (format s) as [|c rest] eqn:Hf; try done; simpl;
    destruct (room s); try done; try lia.
  destruct (vrespond_body c rest s) as [s1| |] eqn:Hb; try done.
  intros Hl Hlen. apply (IH _ _ _ Hl).
  apply vrespond_body_shortens in Hb. lia.
Qed.

Lemma render_fuel fuel' : forall format args bytes fuel,
  render fuel' format args = Some bytes ->
  (length format < fuel)%nat ->
  render fuel format args = Some bytes.
Proof.
  induction fuel' as [|fuel' IH]; intros format args bytes fuel;
    destruct fuel as [|fuel]; destruct format as [|c rest]; simpl;
    try done; try lia.
  intros Hr Hlen. ztest.
  - destruct (Conversion.parse rest) as [type n]. case_decide; [done|].
    destruct (vrespond_convert _ _) as [[buffer args']|]; [|done].
    simpl in *. destruct (render fuel' _ _) as [bytes'|] eqn:Hr'; [|done].
    erewrite IH; [done..|]. rewrite length_drop. lia.
  - destruct (render fuel' _ _) as [bytes'|] eqn:Hr'; [|done].
    erewrite IH; [done..|]. lia.
Qed.

(** What the loop leaves in the ring: the unread bytes it found, followed
    by as much of the rendering as there was free space for. *)
Lemma vrespond_loop_unread fuel : forall s bytes,
  tx_valid (tx s) -> (room s = false -> free_space (tx s) = 0) ->
  render fuel (format s) (args s) = Some bytes ->
  exists s',
    vrespond_loop fuel s = Some s' /\ tx_valid (tx s') /\
    tx_sent (tx s') = tx_sent (tx s) /\
    unread (tx s') =
      unread (tx s) ++ take (Z.to_nat (free_space (tx s))) bytes.
Proof.
  induction fuel as [|fuel IH]; intros s bytes Hv Hroom.
  - destruct s as [[|c rest] a [|] r t]; simpl in *; try done.
    + intros [= <-]. eexists. by rewrite take_nil, app_nil_r.
    + intros [= <-]. eexists. by rewrite take_nil, app_nil_r.
  - destruct s as [[|c rest] a rm r t]; simpl in *.
    { intros [= <-]. eexists. by rewrite take_nil, app_nil_r. }
    destruct rm.
    2:{ intros _. eexists. split_and!; [done..|].
        by rewrite (Hroom eq_refl), app_nil_r. }
    unfold vrespond_body. simpl. ztest.
    + destruct (Conversion.parse rest) as [type n]. case_decide.
      { intros [= <-]. eexists. by rewrite take_nil, app_nil_r. }
      destruct (vrespond_convert type a) as [[buffer a']|]; [|done]. simpl.
      destruct (render fuel (drop n rest) a') as [bytes'|] eqn:Hr; [|done].
      simpl. intros [= <-].
      destruct buffer as [buffer|]; simpl.
      * destruct (respond_puts buffer true t) as [room1 t1] eqn:Hp.
        apply respond_puts_unread in Hp as (Hv1 & Hr1 & Hs1 & Hu1 & Hf1);
          [|done..].
        edestruct (IH (mkVr (drop n rest) a' room1 r t1)) as
          (s' & Hl & Hv' & Hs' & Hu'); [done|done|exact Hr|].
        exists s'. simpl in *. split_and!; [done|done|congruence|].
        rewrite Hu', Hu1, <- app_assoc, take_app_rest. do 3 f_equal. lia.
      * edestruct (IH (mkVr (drop n rest) a' true r t)) as
          (s' & Hl & Hv' & Hs' & Hu'); [done|done|exact Hr|].
        by exists s'.
    + destruct (render fuel rest a) as [bytes'|] eqn:Hr; [|done].
      simpl. intros [= <-].
      destruct (respond_putc c t) as [room1 t1] eqn:Hp.
      assert (respond_puts [c] true t = (room1, t1)) as Hp'
        by (simpl; by rewrite Hp).
      apply respond_puts_unread in Hp' as (Hv1 & Hr1 & Hs1 & Hu1 & Hf1);
        [|done..].
      edestruct (IH (mkVr rest a room1 (int_incr r) t1)) as
        (s' & Hl & Hv' & Hs' & Hu'); [done|done|exact Hr|].
      exists s'. simpl in *. split_and!; [done|done|congruence|].
      rewrite Hu', Hu1, <- app_assoc.
      change (c :: bytes') with ([c] ++ bytes').
      rewrite (take_app_rest [c]). do 3 f_equal. lia.
Qed.

End ResponderFacts.

Section ResponderResults.

Context {conversion : Conversion.t}.

Lemma vrespond_unread result0 format args t bytes :
  tx_valid t -> rendering format args = Some bytes ->
  exists r t',
    vrespond result0 format args t = Some (r, t') /\ tx_valid t' /\
    tx_sent t' = tx_sent t /\
    unread t' = unread t ++ take (Z.to_nat (free_space t)) bytes.
Proof.
  intros Hv Hr. unfold vrespond.
  destruct (vrespond_loop_unread (S (length format))
              (mkVr format args true result0 t) bytes)
    as (s' & -> & Hv' & Hs' & Hu'); [done..|].
  by exists (result s'), (tx s').
Qed.

Lemma respond__unread format args t bytes :
  tx_valid t -> rendering format args = Some bytes ->
  exists t',
    respond_ format args t = Some t' /\ tx_valid t' /\
    tx_sent t' = tx_sent t /\
    unread t' = unread t ++ take (Z.to_nat (free_space t)) bytes.
Proof.
  intros Hv Hr. unfold respond_, respond.
  destruct (vrespond_unread 0 format args t bytes Hv Hr)
    as (r & t' & -> & H).
  by exists t'.
Qed.

(** *** The counter [result] *)

Lemma int_incr_iter k r :
  int_range r -> Nat.iter k int_incr r = int_wrap (r + Z.of_nat k).
Proof.
  intros Hr. induction k as [|k IH].
  - simpl. rewrite Z.add_0_r. by rewrite int_wrap_small.
  - rewrite Nat.iter_succ, IH. unfold int_incr. rewrite int_wrap_add.
    f_equal. lia.
Qed.

(** A pass over a literal byte counts; a pass over a directive does not,
    whatever it queues. *)
Lemma vrespond_body_result c rest s s' :
  vrespond_body c rest s = Next s' ->
  result s' = if c =? 37 then result s else int_incr (result s).
Proof.
  unfold vrespond_body. ztest.
  - destruct (Conversion.parse rest) as [type n]. case_decide; [done|].
    destruct (vrespond_convert _ _) as [[[buffer|] args']|]; [| |done].
    + destruct (respond_puts _ _ _). by intros [= <-].
    + by intros [= <-].
  - destruct (respond_putc _ _). by intros [= <-].
Qed.

Lemma vrespond_body_with_result c rest s r :
  vrespond_body c rest (with_result r s) =
  match vrespond_body c rest s with
  | Next s' =>
      Next (with_result (if c =? 37 then r else int_incr r) s')
  | Break s' => Break (with_result r s')
  | Undefined => Undefined
  end.
Proof.
  unfold vrespond_body. simpl. ztest.
  - destruct (Conversion.parse rest) as [type n]. case_decide; [done|].
    destruct (vrespond_convert _ _) as [[[buffer|] args']|]; [| |done].
    + by destruct (respond_puts _ _ _).
    + done.
  - by destruct (respond_putc _ _).
Qed.

(** The content of [result] on entry is carried to the exit, plus one for
    each literal pass; nothing else in the loop depends on it. *)
Lemma vrespond_loop_with_result fuel : forall s s',
  vrespond_loop fuel s = Some s' ->
  exists k : nat, forall r,
    vrespond_loop fuel (with_result r s) =
    Some (with_result (Nat.iter k int_incr r) s').
Proof.
  induction fuel as [|fuel IH]; intros s s'; simpl;
    destruct (format s) as [|c rest]; try destruct (room s);
    try (intros [= <-]; by exists 0%nat); try done.
  destruct (vrespond_body c rest s) as [s1|s1|] eqn:Hb; [| |done].
  - intros Hl. apply IH in Hl as [k Hk].
    destruct (Z.eqb_spec c 37) as [->|Hne].
    + exists k. intros r. rewrite vrespond_body_with_result, Hb. apply Hk.
    + exists (S k). intros r. rewrite vrespond_body_with_result, Hb.
      destruct (Z.eqb_spec c 37); [done|].
      rewrite Hk. by rewrite Nat.iter_succ_r.
  - intros [= <-]. exists 0%nat. intros r.
    by rewrite vrespond_body_with_result, Hb.
Qed.

Lemma vrespond_offset result0 format args t r t' :
  vrespond result0 format args t = Some (r, t') ->
  exists k : nat, forall r0,
    vrespond r0 format args t = Some (Nat.iter k int_incr r0, t').
Proof.
  unfold vrespond. intros H.
  destruct (vrespond_loop _ _) as [s'|] eqn:Hl; [|done].
  injection H as <- <-.
  apply vrespond_loop_with_result in Hl as [k Hk].
  exists k. intros r0. specialize (Hk r0).
  change (with_result r0 (mkVr format args true result0 t))
    with (mkVr format args true r0 t) in Hk.
  by rewrite Hk.
Qed.

(** The ring a call leaves does not depend on what [result] held. *)
Lemma respond_tx_indep result0 format args t :
  snd <$> respond result0 format args t = respond_ format args t.
Proof.
  unfold respond_, respond.
  destruct (vrespond result0 format args t) as [[r t']|] eqn:H.
  - apply vrespond_offset in H as [k Hk]. by rewrite (Hk 0).
  - destruct (vrespond 0 format args t) as [[r t']|] eqn:H0; [|done].
    apply vrespond_offset in H0 as [k Hk]. by rewrite Hk in H.
Qed.

(** *** Passes of the loop *)

Lemma vrespond_body_unread c rest s s' :
  tx_valid (tx s) -> room s = true ->
  vrespond_body c rest s = Next s' ->
  tx_valid (tx s') /\ unread (tx s) `prefix_of` unread (tx s').
Proof.
  intros Hv Hroom. unfold vrespond_body. ztest.
  - destruct (Conversion.parse rest) as [type n]. case_decide; [done|].
    destruct (vrespond_convert _ _) as [[[buffer|] args']|]; [| |done].
    + destruct (respond_puts _ _ _) as [room1 t1] eqn:Hp. intros [= <-].
      apply respond_puts_unread in Hp as (Hv1 & _ & _ & Hu1 & _);
        [|done|by rewrite Hroom].
      simpl. split; [done|]. rewrite Hu1. by apply prefix_app_r.
    + by intros [= <-].
  - destruct (respond_putc c (tx s)) as [room1 t1] eqn:Hp. intros [= <-].
    assert (respond_puts [c] true (tx s) = (room1, t1)) as Hp'
      by (simpl; by rewrite Hp).
    apply respond_puts_unread in Hp' as (Hv1 & _ & _ & Hu1 & _); [|done..].
    simpl. split; [done|]. rewrite Hu1. by apply prefix_app_r.
Qed.

Lemma iterates_unread s s' :
  iterates s s' -> tx_valid (tx s) ->
  tx_valid (tx s') /\ unread (tx s) `prefix_of` unread (tx s').
Proof.
  induction 1 as [s|s c rest s1 s2 Hf Hroom Hb _ IH]; intros Hv; [done|].
  destruct (vrespond_body_unread _ _ _ _ Hv Hroom Hb) as [Hv1 Hp1].
  destruct (IH Hv1) as [Hv2 Hp2]. split; [done|]. by etrans.
Qed.

Lemma iterates_break s s' fuel :
  iterates s s' -> at_unknown s' -> (length (format s) < fuel)%nat ->
  exists s'',
    vrespond_loop fuel s = Some s'' /\ tx s'' = tx s' /\
    result s'' = result s' /\ args s'' = args s'.
Proof.
  intros Hit (rest' & Hf' & Hroom' & Hu). revert fuel.
  induction Hit as [s|s c rest s1 s2 Hf Hroom Hb _ IH]; intros fuel Hlen.
  - destruct fuel as [|fuel]; [lia|]. simpl. rewrite Hf', Hroom'.
    unfold vrespond_body. simpl.
    destruct (Conversion.parse rest') as [type n]. simpl in Hu.
    case_decide; [|done]. by eexists.
  - destruct fuel as [|fuel]; [lia|]. simpl. rewrite Hf, Hroom, Hb.
    apply IH; [done..|]. apply vrespond_body_shortens in Hb.
    rewrite Hf in Hlen. simpl in Hlen. lia.
Qed.

(** With fuel beyond the length of the format the loop gives no result only
    when some pass fetches an argument that is not there. *)
Lemma vrespond_loop_None fuel : forall s,
  vrespond_loop fuel s = None -> (length (format s) < fuel)%nat ->
  exists s' c rest,
    iterates s s' /\ format s' = c :: rest /\ room s' = true /\
    vrespond_body c rest s' = Undefined.
Proof.
  induction fuel as [|fuel IH]; intros s; [lia|]. simpl.
  destruct (format s) as [|c rest] eqn:Hf; [done|].
  destruct (room s) eqn:Hroom; [|done].
  destruct (vrespond_body c rest s) as [s1|s1|] eqn:Hb; [|done|].
  - intros Hl Hlen. apply IH in Hl as (s' & c' & rest' & Hit & H).
    + exists s', c', rest'. split; [|done]. by eapply iterates_step.
    + apply vrespond_body_shortens in Hb. simpl in Hlen. lia.
  - intros _ _. exists s, c, rest. split_and!; try done. apply iterates_refl.
Qed.

End ResponderResults.

(** * The claims *)

(** C2. Whatever sequence of [respond_putc] (put) and [write_done] (advance)
    calls follows the zeroing of the cursors, both cursors stay inside the
    array, the bytes written and not yet drained number at most the occupied
    count [(tx_index - tx_sent) mod C], which is at most [C - 1], and the two
    counts agree when no advance exceeds the span offered; in the state
    reached, a put that would bring the write cursor onto the drain cursor
    returns [false] and changes nothing, and an accepted put leaves the write
    cursor off the drain cursor, leaves the drain cursor alone and appends its
    byte behind the unread bytes, none of which it overwrites. *)
Theorem ring_never_overfills (buf : list char) (calls : list tx_call) :
  Z.of_nat (length buf) = output_bufferSIZE ->
  let '(t, outstanding) := tx_run calls (tx_init buf) 0 in
  tx_valid t /\
  outstanding <= occupied t <= output_bufferSIZE - 1 /\
  (disciplined calls (tx_init buf) -> outstanding = occupied t) /\
  forall c,
    ((tx_index t + 1) mod output_bufferSIZE = tx_sent t ->
     respond_putc c t = (false, t)) /\
    (forall t', respond_putc c t = (true, t') ->
       tx_index t' = (tx_index t + 1) mod output_bufferSIZE /\
       tx_index t' <> tx_sent t' /\
       tx_sent t' = tx_sent t /\
       unread t' = unread t ++ [c]).
Proof.
  intros Hlen.
  destruct (tx_run calls (tx_init buf) 0) as [t g] eqn:Hrun.
  destruct (tx_run_invariant calls (tx_init buf) 0) as [Hv Hg].
  { by apply tx_init_valid. }
  { by vm_compute. }
  rewrite Hrun in Hv, Hg. simpl in Hv, Hg.
  pose proof (occupied_range t) as Ho.
  split_and!; [done|done|lia| |].
  { intros Hd.
    pose proof (tx_run_disciplined calls (tx_init buf) 0) as He.
    rewrite Hrun in He. apply He; [by apply tx_init_valid|done|by vm_compute]. }
  intros c. split.
  - destruct Hv as (Hi & Hs & Hl). unfold respond_putc, output_bufferSIZE in *.
    rewrite size_wrap_small by lia. intros Hnext.
    repeat ztest; try done; euclid.
  - intros t' Hp.
    destruct (respond_putc_occupied _ _ _ Hv Hp) as [Hocc Hs].
    split_and!; [| |done|by apply respond_putc_unread].
    + destruct Hv as (Hi & Hsent & Hl).
      unfold respond_putc, output_bufferSIZE in *.
      rewrite size_wrap_small in Hp by lia. revert Hp.
      repeat ztest; intros [= <-]; simpl; euclid.
    + intros Heq. assert (occupied t' = 0) as Hzero; [|lia].
      unfold occupied. by rewrite Heq, Z.sub_diag.
Qed.

Lemma ring_never_overfills_witness :
  let buf := replicate 2048 0 in
  let calls := [Put 65; Put 66; Advance 1; Put 67] in
  Z.of_nat (length buf) = output_bufferSIZE /\
  let '(t, outstanding) := tx_run calls (tx_init buf) 0 in
  tx_valid t /\
  outstanding <= occupied t <= output_bufferSIZE - 1 /\
  (disciplined calls (tx_init buf) -> outstanding = occupied t) /\
  forall c,
    ((tx_index t + 1) mod output_bufferSIZE = tx_sent t ->
     respond_putc c t = (false, t)) /\
    (forall t', respond_putc c t = (true, t') ->
       tx_index t' = (tx_index t + 1) mod output_bufferSIZE /\
       tx_index t' <> tx_sent t' /\
       tx_sent t' = tx_sent t /\
       unread t' = unread t ++ [c]).
Proof.
  split; [reflexivity|].
  apply (ring_never_overfills (replicate 2048 0)
           [Put 65; Put 66; Advance 1; Put 67]).
  reflexivity.
Defined.

Section ResponderClaims.

Context {conversion : Conversion.t}.

(** C3. When the loop of a [vrespond] call, after any number of passes,
    stands before a [%]-directive the decoder does not know, the call
    returns at once with the ring exactly as it is at that moment: what was
    queued before the call and during it stays queued, and neither the rest
    of the format nor any argument is rendered. *)
Theorem unknown_directive_aborts result0 format args t s :
  tx_valid t ->
  iterates (mkVr format args true result0 t) s ->
  at_unknown s ->
  vrespond result0 format args t = Some (result s, tx s) /\
  unread t `prefix_of` unread (tx s).
Proof.
  intros Hv Hit Hu.
  destruct (iterates_break _ _ (S (length format)) Hit Hu)
    as (s' & Hl & Ht & Hr & _); [simpl; lia|].
  unfold vrespond. rewrite Hl. simpl. rewrite Ht, Hr. split; [done|].
  by apply (iterates_unread _ _ Hit).
Qed.

(** C4. A [vrespond] call made with a ring that has less free space than
    the message needs queues exactly the bytes of the rendering for which
    there is free space, in order, and stops there: it returns a value as
    any other call does, the drain cursor [tx_sent] is unchanged, and the
    bytes that were unread before the call are still the first unread
    bytes after it. *)
Theorem vrespond_truncates_at_full result0 format args t bytes :
  tx_valid t -> rendering format args = Some bytes ->
  exists r t',
    vrespond result0 format args t = Some (r, t') /\
    tx_valid t' /\
    tx_sent t' = tx_sent t /\
    unread t' = unread t ++ take (Z.to_nat (free_space t)) bytes.
Proof. apply vrespond_unread. Qed.

(** C10. The value [respond] returns is the content the uninitialised
    local [result] happened to hold, plus one for every pass of the loop
    over a literal byte; passes over a directive leave it alone. The call
    fixes only that offset [k]: every [int] is returned for some initial
    content. *)
Theorem respond_result_indeterminate result0 format args t r t' :
  int_range result0 ->
  respond result0 format args t = Some (r, t') ->
  (forall c rest s s', vrespond_body c rest s = Next s' ->
     result s' = if c =? 37 then result s else int_incr (result s)) /\
  exists k : nat,
    r = int_wrap (result0 + Z.of_nat k) /\
    (forall r0, int_range r0 ->
       respond r0 format args t = Some (int_wrap (r0 + Z.of_nat k), t')) /\
    (forall v, int_range v ->
       exists r0, int_range r0 /\ respond r0 format args t = Some (v, t')).
Proof.
  intros Hr0 H. split; [apply vrespond_body_result|].
  unfold respond in *. pose proof H as H'.
  apply vrespond_offset in H' as [k Hk]. exists k.
  assert (forall r0, int_range r0 ->
    vrespond r0 format args t = Some (int_wrap (r0 + Z.of_nat k), t')) as Hall.
  { intros r0 Hr. by rewrite Hk, int_incr_iter. }
  split_and!; [|done|].
  - rewrite (Hall _ Hr0) in H. by injection H as <-.
  - intros v Hv. exists (int_wrap (v - Z.of_nat k)). split.
    + apply int_wrap_range.
    + rewrite Hall by apply int_wrap_range. rewrite int_wrap_add.
      do 2 f_equal. rewrite <- (int_wrap_small v) at 2 by done.
      f_equal. lia.
Qed.

End ResponderClaims.

Lemma unknown_directive_aborts_witness :
  let t := tx_init (replicate 2048 0) in
  let s := mkVr (chars "%zcd") [] true 2 (tx_after (chars "ab") t) in
  tx_valid t /\
  @iterates decimal_conversion (mkVr (chars "ab%zcd") [] true 0 t) s /\
  @at_unknown decimal_conversion s /\
  @vrespond decimal_conversion 0 (chars "ab%zcd") [] t = Some (result s, tx s) /\
  unread t `prefix_of` unread (tx s).
Proof.
  assert (tx_valid (tx_init (replicate 2048 0))) as Hv
    by (split_and!; vm_compute; done).
  assert (@iterates decimal_conversion
            (mkVr (chars "ab%zcd") [] true 0 (tx_init (replicate 2048 0)))
            (mkVr (chars "%zcd") [] true 2
               (tx_after (chars "ab") (tx_init (replicate 2048 0))))) as Hit.
  { eapply (iterates_step _ 97 (chars "b%zcd")
              (mkVr (chars "b%zcd") [] true 1
                 (tx_after (chars "a") (tx_init (replicate 2048 0)))));
      [reflexivity|reflexivity|vm_compute; reflexivity|].
    eapply (iterates_step _ 98 (chars "%zcd")
              (mkVr (chars "%zcd") [] true 2
                 (tx_after (chars "ab") (tx_init (replicate 2048 0)))));
      [reflexivity|reflexivity|vm_compute; reflexivity|].
    apply iterates_refl. }
  assert (@at_unknown decimal_conversion
            (mkVr (chars "%zcd") [] true 2
               (tx_after (chars "ab") (tx_init (replicate 2048 0))))) as Hu.
  { exists (chars "zcd"). split_and!; reflexivity. }
  split_and!; [exact Hv|exact Hit|exact Hu|..];
    apply (unknown_directive_aborts 0 (chars "ab%zcd") []
             (tx_init (replicate 2048 0)) _ Hv Hit Hu).
Defined.

Lemma vrespond_truncates_at_full_witness :
  tx_valid tx_nearly_full /\
  @rendering decimal_conversion (chars "Er%d" ++ CRLF) [va_int 42]
    = Some (chars "Er42" ++ CRLF) /\
  exists r t',
    @vrespond decimal_conversion 0 (chars "Er%d" ++ CRLF) [va_int 42]
      tx_nearly_full = Some (r, t') /\
    tx_valid t' /\
    tx_sent t' = tx_sent tx_nearly_full /\
    unread t' =
      unread tx_nearly_full ++
      take (Z.to_nat (free_space tx_nearly_full)) (chars "Er42" ++ CRLF).
Proof.
  assert (tx_valid tx_nearly_full) as Hv by (split_and!; vm_compute; done).
  split_and!; [exact Hv|reflexivity|].
  apply (vrespond_truncates_at_full 0 (chars "Er%d" ++ CRLF) [va_int 42]
           tx_nearly_full (chars "Er42" ++ CRLF) Hv).
  reflexivity.
Defined.

Lemma respond_result_indeterminate_witness :
  let t := tx_init (replicate 2048 0) in
  let format := chars "Er%d" ++ CRLF in
  let t' := tx_after (chars "Er42" ++ CRLF) t in
  int_range 7 /\
  @respond decimal_conversion 7 format [va_int 42] t = Some (11, t') /\
  (forall c rest s s', @vrespond_body decimal_conversion c rest s = Next s' ->
     result s' = if c =? 37 then result s else int_incr (result s)) /\
  exists k : nat,
    11 = int_wrap (7 + Z.of_nat k) /\
    (forall r0, int_range r0 ->
       @respond decimal_conversion r0 format [va_int 42] t
         = Some (int_wrap (r0 + Z.of_nat k), t')) /\
    (forall v, int_range v ->
       exists r0, int_range r0 /\
         @respond decimal_conversion r0 format [va_int 42] t = Some (v, t')).
Proof.
  assert (int_range 7) as Hr by (unfold int_range; lia).
  split_and!; [exact Hr|vm_compute; reflexivity|..];
    apply (respond_result_indeterminate 7 (chars "Er%d" ++ CRLF) [va_int 42]
             (tx_init (replicate 2048 0)) 11
             (tx_after (chars "Er42" ++ CRLF) (tx_init (replicate 2048 0))) Hr);
    vm_compute; reflexivity.
Defined.

Section ParserClaims.

Context {conversion : Conversion.t}.

Import Parser.

Lemma is_digit_range c : is_digit c = true <-> 48 <= c <= 57.
Proof. unfold is_digit. rewrite andb_true_iff. lia. Qed.

(** C5. In state VALUE a digit byte [c] replaces the accumulator
    [values[index]], holding [v], by [v * 10 + (c - '0')] reduced modulo
    [2^16]: there is no guard, the sum wraps. *)
Theorem value_digit_wraps c p tx v :
  state p = VALUE -> is_digit c = true ->
  values p !! Z.to_nat (index p) = Some v ->
  parse c p tx =
    Some (false,
          set_values
            (<[Z.to_nat (index p) := (v * 10 + (c - 48)) mod 2 ^ 16]>
               (values p)) p,
          tx).
Proof.
  intros Hs Hd Hv. apply is_digit_range in Hd as Hc.
  unfold parse. rewrite Hs, Hd.
  destruct (Z.eqb_spec c 27); [lia|].
  rewrite Hv. simpl. unfold store_value. rewrite Hv. simpl.
  do 4 f_equal. unfold uint16_wrap. rewrite (Z.mod_small (c - 48)); [done|lia].
Qed.

(** C8. In each of the states TARGET, NEXT_VALUE and VALUE the byte 27
    puts the parser back into COMMAND with command NONE; [parse] returns
    [false] and the ring is untouched, and [App::parse] neither responds
    nor asks anything of the collaborators. *)
Theorem esc_cancels_silently rd p a :
  state p <> COMMAND ->
  App.halted a = false -> App.parser a = p ->
  (forall tx, parse ESC p tx = Some (false, reset p, tx)) /\
  state (reset p) = COMMAND /\ command (reset p) = NONE /\
  exists a',
    App.parse rd ESC a = Some a' /\
    App.parser a' = reset p /\
    App.tx a' = App.tx a /\
    App.actions a' = App.actions a.
Proof.
  intros Hs Hh Hp.
  assert (forall tx, parse ESC p tx = Some (false, reset p, tx)) as Hparse.
  { intros tx. unfold parse. by destruct (state p). }
  split_and!; [done..|].
  unfold App.parse. rewrite Hh. simpl. rewrite Hp, Hparse. simpl.
  by eexists.
Qed.

End ParserClaims.

Lemma value_digit_wraps_witness :
  let p := Parser.mk Parser.VALUE Parser.RESET 0 0 [6553; 0] in
  let tx := tx_init (replicate 2048 0) in
  Parser.state p = Parser.VALUE /\ Parser.is_digit 54 = true /\
  Parser.values p !! Z.to_nat (Parser.index p) = Some 6553 /\
  @Parser.parse decimal_conversion 54 p tx =
    Some (false, Parser.mk Parser.VALUE Parser.RESET 0 0 [0; 0], tx).
Proof.
  split_and!; [reflexivity..|].
  apply (@value_digit_wraps decimal_conversion 54
           (Parser.mk Parser.VALUE Parser.RESET 0 0 [6553; 0])
           (tx_init (replicate 2048 0)) 6553); reflexivity.
Defined.

Lemma esc_cancels_silently_witness :
  let p := Parser.mk Parser.VALUE Parser.VALVE 1 0 [25; 0] in
  let a := App.set_parser p App.boot in
  Parser.state p <> Parser.COMMAND /\
  App.halted a = false /\ App.parser a = p /\
  (forall tx, @Parser.parse decimal_conversion ESC p tx
              = Some (false, Parser.reset p, tx)) /\
  Parser.state (Parser.reset p) = Parser.COMMAND /\
  Parser.command (Parser.reset p) = Parser.NONE /\
  exists a',
    @App.parse decimal_conversion idle ESC a = Some a' /\
    App.parser a' = Parser.reset p /\
    App.tx a' = App.tx a /\
    App.actions a' = App.actions a.
Proof.
  assert (Parser.state (Parser.mk Parser.VALUE Parser.VALVE 1 0 [25; 0])
          <> Parser.COMMAND) as Hs by (simpl; discriminate).
  split_and!; [exact Hs|reflexivity|reflexivity|..];
    apply (@esc_cancels_silently decimal_conversion idle
             (Parser.mk Parser.VALUE Parser.VALVE 1 0 [25; 0])
             (App.set_parser
                (Parser.mk Parser.VALUE Parser.VALVE 1 0 [25; 0]) App.boot)
             Hs); reflexivity.
Defined.

Section AppClaims.

Context {conversion : Conversion.t}.

Import App.

Lemma respond_in_unread format args a bytes :
  tx_valid (tx a) -> rendering format args = Some bytes ->
  exists t',
    respond_in format args a = Some (set_tx t' a) /\ tx_valid t' /\
    tx_sent t' = tx_sent (tx a) /\
    unread t' = unread (tx a) ++ take (Z.to_nat (free_space (tx a))) bytes.
Proof.
  intros Hv Hr. unfold respond_in.
  destruct (respond__unread format args (tx a) bytes Hv Hr)
    as (t' & -> & H).
  by exists t'.
Qed.

Local Arguments decimal : simpl never.

Lemma rendering_Er v :
  renders_decimal conversion ->
  rendering (chars "Er%d" ++ CRLF) [va_int v]
    = Some (chars "Er" ++ decimal v ++ CRLF).
Proof.
  intros [Hparse Hint]. unfold rendering. simpl.
  rewrite Hparse. simpl. by rewrite Hint.
Qed.

(** C7. After the collaborators' own [periodic], [App::periodic] gives the
    indicator exactly one state, chosen by priority: both valves active,
    else valve 0, else valve 1, else the deadline [timeout_] before the
    clock, else connected. *)
Theorem indicator_priority rd a :
  exists st,
    actions (periodic rd a) =
      actions a ++
      (periodic_of <$>
         [indicator_; valve0_; valve1_; moisture0_; moisture1_;
          flow0_; flow1_]) ++ [set_state st] /\
    indicator_state (periodic rd a) = Some st /\
    resolves (valve0_get rd) (valve1_get rd)
      (timeout_ a <? time_us_64 rd) st.
Proof.
  assert (forall st x, actions x = actions a ++
            (periodic_of <$> [indicator_; valve0_; valve1_; moisture0_;
                               moisture1_; flow0_; flow1_]) ->
          actions (act (set_state st) x) =
            actions a ++ (periodic_of <$> [indicator_; valve0_; valve1_;
               moisture0_; moisture1_; flow0_; flow1_]) ++ [set_state st] /\
          indicator_state (act (set_state st) x) = Some st) as Hact.
  { intros st x Hx. unfold indicator_state. simpl. rewrite Hx. split.
    - by rewrite <- app_assoc.
    - rewrite omap_app. simpl. apply last_snoc. }
  unfold periodic.
  set (x := foldl _ a _).
  assert (actions x = actions a ++
            (periodic_of <$> [indicator_; valve0_; valve1_; moisture0_;
                               moisture1_; flow0_; flow1_])) as Hx
    by (simpl; by rewrite <- !app_assoc).
  change (timeout_ x) with (timeout_ a). clearbody x.
  destruct (valve0_get rd), (valve1_get rd); simpl;
    [| | |destruct (timeout_ a <? time_us_64 rd)];
    eexists; (split_and!; [by apply Hact|by apply Hact|constructor]).
Qed.

(** C6. Dispatching a completed RESET command whose value is [v]: 5511
    calls [reset_usb_boot], 1033 calls [watchdog_reboot] with the reset
    delay, and neither responds; any other value asks nothing of the
    hardware and queues [Er], the value in decimal, CR and LF (as far as
    the ring has room). The console print precedes all three. *)
Theorem reset_accepts_two_codes rd a v rest :
  renders_decimal conversion -> tx_valid (tx a) ->
  Parser.command (parser a) = Parser.RESET ->
  Parser.values (parser a) = v :: rest ->
  let printed :=
    console_printf (chars "Reset value: %d" ++ CRLF) [va_int v] in
  let response := chars "Er" ++ decimal v ++ CRLF in
  exists a',
    perform_command rd a = Some a' /\
    (v = 5511 ->
       actions a' = actions a ++ [printed; reset_usb_boot 0 0] /\
       tx a' = tx a) /\
    (v = 1033 ->
       actions a' = actions a ++ [printed; watchdog_reboot 0 0 100] /\
       tx a' = tx a) /\
    (v <> 5511 -> v <> 1033 ->
       actions a' = actions a ++ [printed] /\
       tx_sent (tx a') = tx_sent (tx a) /\
       unread (tx a') =
         unread (tx a) ++ take (Z.to_nat (free_space (tx a))) response /\
       (Z.of_nat (length response) <= free_space (tx a) ->
        unread (tx a') = unread (tx a) ++ response)).
Proof.
  intros Hdec Hv Hc Hvs printed response.
  unfold perform_command. rewrite Hc, Hvs. simpl.
  destruct (Z.eqb_spec v 5511) as [->|H1].
  { eexists. split; [done|]. simpl. rewrite <- app_assoc.
    split_and!; done. }
  destruct (Z.eqb_spec v 1033) as [->|H2].
  { eexists. split; [done|]. simpl. rewrite <- app_assoc.
    split_and!; done. }
  edestruct (respond_in_unread (chars "Er%d" ++ CRLF) [va_int v]
               (act printed a)) as (t' & Hr & Hv' & Hs' & Hu');
    [exact Hv|by apply rendering_Er|].
  exists (set_tx t' (act printed a)). split; [exact Hr|].
  split_and!; try done. intros _ _.
  split_and!; [done|exact Hs'|exact Hu'|].
  intros Hroom. change (tx (set_tx t' (act printed a))) with t'.
  rewrite Hu'. change (tx (act printed a)) with (tx a). f_equal.
  apply take_ge. subst response. simpl in *. lia.
Qed.

Lemma chars_V0100 : chars "V0100" = [86; 48; 49; 48; 48].
Proof. reflexivity. Qed.

Lemma chars_V0100_sep : chars "V0100," = [86; 48; 49; 48; 48; 44].
Proof. reflexivity. Qed.

Lemma rendering_AV0 args :
  rendering (chars "AV0" ++ CRLF) args = Some (chars "AV0" ++ CRLF).
Proof. reflexivity. Qed.

Local Arguments set_tx _ _ /.
Local Arguments set_parser _ _ /.
Local Arguments set_rx_buffer _ _ /.
Local Arguments set_timeout_ _ _ /.
Local Arguments act _ _ /.
Local Arguments Parser.set_state _ _ /.
Local Arguments Parser.set_command _ _ /.
Local Arguments Parser.set_target _ _ /.
Local Arguments Parser.set_index _ _ /.
Local Arguments Parser.set_values _ _ /.
Local Arguments Parser.store_value _ _ /.
Local Arguments parser_idle /.

Opaque chars respond_in.

Lemma is_terminator_tests c :
  Parser.is_terminator c = true ->
  (c =? 27) = false /\ Parser.is_digit c = false /\
  ((c =? 44) || (c =? 58)) = false.
Proof.
  unfold Parser.is_terminator.
  destruct (c =? 27), (Parser.is_digit c), ((c =? 44) || (c =? 58)); done.
Qed.

(** The two lines of the valve scenario. [V0100] and a terminator complete
    a VALVE command with target 0 and values [100, 0], which is dispatched
    and acknowledged; after [V0100,] the parser waits in NEXT_VALUE with
    index 1 and passes over the terminator. *)
Lemma valve_V0100_lines env a term :
  tx_valid (tx a) -> halted a = false -> parser a = parser_idle ->
  Parser.is_terminator term = true ->
  Parser.parse_all (chars "V0100" ++ [term]) parser_idle (tx a) =
    Some ([false; false; false; false; false; true],
          Parser.mk Parser.VALUE Parser.VALVE 0 0 [100; 0], tx a) /\
  (exists a',
     receive env (chars "V0100" ++ [term]) a = Some a' /\
     actions a' =
       actions a ++
       [console_printf (chars "Valve target: %d pulse: %d" ++ CRLF)
          [va_int 0; va_int 100];
        pulse valve0_ 100] /\
     parser a' = parser_idle /\
     tx_sent (tx a') = tx_sent (tx a) /\
     unread (tx a') =
       unread (tx a) ++
       take (Z.to_nat (free_space (tx a))) (chars "AV0" ++ CRLF)) /\
  Parser.parse_all (chars "V0100," ++ [term]) parser_idle (tx a) =
    Some (replicate 7 false,
          Parser.mk Parser.NEXT_VALUE Parser.VALVE 0 1 [100; 0], tx a) /\
  (exists a',
     receive env (chars "V0100," ++ [term]) a = Some a' /\
     actions a' = actions a /\ tx a' = tx a /\
     parser a' = Parser.mk Parser.NEXT_VALUE Parser.VALVE 0 1 [100; 0] /\
     halted a' = false).
Proof.
  intros Hv Hh Hp (Hesc & Hdig & Hsep)%is_terminator_tests.
  split_and!.
  - rewrite chars_V0100. simpl. unfold Parser.parse at 1. simpl.
    by rewrite Hesc, Hdig, Hsep.
  - destruct a as [t p rx tm acts h]. simpl in *. subst h p.
    unfold receive, read_done. rewrite chars_V0100.
    simpl.
    change (uint8_wrap (48 - 48)) with 0.
    change (uint16_wrap (uint16_wrap (uint16_wrap (49 - 48) * 10 +
              uint16_wrap (48 - 48)) * 10 + uint16_wrap (48 - 48)))
      with 100.
    unfold parse. simpl. unfold Parser.parse. simpl.
    rewrite Hesc, Hdig, Hsep. simpl. unfold perform_command. simpl.
    match goal with |- context [respond_in ?f ?args ?x] =>
      destruct (respond_in_unread f args x _ Hv (rendering_AV0 args))
        as (t' & -> & Hv' & Hs' & Hu')
    end.
    simpl. eexists. split; [done|]. simpl.
    by rewrite <- app_assoc.
  - rewrite chars_V0100_sep. simpl. unfold Parser.parse at 1. simpl.
    by rewrite Hesc, Hdig.
  - destruct a as [t p rx tm acts h]. simpl in *. subst h p.
    unfold receive, read_done. rewrite chars_V0100_sep.
    simpl. unfold parse. simpl. unfold Parser.parse. simpl.
    rewrite Hesc, Hdig. simpl. eexists. split; [done|]. simpl.
    split_and!; try done.
Qed.

Transparent chars respond_in.

End AppClaims.

Lemma indicator_priority_examples :
  App.indicator_state
    (App.periodic (App.mkReadings 5 0 true true false 0 false 0 false 0 false 0)
       App.boot) = Some App.BOTH_VALVES_ON /\
  App.indicator_state
    (App.periodic (App.mkReadings 5 0 false true false 0 false 0 false 0 false 0)
       App.boot) = Some App.VALVE1_ON /\
  App.indicator_state
    (App.periodic (App.mkReadings 5 0 false false false 0 false 0 false 0 false 0)
       App.boot) = Some App.DISCONNECTED /\
  App.indicator_state (App.periodic idle App.boot) = Some App.CONNECTED.
Proof. split_and!; reflexivity. Qed.

Lemma reset_accepts_two_codes_witness :
  let a :=
    App.set_parser (Parser.mk Parser.VALUE Parser.RESET 0 0 [42; 0]) App.boot in
  let printed :=
    App.console_printf (chars "Reset value: %d" ++ CRLF) [va_int 42] in
  renders_decimal decimal_conversion /\ tx_valid (App.tx a) /\
  Parser.command (App.parser a) = Parser.RESET /\
  Parser.values (App.parser a) = [42; 0] /\
  exists a',
    @App.perform_command decimal_conversion idle a = Some a' /\
    (42 = 5511 ->
       App.actions a' = App.actions a ++ [printed; App.reset_usb_boot 0 0] /\
       App.tx a' = App.tx a) /\
    (42 = 1033 ->
       App.actions a' =
         App.actions a ++ [printed; App.watchdog_reboot 0 0 100] /\
       App.tx a' = App.tx a) /\
    (42 <> 5511 -> 42 <> 1033 ->
       App.actions a' = App.actions a ++ [printed] /\
       tx_sent (App.tx a') = tx_sent (App.tx a) /\
       unread (App.tx a') =
         unread (App.tx a) ++
         take (Z.to_nat (free_space (App.tx a)))
           (chars "Er" ++ decimal 42 ++ CRLF) /\
       (Z.of_nat (length (chars "Er" ++ decimal 42 ++ CRLF))
          <= free_space (App.tx a) ->
        unread (App.tx a') =
          unread (App.tx a) ++ chars "Er" ++ decimal 42 ++ CRLF)).
Proof.
  assert (renders_decimal decimal_conversion) as Hdec
    by (split; intros; reflexivity).
  assert (tx_valid (App.tx App.boot)) as Hv
    by (split_and!; vm_compute; done).
  split_and!; [exact Hdec|exact Hv|reflexivity|reflexivity|].
  apply (@reset_accepts_two_codes decimal_conversion idle
           (App.set_parser (Parser.mk Parser.VALUE Parser.RESET 0 0 [42; 0])
              App.boot)
           42 [0] Hdec Hv); reflexivity.
Defined.

(** C1 as stated fails. After [V0100,] the parser is in NEXT_VALUE, where a
    CR is ignored: no command completes, no valve is pulsed and the ring
    stays empty. *)
Lemma valve_with_separator_not_dispatched :
  (exists a',
     @App.receive decimal_conversion (fun _ => idle)
       (chars "V0100," ++ [CR]) App.boot = Some a' /\
     App.actions a' = [] /\ unread (App.tx a') = [] /\
     App.parser a' = Parser.mk Parser.NEXT_VALUE Parser.VALVE 0 1 [100; 0]) /\
  @Parser.parse_all decimal_conversion (chars "V0100," ++ [CR])
    (App.parser App.boot) (App.tx App.boot)
    = Some (replicate 7 false,
            Parser.mk Parser.NEXT_VALUE Parser.VALVE 0 1 [100; 0],
            App.tx App.boot) /\
  ~ (exists a',
       @App.receive decimal_conversion (fun _ => idle)
         (chars "V0100," ++ [CR]) App.boot = Some a' /\
       (In (App.pulse App.valve0_ 100) (App.actions a') \/
        unread (App.tx a') = chars "AV0" ++ CRLF)).
Proof.
  split_and!.
  - eexists. split; [vm_compute; reflexivity|]. split_and!; reflexivity.
  - vm_compute. reflexivity.
  - intros (a' & H & Hc). vm_compute in H. injection H as <-.
    destruct Hc as [[]|Hu]. vm_compute in Hu. discriminate.
Qed.

(** * Further properties *)

(** ** Draining the ring *)

Lemma length_unread t : length (unread t) = Z.to_nat (occupied t).
Proof. unfold unread. by rewrite length_map, length_seq. Qed.

Lemma unread_lookup t (i : nat) :
  (i < Z.to_nat (occupied t))%nat ->
  unread t !! i = Some (output_buffer t !!! unread_slot t (Z.of_nat i)).
Proof.
  intros Hi. unfold unread.
  change (map ?f ?l) with (f <$> l).
  by rewrite list_lookup_fmap, lookup_seq_lt.
Qed.

Lemma span_bytes_unread t :
  tx_valid t ->
  span_bytes t = take (Z.to_nat (write_buffer t).2) (unread t).
Proof.
  intros Hv. pose proof (write_buffer_occupied t Hv) as Hocc.
  destruct Hv as (Hi & Hs & Hl).
  assert ((write_buffer t).1 + (write_buffer t).2 <= output_bufferSIZE) as Hend.
  { unfold write_buffer, occupied, output_bufferSIZE in *. simpl.
    ztest; euclid. }
  unfold span_bytes. destruct (write_buffer t) as [i n] eqn:Hw.
  assert (i = tx_sent t) as -> by (by injection Hw).
  simpl in *.
  apply (list_eq_same_length _ _ (Z.to_nat n)).
  - rewrite length_take, length_unread. lia.
  - rewrite length_take, length_drop. unfold output_bufferSIZE in *. lia.
  - intros k x y Hk. rewrite !lookup_take_lt, lookup_drop by done.
    rewrite unread_lookup by lia. intros Hx [= <-]. symmetry.
    apply list_lookup_total_correct. rewrite <- Hx. f_equal.
    unfold unread_slot, output_bufferSIZE in *.
    rewrite Z.mod_small by lia. lia.
Qed.

Lemma write_done_unread n t :
  tx_valid t -> 0 <= n <= (write_buffer t).2 ->
  unread (write_done n t) = drop (Z.to_nat n) (unread t).
Proof.
  intros Hv Hn.
  pose proof (write_done_occupied n t Hv Hn) as Hocc.
  pose proof (write_buffer_occupied t Hv) as Hsz.
  pose proof (occupied_range t) as Hr.
  assert (size_wrap n = n) as Hw
    by (apply size_wrap_small; unfold output_bufferSIZE in *; lia).
  rewrite Hw in Hocc.
  apply (list_eq_same_length _ _ (Z.to_nat (occupied t - n))).
  - rewrite length_drop, length_unread. lia.
  - rewrite length_unread. lia.
  - intros k x y Hk. rewrite lookup_drop, !unread_lookup by lia.
    intros [= <-] [= <-]. f_equal.
    destruct Hv as (Hi & Hs & Hl).
    unfold unread_slot, write_done, write_buffer, output_bufferSIZE in *.
    simpl in *. rewrite Hw, size_wrap_small by (revert Hn; ztest; lia).
    f_equal. revert Hn. repeat ztest; intros; euclid.
Qed.

(** X1. The span [write_buffer] offers starts at the drain cursor, ends
    inside the array, is empty exactly when nothing is unread, and holds the
    oldest unread bytes in order. *)
Theorem write_buffer_span t :
  tx_valid t ->
  (write_buffer t).1 = tx_sent t /\
  0 <= (write_buffer t).2 <= occupied t /\
  (write_buffer t).1 + (write_buffer t).2 <= output_bufferSIZE /\
  ((write_buffer t).2 = 0 <-> occupied t = 0) /\
  span_bytes t = take (Z.to_nat (write_buffer t).2) (unread t).
Proof.
  intros Hv. pose proof (write_buffer_occupied t Hv) as Hocc.
  destruct Hv as (Hi & Hs & Hl).
  assert ((write_buffer t).1 + (write_buffer t).2 <= output_bufferSIZE /\
          ((write_buffer t).2 = 0 <-> occupied t = 0)) as [Hend Hz].
  { unfold write_buffer, occupied, output_bufferSIZE in *. simpl.
    ztest; split; try split; intros; euclid. }
  split_and!; [done|lia|lia|done|done|].
  by apply span_bytes_unread.
Qed.

Lemma write_buffer_span_witness :
  let t := {| output_buffer := replicate 2048 7; tx_index := 3;
              tx_sent := 2040 |} in
  tx_valid t /\
  (write_buffer t).1 = tx_sent t /\
  0 <= (write_buffer t).2 <= occupied t /\
  (write_buffer t).1 + (write_buffer t).2 <= output_bufferSIZE /\
  ((write_buffer t).2 = 0 <-> occupied t = 0) /\
  span_bytes t = take (Z.to_nat (write_buffer t).2) (unread t).
Proof.
  assert (tx_valid {| output_buffer := replicate 2048 7; tx_index := 3;
                      tx_sent := 2040 |}) as Hv
    by (split_and!; vm_compute; done).
  split; [exact Hv|].
  apply (write_buffer_span
           {| output_buffer := replicate 2048 7; tx_index := 3;
              tx_sent := 2040 |} Hv).
Defined.

(** X2. An advance by no more than the span offered removes that many of the
    oldest unread bytes and nothing else: the rest stays unread in order,
    the write cursor and the array are untouched. *)
Theorem write_done_drops_oldest n t :
  tx_valid t -> 0 <= n <= (write_buffer t).2 ->
  unread (write_done n t) = drop (Z.to_nat n) (unread t) /\
  tx_index (write_done n t) = tx_index t /\
  output_buffer (write_done n t) = output_buffer t.
Proof.
  intros Hv Hn. split; [|done]. by apply write_done_unread.
Qed.

Lemma write_done_drops_oldest_witness :
  let t := {| output_buffer := replicate 2048 7; tx_index := 3;
              tx_sent := 2040 |} in
  tx_valid t /\ 0 <= 8 <= (write_buffer t).2 /\
  unread (write_done 8 t) = drop (Z.to_nat 8) (unread t) /\
  tx_index (write_done 8 t) = tx_index t /\
  output_buffer (write_done 8 t) = output_buffer t.
Proof.
  assert (tx_valid {| output_buffer := replicate 2048 7; tx_index := 3;
                      tx_sent := 2040 |}) as Hv
    by (split_and!; vm_compute; done).
  assert (0 <= 8 <= (write_buffer
            {| output_buffer := replicate 2048 7; tx_index := 3;
               tx_sent := 2040 |}).2) as Hn by (vm_compute; split; discriminate).
  split_and!; [exact Hv|apply Hn|apply Hn|..];
    apply (write_done_drops_oldest 8
             {| output_buffer := replicate 2048 7; tx_index := 3;
                tx_sent := 2040 |} Hv Hn).
Defined.

Lemma drain_span t :
  tx_valid t -> (write_buffer (drain t)).2 = occupied (drain t).
Proof.
  intros (Hi & Hs & Hl).
  unfold drain, write_done, write_buffer, occupied, output_bufferSIZE in *.
  simpl. rewrite (size_wrap_small (if _ <? _ then _ else _))
    by (ztest; lia).
  rewrite size_wrap_small by (ztest; lia).
  repeat ztest; euclid.
Qed.

Lemma drain_sent t :
  tx_valid t ->
  tx_index (drain t) = tx_index t /\
  tx_sent (drain t) = if tx_index t <? tx_sent t then 0 else tx_index t.
Proof.
  intros (Hi & Hs & Hl). split; [done|].
  unfold drain, write_done, write_buffer, output_bufferSIZE in *. simpl.
  destruct (Z.ltb_spec (tx_index t) (tx_sent t));
    rewrite !size_wrap_small by (rewrite ?size_wrap_small; lia);
    ztest; lia.
Qed.

Lemma two_drains t :
  tx_valid t ->
  span_bytes t ++ span_bytes (drain t) = unread t /\
  unread (drain (drain t)) = [] /\
  tx_sent (drain (drain t)) = tx_index t.
Proof.
  intros Hv.
  pose proof (write_buffer_occupied t Hv) as Hsz.
  assert (tx_valid (drain t)) as Hv1 by by apply write_done_valid.
  pose proof (write_buffer_occupied _ Hv1) as Hsz1.
  pose proof (drain_span t Hv) as Hd.
  assert (unread (drain t)
          = drop (Z.to_nat (write_buffer t).2) (unread t)) as Hu1
    by (apply write_done_unread; [done|lia]).
  split_and!.
  - rewrite (span_bytes_unread t Hv), (span_bytes_unread _ Hv1), Hd.
    rewrite <- length_unread, firstn_all, Hu1. apply take_drop.
  - unfold drain at 1. rewrite write_done_unread by (done || lia).
    rewrite Hd, <- length_unread. apply drop_all.
  - destruct (drain_sent t Hv) as [Hi1 Hs1].
    destruct (drain_sent _ Hv1) as [_ Hs2].
    rewrite Hs2, Hi1, Hs1. destruct Hv as (Hi & _).
    destruct (Z.ltb_spec (tx_index t) (tx_sent t)); ztest; lia.
Qed.

(** X3. Two rounds of the transport, each sending the whole span offered,
    send exactly the unread bytes in order, the second span being what the
    first left behind the physical end of the array, and leave the ring
    empty with the drain cursor on the write cursor. *)
Theorem two_drains_send_all t :
  tx_valid t ->
  span_bytes t ++ span_bytes (drain t) = unread t /\
  unread (drain (drain t)) = [] /\
  tx_sent (drain (drain t)) = tx_index t.
Proof. apply two_drains. Qed.

Lemma two_drains_send_all_witness :
  let t := {| output_buffer := replicate 2048 7; tx_index := 3;
              tx_sent := 2040 |} in
  tx_valid t /\
  span_bytes t ++ span_bytes (drain t) = unread t /\
  unread (drain (drain t)) = [] /\
  tx_sent (drain (drain t)) = tx_index t.
Proof.
  assert (tx_valid {| output_buffer := replicate 2048 7; tx_index := 3;
                      tx_sent := 2040 |}) as Hv
    by (split_and!; vm_compute; done).
  split; [exact Hv|].
  apply (two_drains_send_all
           {| output_buffer := replicate 2048 7; tx_index := 3;
              tx_sent := 2040 |} Hv).
Defined.

Lemma respond_puts_room buffer : forall t,
  tx_valid t ->
  (respond_puts buffer true t).1 = true <->
  Z.of_nat (length buffer) <= free_space t.
Proof.
  induction buffer as [|c buffer IH]; intros t Hv; simpl.
  { pose proof (free_space_range t). split; [lia|done]. }
  destruct (respond_putc c t) as [ok t1] eqn:Hp.
  pose proof (respond_putc_valid c t Hv) as Hv1.
  pose proof (respond_putc_full c t Hv) as Hfull.
  pose proof (free_space_range t) as Hfr.
  rewrite Hp in Hv1, Hfull. simpl in Hv1, Hfull. destruct ok.
  - destruct (respond_putc_occupied _ _ _ Hv Hp) as [Ho Hs].
    assert (free_space t <> 0) as Hne by (intros H0; by apply Hfull in H0).
    rewrite (IH t1 Hv1). unfold free_space in *. lia.
  - rewrite respond_puts_no_room. simpl.
    rewrite (proj1 Hfull eq_refl). split; [done|lia].
Qed.

(** X4. The ring holds at most [output_bufferSIZE - 1] bytes: a string is
    queued whole exactly when it is no longer than the free space, which is
    2047 bytes for an empty ring; of a longer string the first [free_space]
    bytes are queued and the flag comes back [false]. *)
Theorem ring_capacity buffer t room t' :
  tx_valid t -> respond_puts buffer true t = (room, t') ->
  (room = true <-> Z.of_nat (length buffer) <= free_space t) /\
  unread t' = unread t ++ take (Z.to_nat (free_space t)) buffer /\
  (tx_index t = tx_sent t -> unread t' = take 2047 buffer).
Proof.
  intros Hv Hp. pose proof (respond_puts_room buffer t Hv) as Hroom.
  rewrite Hp in Hroom. simpl in Hroom.
  apply respond_puts_unread in Hp as (_ & _ & _ & Hu & _); [|done..].
  split_and!; [done|done|]. intros Heq. rewrite Hu.
  unfold unread, free_space, occupied.
  by rewrite Heq, Z.sub_diag.
Qed.

Lemma ring_capacity_witness :
  let t := tx_init (replicate 2048 0) in
  let buffer := replicate 2048 65 in
  tx_valid t /\
  respond_puts buffer true t = (false, tx_after buffer t) /\
  (false = true <-> Z.of_nat (length buffer) <= free_space t) /\
  unread (tx_after buffer t)
    = unread t ++ take (Z.to_nat (free_space t)) buffer /\
  (tx_index t = tx_sent t -> unread (tx_after buffer t) = take 2047 buffer).
Proof.
  assert (tx_valid (tx_init (replicate 2048 0))) as Hv
    by (split_and!; vm_compute; done).
  assert (respond_puts (replicate 2048 65) true (tx_init (replicate 2048 0))
          = (false, tx_after (replicate 2048 65) (tx_init (replicate 2048 0))))
    as Hp by (vm_compute; reflexivity).
  destruct (ring_capacity (replicate 2048 65) (tx_init (replicate 2048 0))
              false _ Hv Hp) as (H1 & H2 & H3).
  split_and!; [exact Hv|exact Hp|exact H1|exact H2|exact H3].
Defined.

(** ** More on the responder *)

Section ResponderExtras.

Context {conversion : Conversion.t}.

Lemma vrespond_body_frame c rest s s' :
  tx_valid (tx s) -> room s = true ->
  vrespond_body c rest s = Next s' ->
  tx_valid (tx s') /\ tx_sent (tx s') = tx_sent (tx s) /\
  unread (tx s) `prefix_of` unread (tx s').
Proof.
  intros Hv Hroom. unfold vrespond_body. ztest.
  - destruct (Conversion.parse rest) as [type n]. case_decide; [done|].
    destruct (vrespond_convert _ _) as [[[buffer|] args']|]; [| |done].
    + destruct (respond_puts _ _ _) as [room1 t1] eqn:Hp. intros [= <-].
      apply respond_puts_unread in Hp as (Hv1 & _ & Hs1 & Hu1 & _);
        [|done|by rewrite Hroom].
      simpl. split_and!; [done..|]. rewrite Hu1. by apply prefix_app_r.
    + by intros [= <-].
  - destruct (respond_putc c (tx s)) as [room1 t1] eqn:Hp. intros [= <-].
    assert (respond_puts [c] true (tx s) = (room1, t1)) as Hp'
      by (simpl; by rewrite Hp).
    apply respond_puts_unread in Hp' as (Hv1 & _ & Hs1 & Hu1 & _); [|done..].
    simpl. split_and!; [done..|]. rewrite Hu1. by apply prefix_app_r.
Qed.

Lemma vrespond_body_break c rest s s' :
  vrespond_body c rest s = Break s' -> tx s' = tx s.
Proof.
  unfold vrespond_body. ztest.
  - destruct (Conversion.parse rest) as [type n]. case_decide.
    + by intros [= <-].
    + destruct (vrespond_convert _ _) as [[[buffer|] args']|]; [| |done].
      * by destruct (respond_puts _ _ _).
      * done.
  - by destruct (respond_putc _ _).
Qed.

(** Whatever the format and the arguments, a pass of the loop that returns
    leaves the drain cursor alone and keeps every unread byte. *)
Lemma vrespond_loop_frame fuel : forall s s',
  vrespond_loop fuel s = Some s' -> tx_valid (tx s) ->
  tx_valid (tx s') /\ tx_sent (tx s') = tx_sent (tx s) /\
  unread (tx s) `prefix_of` unread (tx s').
Proof.
  induction fuel as [|fuel IH]; intros s s'; simpl;
    destruct (format s) as [|c rest]; try destruct (room s) eqn:Hroom;
    try (by intros [= <-]); try done.
  destruct (vrespond_body c rest s) as [s1|s1|] eqn:Hb; [| |done].
  - intros Hl Hv.
    destruct (vrespond_body_frame _ _ _ _ Hv Hroom Hb) as (Hv1 & Hs1 & Hp1).
    destruct (IH _ _ Hl Hv1) as (Hv2 & Hs2 & Hp2).
    split_and!; [done|congruence|by etrans].
  - intros [= <-] Hv. apply vrespond_body_break in Hb. by rewrite Hb.
Qed.

Lemma respond__frame format args t t' :
  respond_ format args t = Some t' -> tx_valid t ->
  tx_valid t' /\ tx_sent t' = tx_sent t /\ unread t `prefix_of` unread t'.
Proof.
  unfold respond_, respond, vrespond.
  destruct (vrespond_loop _ _) as [s'|] eqn:Hl; [|done]. simpl.
  intros [= <-] Hv. by apply (vrespond_loop_frame _ _ _ Hl).
Qed.

Lemma vrespond_loop_literal (format : list char) : forall fuel va r t,
  Forall (fun c => c <> 37) format -> (length format < fuel)%nat ->
  tx_valid t ->
  exists s',
    vrespond_loop fuel (mkVr format va true r t) = Some s' /\
    args s' = va /\
    tx s' = (respond_puts format true t).2 /\
    result s' =
      Nat.iter (Z.to_nat (Z.of_nat (length format) `min` (free_space t + 1)))
        int_incr r.
Proof.
  induction format as [|c rest IH]; intros fuel va r t Hlit Hlen Hv.
  { destruct fuel; simpl; eexists; split_and!; try done;
      pose proof (free_space_range t); by rewrite Z.min_l by lia. }
  destruct fuel as [|fuel]; [simpl in Hlen; lia|].
  apply Forall_cons in Hlit as [Hc Hlit]. simpl.
  unfold vrespond_body. simpl. destruct (Z.eqb_spec c 37); [done|].
  destruct (respond_putc c t) as [ok t1] eqn:Hp.
  pose proof (respond_putc_valid c t Hv) as Hv1.
  pose proof (respond_putc_full c t Hv) as Hfull.
  pose proof (free_space_range t) as Hfr.
  rewrite Hp in Hv1, Hfull. simpl in Hv1, Hfull. destruct ok.
  - destruct (respond_putc_occupied _ _ _ Hv Hp) as [Ho Hs].
    assert (free_space t <> 0) as Hne by (intros H0; by apply Hfull in H0).
    destruct (IH fuel va (int_incr r) t1 Hlit) as (s' & -> & Ha & Ht & Hr);
      [simpl in Hlen; lia|done|].
    exists s'. split_and!; [done..|].
    rewrite Hr, <- Nat.iter_succ_r. f_equal.
    unfold free_space in *. simpl length. lia.
  - apply respond_putc_refused in Hp as ->.
    rewrite respond_puts_no_room.
    exists (mkVr rest va false (int_incr r) t).
    split_and!; [by destruct fuel, rest|done|done|].
    rewrite (proj1 Hfull eq_refl). simpl length.
    by replace (Z.to_nat _) with 1%nat by lia.
Qed.

(** X5. For a format without [%] the bytes queued are the format itself, as
    far as it fits, and no argument is looked at; the value returned is the
    initial content of [result] plus the number of bytes offered to the
    ring, the refused one included, which is one more than the number
    queued when the ring fills. *)
Theorem respond_literal result0 (format : list char) args t :
  tx_valid t -> int_range result0 ->
  Forall (fun c => c <> 37) format ->
  exists t',
    respond result0 format args t =
      Some (int_wrap
              (result0 + Z.of_nat (length format) `min` (free_space t + 1)),
            t') /\
    unread t' = unread t ++ take (Z.to_nat (free_space t)) format /\
    tx_sent t' = tx_sent t.
Proof.
  intros Hv Hr Hlit. unfold respond, vrespond.
  destruct (vrespond_loop_literal format (S (length format)) args result0 t)
    as (s' & Hl & _ & Ht & Hres); [done|lia|done|].
  exists (tx s'). rewrite Hl. simpl. rewrite Hres, int_incr_iter by done.
  pose proof (free_space_range t).
  rewrite Z2Nat.id by lia. split; [done|].
  destruct (respond_puts format true t) as [room t1] eqn:Hp.
  apply respond_puts_unread in Hp as (_ & _ & Hs & Hu & _); [|done..].
  simpl in Ht. by rewrite Ht.
Qed.

End ResponderExtras.

Lemma respond_literal_witness :
  let format := chars "AV0" ++ CRLF in
  tx_valid tx_nearly_full /\ int_range 7 /\
  Forall (fun c => c <> 37) format /\
  exists t',
    @respond decimal_conversion 7 format [] tx_nearly_full =
      Some (int_wrap
              (7 + Z.of_nat (length format)
                     `min` (free_space tx_nearly_full + 1)),
            t') /\
    unread t' =
      unread tx_nearly_full ++
      take (Z.to_nat (free_space tx_nearly_full)) format /\
    tx_sent t' = tx_sent tx_nearly_full.
Proof.
  assert (tx_valid tx_nearly_full) as Hv by (split_and!; vm_compute; done).
  assert (int_range 7) as Hr by (unfold int_range; lia).
  assert (Forall (fun c => c <> 37) (chars "AV0" ++ CRLF)) as Hlit
    by (repeat constructor; discriminate).
  split_and!; [exact Hv|exact Hr|exact Hlit|].
  apply (@respond_literal decimal_conversion 7 (chars "AV0" ++ CRLF) []
           tx_nearly_full Hv Hr Hlit).
Defined.

(** ** More on the parser *)

Section ParserExtras.

Context {conversion : Conversion.t}.

Import Parser.

Lemma parser_ok_reset p :
  length (values p) = NUM_VALUES -> parser_ok (reset p).
Proof.
  intros Hl. unfold parser_ok, reset. simpl.
  rewrite length_fmap. split_and!; try done; try lia.
  apply Forall_fmap, Forall_true. simpl. lia.
Qed.

Lemma uint16_wrap_range x : 0 <= uint16_wrap x < 2 ^ 16.
Proof. unfold uint16_wrap. apply Z.mod_pos_bound. lia. Qed.

Lemma uint8_wrap_range x : 0 <= uint8_wrap x < 2 ^ 8.
Proof. unfold uint8_wrap. apply Z.mod_pos_bound. lia. Qed.

Lemma store_value_ok v p p' :
  parser_ok p -> store_value (uint16_wrap v) p = Some p' ->
  parser_ok p' /\ state p' = state p.
Proof.
  intros (Hl & Hv & Hi & Ht). unfold store_value.
  destruct (values p !! _); [|done]. simpl. intros [= <-].
  unfold parser_ok. simpl. rewrite length_insert.
  split_and!; try done; try lia. apply Forall_insert; [done|].
  apply uint16_wrap_range.
Qed.

Lemma store_value_is_Some v p :
  parser_ok p -> is_Some (store_value v p).
Proof.
  intros (Hl & Hv & Hi & Ht). unfold store_value.
  destruct (lookup_lt_is_Some_2 (values p) (Z.to_nat (index p))) as [x ->];
    [unfold NUM_VALUES in *; lia|].
  by eexists.
Qed.

Lemma parse_values_defined c p tx :
  parser_ok p -> state p = NEXT_VALUE \/ state p = VALUE ->
  is_Some (parse c p tx).
Proof.
  intros Hok. pose proof Hok as (Hl & Hv & Hi & Ht).
  unfold parse. intros [-> | ->].
  - destruct (c =? 27); [by eexists|].
    destruct (is_digit c); [|by eexists].
    destruct (store_value_is_Some (uint16_wrap (c - 48)) p Hok) as [p1 ->].
    by eexists.
  - destruct (c =? 27); [by eexists|].
    destruct (is_digit c).
    + destruct (lookup_lt_is_Some_2 (values p) (Z.to_nat (index p)))
        as [x ->]; [unfold NUM_VALUES in *; lia|]. simpl.
      destruct (store_value_is_Some
                  (uint16_wrap (x * 10 + uint16_wrap (c - 48))) p Hok)
        as [p1 ->].
      by eexists.
    + destruct ((c =? 44) || (c =? 58)); [|by eexists].
      simpl. destruct (_ <? _); by eexists.
Qed.

Lemma parse_keeps_ok c p tx flag p' tx' :
  parser_ok p -> parse c p tx = Some (flag, p', tx') ->
  (flag = false -> parser_ok p') /\ parser_ok (reset p').
Proof.
  intros Hok. pose proof Hok as (Hl & Hv & Hi & Ht). unfold parse.
  assert (forall q, parser_ok q -> parser_ok (reset q)) as Hreset
    by (intros q Hq; apply parser_ok_reset, Hq).
  destruct (state p) eqn:Hs.
  - repeat match goal with
      | |- context [if ?b then _ else _] => destruct b
      | |- context [respond_ ?f ?a ?t] => destruct (respond_ f a t)
      end; simpl; intros [= <- <- <-]; split; intros; auto;
      apply Hreset; auto.
  - repeat match goal with
      | |- context [if ?b then _ else _] => destruct b
      | |- context [respond_ ?f ?a ?t] => destruct (respond_ f a t)
      end; simpl; intros [= <- <- <-]; split; intros; auto;
      try (apply Hreset; auto);
      unfold parser_ok; simpl; split_and!; try done;
      try apply uint8_wrap_range; try lia;
      rewrite ?length_fmap; try done;
      try (apply Forall_fmap, Forall_true; simpl; lia).
  - destruct (c =? 27); [intros [= <- <- <-]; auto|].
    destruct (is_digit c); [|intros [= <- <- <-]; auto].
    destruct (store_value _ p) as [p1|] eqn:Hst; [|done]. simpl.
    intros [= <- <- <-].
    apply store_value_ok in Hst as [Hok1 _]; [|done].
    assert (parser_ok (set_state VALUE p1)) as Hok2 by apply Hok1.
    split; auto.
  - destruct (c =? 27); [intros [= <- <- <-]; auto|].
    destruct (is_digit c).
    { destruct (values p !! _); [|done]. simpl.
      destruct (store_value _ p) as [p1|] eqn:Hst; [|done]. simpl.
      intros [= <- <- <-].
      apply store_value_ok in Hst as [Hok1 _]; [|done]. auto. }
    destruct ((c =? 44) || (c =? 58)); [|intros [= <- <- <-]; auto].
    simpl. destruct (Z.ltb_spec (uint8_wrap (index p + 1))
                       (Z.of_nat (length (values p)))).
    + intros [= <- <- <-].
      assert (parser_ok (set_state NEXT_VALUE
                           (set_index (uint8_wrap (index p + 1)) p))).
      { unfold parser_ok. simpl. split_and!; try done; try lia.
        apply uint8_wrap_range. }
      auto.
    + intros [= <- <- <-]. split; [done|].
      by apply parser_ok_reset.
Qed.

(** The ring after [parse] is the ring before, or what one [respond] call
    made of it. *)
Lemma parse_tx_cases c p tx flag p' tx' :
  parse c p tx = Some (flag, p', tx') ->
  tx' = tx \/ exists format args, respond_ format args tx = Some tx'.
Proof.
  unfold parse, store_value.
  destruct (state p);
    repeat match goal with
      | |- context [if ?b then _ else _] => destruct b
      | |- context [respond_ ?f ?a ?t] =>
          destruct (respond_ f a t) eqn:?
      | |- context [values p !! ?i] => destruct (values p !! i)
      end; simpl; intros [= <- <- <-]; eauto.
Qed.

(** X6. Between calls the parser keeps its invariant: as long as [parse]
    returns [false], the array keeps its two 16-bit slots and [index] stays
    inside it, so that no byte whatever makes NEXT_VALUE or VALUE touch a
    slot outside the array; after a [true] the caller's [reset] restores the
    invariant. *)
Theorem parser_invariant c p tx :
  parser_ok p ->
  (state p = NEXT_VALUE \/ state p = VALUE -> is_Some (parse c p tx)) /\
  forall flag p' tx',
    parse c p tx = Some (flag, p', tx') ->
    (flag = false -> parser_ok p') /\ parser_ok (reset p').
Proof.
  intros Hok. split.
  - by apply parse_values_defined.
  - intros flag p' tx'. by apply parse_keeps_ok.
Qed.

(** X7. [parse] touches the ring only to report an unexpected byte: a byte
    above space that is no command letter in COMMAND, or no digit in
    TARGET. It then returns [false] and resets the parser. In every other
    case, and whenever it returns [true], the ring is as it was. *)
Theorem parse_responds_only_on_errors c p tx flag p' tx' :
  parse c p tx = Some (flag, p', tx') ->
  tx' = tx \/
  (flag = false /\ p' = reset p /\ 32 < c /\
   ((state p = COMMAND /\
     respond_ (chars "Ec'%c'" ++ CRLF) [va_int c] tx = Some tx') \/
    (state p = TARGET /\ is_digit c = false /\
     respond_ (chars "Et'%c'" ++ CRLF) [va_int c] tx = Some tx'))).
Proof.
  unfold parse, store_value. destruct (state p) eqn:Hs.
  - repeat match goal with
      | |- context [if ?b || ?b' then _ else _] => destruct (b || b')
      end; try (intros [= <- <- <-]; by left).
    destruct (Z.ltb_spec 32 c); [|intros [= <- <- <-]; by left].
    destruct (respond_ _ _ _) as [t1|] eqn:Hr; [|done]. simpl.
    intros [= <- <- <-]. right. split_and!; try done. by left.
  - destruct (c =? 27); [intros [= <- <- <-]; by left|].
    destruct (is_digit c) eqn:Hd; [intros [= <- <- <-]; by left|].
    destruct (Z.ltb_spec 32 c); [|intros [= <- <- <-]; by left].
    destruct (respond_ _ _ _) as [t1|] eqn:Hr; [|done]. simpl.
    intros [= <- <- <-]. right. split_and!; try done. by right.
  - repeat match goal with
      | |- context [if ?b then _ else _] => destruct b
      | |- context [values p !! ?i] => destruct (values p !! i)
      end; simpl; intros [= <- <- <-]; by left.
  - repeat match goal with
      | |- context [if ?b then _ else _] => destruct b
      | |- context [values p !! ?i] => destruct (values p !! i)
      end; simpl; intros [= <- <- <-]; by left.
Qed.

End ParserExtras.

Lemma parser_invariant_witness :
  let p := Parser.mk Parser.VALUE Parser.VALVE 0 1 [100; 6553] in
  let tx := tx_init (replicate 2048 0) in
  parser_ok p /\
  (Parser.state p = Parser.NEXT_VALUE \/ Parser.state p = Parser.VALUE ->
   is_Some (@Parser.parse decimal_conversion 54 p tx)) /\
  forall flag p' tx',
    @Parser.parse decimal_conversion 54 p tx = Some (flag, p', tx') ->
    (flag = false -> parser_ok p') /\ parser_ok (Parser.reset p').
Proof.
  assert (parser_ok (Parser.mk Parser.VALUE Parser.VALVE 0 1 [100; 6553])) as Hok.
  { unfold parser_ok. simpl. split_and!; try done; try lia.
    repeat constructor; lia. }
  split; [exact Hok|].
  apply (@parser_invariant decimal_conversion 54
           (Parser.mk Parser.VALUE Parser.VALVE 0 1 [100; 6553])
           (tx_init (replicate 2048 0)) Hok).
Defined.


Lemma parse_responds_only_on_errors_witness :
  let p := Parser.ctor 0 in
  let tx := tx_init (replicate 2048 0) in
  let tx' := tx_after (chars "Ec'X'" ++ CRLF) tx in
  @Parser.parse decimal_conversion 88 p tx = Some (false, Parser.reset p, tx') /\
  (tx' = tx \/
   (false = false /\ Parser.reset p = Parser.reset p /\ 32 < 88 /\
    ((Parser.state p = Parser.COMMAND /\
      @respond_ decimal_conversion (chars "Ec'%c'" ++ CRLF) [va_int 88] tx
        = Some tx') \/
     (Parser.state p = Parser.TARGET /\ Parser.is_digit 88 = false /\
      @respond_ decimal_conversion (chars "Et'%c'" ++ CRLF) [va_int 88] tx
        = Some tx')))).
Proof.
  assert (@Parser.parse decimal_conversion 88 (Parser.ctor 0)
            (tx_init (replicate 2048 0))
          = Some (false, Parser.reset (Parser.ctor 0),
                  tx_after (chars "Ec'X'" ++ CRLF)
                    (tx_init (replicate 2048 0)))) as Hp
    by (vm_compute; reflexivity).
  split; [exact Hp|].
  apply (@parse_responds_only_on_errors decimal_conversion 88 _ _ _ _ _ Hp).
Defined.

(** ** Value lists *)

Section ParserGrammar.

Context {conversion : Conversion.t}.

Import Parser.

Lemma uint16_wrap_digit c : is_digit c = true -> uint16_wrap (c - 48) = c - 48.
Proof.
  intros Hd%is_digit_range. unfold uint16_wrap. apply Z.mod_small. lia.
Qed.

Lemma digits_congruent ds : forall a b,
  a mod 2 ^ 16 = b mod 2 ^ 16 ->
  foldl (fun acc c => acc * 10 + (c - 48)) a ds mod 2 ^ 16 =
  foldl (fun acc c => acc * 10 + (c - 48)) b ds mod 2 ^ 16.
Proof.
  induction ds as [|c ds IH]; intros a b Hab; simpl; [done|].
  apply IH.
  rewrite (Z.add_mod (a * 10)), (Z.add_mod (b * 10)) by done.
  rewrite (Z.mul_mod a), (Z.mul_mod b), Hab by done. done.
Qed.

Lemma parse_digit_VALUE c p tx v :
  state p = VALUE -> is_digit c = true ->
  values p !! Z.to_nat (index p) = Some v ->
  parse c p tx =
    Some (false,
          set_values
            (<[Z.to_nat (index p) := (v * 10 + (c - 48)) mod 2 ^ 16]>
               (values p)) p,
          tx).
Proof.
  intros Hs Hd Hv. apply is_digit_range in Hd as Hc.
  unfold parse. rewrite Hs, Hd.
  destruct (Z.eqb_spec c 27); [lia|].
  rewrite Hv. simpl. unfold store_value. rewrite Hv. simpl.
  by rewrite uint16_wrap_digit.
Qed.

Lemma parse_all_digits_VALUE ds : forall p v tx,
  state p = VALUE -> values p !! Z.to_nat (index p) = Some v ->
  Forall (fun c => is_digit c = true) ds -> ds <> [] ->
  parse_all ds p tx =
    Some (replicate (length ds) false,
          set_values
            (<[Z.to_nat (index p) :=
                 foldl (fun acc c => acc * 10 + (c - 48)) v ds mod 2 ^ 16]>
               (values p)) p,
          tx).
Proof.
  induction ds as [|c ds IH]; intros p v tx Hs Hv Hds Hne; [done|].
  apply Forall_cons in Hds as [Hc Hds].
  cbn [parse_all]. rewrite (parse_digit_VALUE c p tx v Hs Hc Hv). simpl.
  destruct ds as [|c' ds]; [done|].
  set (v1 := (v * 10 + (c - 48)) mod 2 ^ 16).
  set (p1 := set_values (<[Z.to_nat (index p) := v1]> (values p)) p).
  rewrite (IH p1 v1 tx); [|done| |done|done].
  - assert (foldl (fun acc c => acc * 10 + (c - 48)) v1 (c' :: ds) mod 2 ^ 16
            = foldl (fun acc c => acc * 10 + (c - 48)) v (c :: c' :: ds)
                mod 2 ^ 16) as ->.
    { change (foldl ?f v (c :: ?l)) with (foldl f (v * 10 + (c - 48)) l).
      apply digits_congruent. unfold v1. by rewrite Z.mod_mod. }
    unfold p1, set_values. cbn [values index state command target].
    by rewrite list_insert_insert_eq.
  - unfold p1. simpl. apply list_lookup_insert_eq.
    by apply lookup_lt_Some in Hv.
Qed.

Lemma parse_all_digits ds p tx :
  state p = NEXT_VALUE -> is_Some (values p !! Z.to_nat (index p)) ->
  ds <> [] -> Forall (fun c => is_digit c = true) ds ->
  parse_all ds p tx =
    Some (replicate (length ds) false,
          set_state VALUE
            (set_values
               (<[Z.to_nat (index p) := digits_value ds mod 2 ^ 16]>
                  (values p)) p),
          tx).
Proof.
  intros Hs [v0 Hv] Hne Hds. destruct ds as [|c ds]; [done|].
  apply Forall_cons in Hds as [Hc Hds]. apply is_digit_range in Hc as Hr.
  cbn [parse_all]. unfold parse at 1. rewrite Hs, Hc.
  destruct (Z.eqb_spec c 27); [lia|].
  unfold store_value. rewrite Hv. simpl. rewrite uint16_wrap_digit by done.
  destruct ds as [|c' ds].
  { simpl. unfold digits_value. simpl. by rewrite Z.mod_small by lia. }
  set (p1 := set_state VALUE _).
  rewrite (parse_all_digits_VALUE (c' :: ds) p1 (c - 48) tx);
    [|done| |done|done].
  - unfold p1, set_state, set_values, digits_value.
    cbn [values index state command target].
    rewrite list_insert_insert_eq.
    by change (foldl ?f 0 (c :: ?l)) with (foldl f (c - 48) l).
  - unfold p1. simpl. apply list_lookup_insert_eq.
    by apply lookup_lt_Some in Hv.
Qed.

(** X8. A run of digit bytes fed in NEXT_VALUE leaves the parser in VALUE
    with the number the digits spell, reduced modulo [2^16], in
    [values[index]]; none of the bytes completes the command or touches the
    ring. *)
Theorem digits_accumulate ds p tx :
  state p = NEXT_VALUE -> is_Some (values p !! Z.to_nat (index p)) ->
  ds <> [] -> Forall (fun c => is_digit c = true) ds ->
  parse_all ds p tx =
    Some (replicate (length ds) false,
          set_state VALUE
            (set_values
               (<[Z.to_nat (index p) := digits_value ds mod 2 ^ 16]>
                  (values p)) p),
          tx).
Proof. apply parse_all_digits. Qed.

Lemma parse_all_app a : forall b p tx p1 tx1,
  parse_all a p tx = Some (replicate (length a) false, p1, tx1) ->
  parse_all (a ++ b) p tx =
    '(flags, p2, tx2) ← parse_all b p1 tx1;
    Some (replicate (length a) false ++ flags, p2, tx2).
Proof.
  induction a as [|c a IH]; intros b p tx p1 tx1; simpl.
  { intros [= <- <-]. by destruct (parse_all b p tx) as [[[] ?]|]. }
  destruct (parse c p tx) as [[[[] p'] tx']|]; simpl; [done| |done].
  destruct (parse_all a p' tx') as [[[fl p''] tx'']|] eqn:Ha; [|done].
  simpl. intros [= -> <- <-]. rewrite (IH b _ _ _ _ Ha).
  by destruct (parse_all b p'' tx'') as [[[] ?]|].
Qed.

End ParserGrammar.

Section ParserCommands.

Context {conversion : Conversion.t}.

Import Parser.

Lemma is_separator_tests c :
  is_separator c = true ->
  (c =? 27) = false /\ is_digit c = false /\ ((c =? 44) || (c =? 58)) = true.
Proof.
  unfold is_separator. intros H.
  destruct (Z.eqb_spec c 44) as [Hc|]; [by rewrite Hc|].
  destruct (Z.eqb_spec c 58) as [Hc|]; [by rewrite Hc|done].
Qed.

Lemma replicate_false_snoc n m :
  replicate n false ++ false :: replicate m false
  = replicate (n + 1 + m) false.
Proof.
  rewrite <- Nat.add_assoc, replicate_add. by f_equal.
Qed.

(** One value, then a terminator. *)
Lemma parse_all_one_value command target ds term tx :
  ds <> [] -> Forall (fun c => is_digit c = true) ds ->
  is_terminator term = true ->
  parse_all (ds ++ [term]) (parser_awaiting command target) tx =
    Some (replicate (length ds) false ++ [true],
          Parser.mk VALUE command target 0 [digits_value ds mod 2 ^ 16; 0],
          tx).
Proof.
  intros Hne Hds (Hesc & Hdig & Hsep)%is_terminator_tests.
  erewrite parse_all_app;
    [|apply parse_all_digits; [done|by eexists|done|done]].
  cbn [parse_all]. unfold parse. simpl. by rewrite Hesc, Hdig, Hsep.
Qed.

(** Two values parted by a separator, then a terminator or a separator. *)
Lemma parse_all_two_values command target ds1 sep ds2 e tx :
  ds1 <> [] -> Forall (fun c => is_digit c = true) ds1 ->
  ds2 <> [] -> Forall (fun c => is_digit c = true) ds2 ->
  is_separator sep = true ->
  is_terminator e = true \/ is_separator e = true ->
  parse_all (ds1 ++ sep :: ds2 ++ [e]) (parser_awaiting command target) tx =
    Some (replicate (length ds1 + 1 + length ds2) false ++ [true],
          Parser.mk VALUE command target (if is_separator e then 2 else 1)
            [digits_value ds1 mod 2 ^ 16; digits_value ds2 mod 2 ^ 16],
          tx).
Proof.
  intros Hne1 Hds1 Hne2 Hds2 (Hesc & Hdig & Hsep)%is_separator_tests He.
  erewrite parse_all_app;
    [|apply parse_all_digits; [done|by eexists|done|done]].
  cbn [parse_all]. unfold parse at 1. simpl. rewrite Hesc, Hdig, Hsep. simpl.
  erewrite parse_all_app;
    [|apply parse_all_digits; [done|by eexists|done|done]].
  cbn [parse_all]. unfold parse. simpl.
  rewrite <- replicate_false_snoc, <- !app_assoc. simpl.
  destruct He as [(He1 & He2 & He3)%is_terminator_tests
                 |He'].
  - unfold is_separator. by rewrite He1, He2, He3.
  - pose proof He' as (He1 & He2 & He3)%is_separator_tests.
    unfold is_separator. by rewrite He1, He2, He3.
Qed.

(** X9. Whole command lines. [R] or [r], a number and a terminator
    complete a RESET command whose first value is the number modulo [2^16];
    [V] or [v], a target digit, a number and a terminator complete a VALVE
    command for that target, the second value left at 0; with a second
    number behind a separator both values are set, and a second separator
    completes the command as a terminator does. Only the last byte makes
    [parse] return [true], and the ring is never touched. *)
Theorem command_lines_parse r l d ds1 sep ds2 term e tx :
  r = 82 \/ r = 114 -> l = 86 \/ l = 118 -> is_digit d = true ->
  ds1 <> [] -> Forall (fun c => is_digit c = true) ds1 ->
  ds2 <> [] -> Forall (fun c => is_digit c = true) ds2 ->
  is_separator sep = true -> is_terminator term = true ->
  is_terminator e = true \/ is_separator e = true ->
  parse_all (r :: ds1 ++ [term]) parser_idle tx =
    Some (replicate (1 + length ds1) false ++ [true],
          Parser.mk VALUE RESET 0 0 [digits_value ds1 mod 2 ^ 16; 0], tx) /\
  parse_all (l :: d :: ds1 ++ [term]) parser_idle tx =
    Some (replicate (2 + length ds1) false ++ [true],
          Parser.mk VALUE VALVE (d - 48) 0 [digits_value ds1 mod 2 ^ 16; 0],
          tx) /\
  parse_all (l :: d :: ds1 ++ sep :: ds2 ++ [e]) parser_idle tx =
    Some (replicate (2 + (length ds1 + 1 + length ds2)) false ++ [true],
          Parser.mk VALUE VALVE (d - 48) (if is_separator e then 2 else 1)
            [digits_value ds1 mod 2 ^ 16; digits_value ds2 mod 2 ^ 16],
          tx).
Proof.
  intros Hr Hl Hd Hne1 Hds1 Hne2 Hds2 Hsep Hterm He.
  assert (parse r parser_idle tx = Some (false, parser_awaiting RESET 0, tx))
    as Hhr by (by destruct Hr as [-> | ->]).
  assert (parse l parser_idle tx
          = Some (false, Parser.mk TARGET VALVE 0 0 [0; 0], tx))
    as Hhl by (by destruct Hl as [-> | ->]).
  assert (parse d (Parser.mk TARGET VALVE 0 0 [0; 0]) tx
          = Some (false, parser_awaiting VALVE (d - 48), tx)) as Hhd.
  { apply is_digit_range in Hd as Hdr. unfold parse. simpl. rewrite Hd.
    destruct (Z.eqb_spec d 27); [lia|].
    unfold set_state, set_target, parser_awaiting, uint8_wrap. simpl.
    by rewrite Z.mod_small by lia. }
  split_and!.
  - cbn [parse_all]. rewrite Hhr. simpl.
    by rewrite parse_all_one_value.
  - cbn [parse_all]. rewrite Hhl. simpl. rewrite Hhd. simpl.
    by rewrite parse_all_one_value.
  - cbn [parse_all]. rewrite Hhl. simpl. rewrite Hhd. simpl.
    by rewrite parse_all_two_values.
Qed.

End ParserCommands.

Lemma digits_accumulate_witness :
  let p := parser_awaiting Parser.RESET 0 in
  let tx := tx_init (replicate 2048 0) in
  let ds := chars "71047" in
  Parser.state p = Parser.NEXT_VALUE /\
  is_Some (Parser.values p !! Z.to_nat (Parser.index p)) /\
  ds <> [] /\ Forall (fun c => Parser.is_digit c = true) ds /\
  @Parser.parse_all decimal_conversion ds p tx =
    Some (replicate (length ds) false,
          Parser.set_state Parser.VALUE
            (Parser.set_values
               (<[Z.to_nat (Parser.index p) := digits_value ds mod 2 ^ 16]>
                  (Parser.values p)) p),
          tx).
Proof.
  assert (is_Some (Parser.values (parser_awaiting Parser.RESET 0)
                     !! Z.to_nat (Parser.index (parser_awaiting Parser.RESET 0))))
    as Hv by (by eexists).
  assert (chars "71047" <> []) as Hne by discriminate.
  assert (Forall (fun c => Parser.is_digit c = true) (chars "71047")) as Hds
    by (repeat constructor).
  split_and!; [reflexivity|exact Hv|exact Hne|exact Hds|].
  apply (@digits_accumulate decimal_conversion (chars "71047")
           (parser_awaiting Parser.RESET 0) (tx_init (replicate 2048 0))
           eq_refl Hv Hne Hds).
Defined.

Lemma command_lines_parse_witness :
  let tx := tx_init (replicate 2048 0) in
  let ds1 := chars "100" in
  let ds2 := chars "25" in
  (82 = 82 \/ 82 = 114) /\ (118 = 86 \/ 118 = 118) /\
  Parser.is_digit 49 = true /\
  ds1 <> [] /\ Forall (fun c => Parser.is_digit c = true) ds1 /\
  ds2 <> [] /\ Forall (fun c => Parser.is_digit c = true) ds2 /\
  is_separator 44 = true /\ Parser.is_terminator CR = true /\
  (Parser.is_terminator 58 = true \/ is_separator 58 = true) /\
  @Parser.parse_all decimal_conversion (82 :: ds1 ++ [CR]) parser_idle tx =
    Some (replicate (1 + length ds1) false ++ [true],
          Parser.mk Parser.VALUE Parser.RESET 0 0
            [digits_value ds1 mod 2 ^ 16; 0], tx) /\
  @Parser.parse_all decimal_conversion (118 :: 49 :: ds1 ++ [CR]) parser_idle tx =
    Some (replicate (2 + length ds1) false ++ [true],
          Parser.mk Parser.VALUE Parser.VALVE (49 - 48) 0
            [digits_value ds1 mod 2 ^ 16; 0],
          tx) /\
  @Parser.parse_all decimal_conversion (118 :: 49 :: ds1 ++ 44 :: ds2 ++ [58])
    parser_idle tx =
    Some (replicate (2 + (length ds1 + 1 + length ds2)) false ++ [true],
          Parser.mk Parser.VALUE Parser.VALVE (49 - 48)
            (if is_separator 58 then 2 else 1)
            [digits_value ds1 mod 2 ^ 16; digits_value ds2 mod 2 ^ 16],
          tx).
Proof.
  assert (82 = 82 \/ 82 = 114) as Hr by (left; reflexivity).
  assert (118 = 86 \/ 118 = 118) as Hl by (right; reflexivity).
  assert (chars "100" <> []) as Hne1 by discriminate.
  assert (Forall (fun c => Parser.is_digit c = true) (chars "100")) as Hds1
    by (repeat constructor).
  assert (chars "25" <> []) as Hne2 by discriminate.
  assert (Forall (fun c => Parser.is_digit c = true) (chars "25")) as Hds2
    by (repeat constructor).
  assert (Parser.is_terminator 58 = true \/ is_separator 58 = true) as He
    by (right; reflexivity).
  split_and!;
    [exact Hr|exact Hl|reflexivity|exact Hne1|exact Hds1|exact Hne2
    |exact Hds2|reflexivity|reflexivity|exact He|..];
    apply (@command_lines_parse decimal_conversion 82 118 49 (chars "100") 44
             (chars "25") CR 58 (tx_init (replicate 2048 0))
             Hr Hl eq_refl Hne1 Hds1 Hne2 Hds2 eq_refl eq_refl He).
Defined.

(** ** More on the dispatcher and the controller *)

Section AppExtras.

Context {conversion : Conversion.t}.

Import App.

Lemma respond_in_fields format args a a' :
  respond_in format args a = Some a' ->
  a' = set_tx (tx a') a /\ respond_ format args (tx a) = Some (tx a').
Proof.
  unfold respond_in. destruct (respond_ _ _ _) as [x|]; [|done]. simpl.
  by intros [= <-].
Qed.

(** What dispatching leaves alone. *)
Lemma perform_command_fields rd a a' :
  perform_command rd a = Some a' ->
  parser a' = parser a /\ rx_buffer a' = rx_buffer a /\
  timeout_ a' = timeout_ a /\ actions a `prefix_of` actions a' /\
  (tx a' = tx a \/
   exists format args x, respond_ format args (tx a) = Some (tx a')
     /\ a' = set_tx (tx a') x).
Proof.
  unfold perform_command.
  destruct (Parser.command (parser a)).
  - intros [= <-]. split_and!; try done. by left.
  - intros H. apply respond_in_fields in H as [-> H]. simpl.
    split_and!; try done. right. by eauto.
  - destruct (Parser.values (parser a) !! 0%nat) as [v|]; [|done]. simpl.
    repeat ztest.
    + intros [= <-]. simpl. split_and!; try done.
      * rewrite <- app_assoc. by apply prefix_app_r.
      * by left.
    + intros [= <-]. simpl. split_and!; try done.
      * rewrite <- app_assoc. by apply prefix_app_r.
      * by left.
    + intros H. apply respond_in_fields in H as [-> H]. simpl.
      split_and!; try done; [by apply prefix_app_r|]. right. by eauto.
  - destruct (Parser.values (parser a) !! 0%nat) as [v|]; [|done]. simpl.
    repeat ztest; intros H; apply respond_in_fields in H as [-> H]; simpl;
      (split_and!; try done;
       [rewrite <- ?app_assoc; by apply prefix_app_r|right; by eauto]).
Qed.

Lemma respond_in_set_rx b format args a :
  respond_in format args (set_rx_buffer b a)
  = set_rx_buffer b <$> respond_in format args a.
Proof. unfold respond_in. simpl. by destruct (respond_ _ _ _). Qed.

Lemma perform_command_set_rx b rd a :
  perform_command rd (set_rx_buffer b a)
  = set_rx_buffer b <$> perform_command rd a.
Proof.
  unfold perform_command. simpl.
  destruct (Parser.command (parser a)); [done|apply respond_in_set_rx|..];
    (destruct (Parser.values (parser a) !! 0%nat) as [v|]; [|done]); simpl;
    repeat ztest; try done;
    match goal with
    | |- respond_in ?f ?args ?x = _ <$> respond_in ?f ?args ?y =>
        change x with (set_rx_buffer b y); apply respond_in_set_rx
    end.
Qed.

Lemma parse_set_rx b rd c a :
  parse rd c (set_rx_buffer b a) = set_rx_buffer b <$> parse rd c a.
Proof.
  unfold parse. simpl. destruct (halted a); [done|].
  destruct (Parser.parse c (parser a) (tx a)) as [[[[] p] x]|]; [| |done];
    simpl; [|done].
  match goal with
  | |- perform_command rd ?x ≫= _ = _ <$> (perform_command rd ?y ≫= _) =>
      change x with (set_rx_buffer b y); rewrite perform_command_set_rx;
      destruct (perform_command rd y) as [a2|]; [|done]
  end.
  simpl. by destruct (halted a2).
Qed.

Lemma perform_command_frame rd a a' :
  perform_command rd a = Some a' -> tx_valid (tx a) ->
  tx_valid (tx a') /\ tx_sent (tx a') = tx_sent (tx a) /\
  unread (tx a) `prefix_of` unread (tx a').
Proof.
  intros H Hv.
  apply perform_command_fields in H
    as (_ & _ & _ & _ & [-> | (f & args & x & Hr & _)]); [done|].
  by apply (respond__frame _ _ _ _ Hr).
Qed.

Lemma Parser_parse_frame c p t flag p' t' :
  Parser.parse c p t = Some (flag, p', t') -> tx_valid t ->
  tx_valid t' /\ tx_sent t' = tx_sent t /\ unread t `prefix_of` unread t'.
Proof.
  intros H Hv. apply parse_tx_cases in H as [-> | (f & args & Hr)]; [done|].
  by apply (respond__frame _ _ _ _ Hr).
Qed.

Lemma parse_frame rd c a a' :
  parse rd c a = Some a' -> tx_valid (tx a) ->
  tx_valid (tx a') /\ tx_sent (tx a') = tx_sent (tx a) /\
  unread (tx a) `prefix_of` unread (tx a') /\
  rx_buffer a' = rx_buffer a /\
  actions a `prefix_of` actions a'.
Proof.
  unfold parse. destruct (halted a); [by intros [= <-]|].
  destruct (Parser.parse c _ _) as [[[flag p] x]|] eqn:Hp; [|done].
  simpl in *. intros H Hv.
  destruct (Parser_parse_frame _ _ _ _ _ _ Hp Hv) as (Hv1 & Hs1 & Hu1).
  destruct flag; [|injection H as <-; by split_and!].
  destruct (perform_command rd _) as [a2|] eqn:Hc; [|done]. simpl in H.
  destruct (perform_command_frame _ _ _ Hc Hv1) as (Hv2 & Hs2 & Hu2).
  apply perform_command_fields in Hc as (_ & Hrx & _ & Hact & _).
  simpl in *.
  assert (tx a' = tx a2 /\ rx_buffer a' = rx_buffer a2
          /\ actions a' = actions a2) as (-> & -> & ->)
    by (destruct (halted a2); by injection H as <-).
  split_and!; [done|congruence|by etrans|done|done].
Qed.

(** X10. Handling a byte never drops or overwrites output that is still
    unsent: the drain cursor stays, what was unread stays unread at the
    front, the ring stays well formed; the receive buffer is not written to
    and the requests made of the collaborators are only added to. *)
Theorem app_parse_frame rd c a a' :
  parse rd c a = Some a' -> tx_valid (tx a) ->
  tx_valid (tx a') /\ tx_sent (tx a') = tx_sent (tx a) /\
  unread (tx a) `prefix_of` unread (tx a') /\
  rx_buffer a' = rx_buffer a /\
  actions a `prefix_of` actions a'.
Proof. apply parse_frame. Qed.

(** X11. Every byte handled, whatever it is, puts the liveness deadline
    [TIMEOUT_DELAY] after the clock (modulo [2^64]); with no valve active
    the next [periodic] shows CONNECTED as long as the clock has not passed
    the deadline, and DISCONNECTED once it has. *)
Theorem byte_refreshes_deadline rd c a a' rd' :
  halted a = false -> parse rd c a = Some a' ->
  timeout_ a' = uint64_wrap (TIMEOUT_DELAY + time_us_64 rd) /\
  (valve0_get rd' = false -> valve1_get rd' = false ->
   indicator_state (periodic rd' a') =
     Some (if timeout_ a' <? time_us_64 rd' then DISCONNECTED
           else CONNECTED)).
Proof.
  intros Hh. unfold parse. rewrite Hh.
  destruct (Parser.parse c _ _) as [[[flag p] x]|] eqn:Hp; [|done].
  simpl. intros H.
  assert (timeout_ a' = uint64_wrap (TIMEOUT_DELAY + time_us_64 rd)) as Ht.
  { destruct flag; [|by injection H as <-].
    destruct (perform_command rd _) as [a2|] eqn:Hc; [|done]. simpl in H.
    apply perform_command_fields in Hc as (_ & _ & Htm & _).
    destruct (halted a2); injection H as <-; simpl; by rewrite Htm. }
  split; [done|]. intros H0 H1. unfold periodic, indicator_state.
  rewrite H0, H1. simpl.
  destruct (timeout_ a' <? time_us_64 rd'); simpl;
    rewrite omap_app; simpl; apply last_snoc.
Qed.

End AppExtras.

Section AppResponses.

Context {conversion : Conversion.t}.

Import App.

Local Arguments decimal : simpl never.
Local Arguments character_string : simpl never.

Lemma rendering_Ec c :
  renders_char conversion ->
  rendering (chars "Ec'%c'" ++ CRLF) [va_int c]
    = Some (chars "Ec'" ++ character_string c ++ chars "'" ++ CRLF).
Proof.
  intros [Hparse Hchar]. unfold rendering. simpl.
  rewrite Hparse. simpl. by rewrite Hchar.
Qed.

Lemma rendering_Et c :
  renders_char conversion ->
  rendering (chars "Et'%c'" ++ CRLF) [va_int c]
    = Some (chars "Et'" ++ character_string c ++ chars "'" ++ CRLF).
Proof.
  intros [Hparse Hchar]. unfold rendering. simpl.
  rewrite Hparse. simpl. by rewrite Hchar.
Qed.

Lemma rendering_Ev v :
  renders_decimal conversion ->
  rendering (chars "Ev%d" ++ CRLF) [va_int v]
    = Some (chars "Ev" ++ decimal v ++ CRLF).
Proof.
  intros [Hparse Hint]. unfold rendering. simpl.
  rewrite Hparse. simpl. by rewrite Hint.
Qed.

Lemma rendering_AV target args :
  target = 0 \/ target = 1 ->
  rendering (chars "AV" ++ [48 + target] ++ CRLF) args
    = Some (chars "AV" ++ [48 + target] ++ CRLF).
Proof. by intros [-> | ->]. Qed.

Lemma character_string_byte c : 0 < c < 2 ^ 8 -> character_string c = [c].
Proof.
  intros Hc. unfold character_string, uint8_wrap.
  rewrite Z.mod_small by lia. destruct (Z.eqb_spec c 0); [lia|done].
Qed.

Lemma render_fuel_eq f1 f2 (format : list char) args :
  (length format < f1)%nat -> (length format < f2)%nat ->
  render f1 format args = render f2 format args.
Proof.
  intros H1 H2.
  destruct (render f1 format args) as [b1|] eqn:E1.
  - symmetry. by apply (render_fuel f1).
  - destruct (render f2 format args) as [b2|] eqn:E2; [|done].
    apply (render_fuel f2 _ _ _ f1) in E2; [congruence|done].
Qed.

Lemma rendering_nil args : rendering [] args = Some [].
Proof. done. Qed.

Lemma render_cons f c (rest : list char) args :
  render (S f) (c :: rest) args =
  if c =? 37 then
    let '(type, n) := Conversion.parse rest in
    if Conversion.Type_eq_dec type Conversion.UNKNOWN then Some []
    else
      '(buffer, args) ← vrespond_convert type args;
      bytes ← render f (drop n rest) args;
      Some (default [] buffer ++ bytes)
  else
    bytes ← render f rest args;
    Some (c :: bytes).
Proof. reflexivity. Qed.

Lemma rendering_literal c (rest : list char) args :
  c <> 37 -> rendering (c :: rest) args = (c ::.) <$> rendering rest args.
Proof.
  intros Hc. unfold rendering. cbn [length]. rewrite render_cons.
  destruct (Z.eqb_spec c 37); [done|].
  by destruct (render (S (length rest)) rest args).
Qed.

Lemma rendering_d v (rest : list char) args :
  renders_decimal conversion ->
  rendering (37 :: 100 :: rest) (va_int v :: args)
  = (decimal v ++.) <$> rendering rest args.
Proof.
  intros [Hparse Hint]. unfold rendering. cbn [length]. rewrite render_cons.
  rewrite Z.eqb_refl, Hparse. destruct (Conversion.Type_eq_dec _ _); [done|].
  cbn [vrespond_convert]. rewrite Hint. cbn [mbind option_bind default].
  change (drop 1 (100 :: rest)) with rest.
  rewrite (render_fuel_eq (S (S (length rest))) (S (length rest))) by lia.
  by destruct (render (S (length rest)) rest args).
Qed.

Lemma rendering_c v (rest : list char) args :
  renders_char conversion ->
  rendering (37 :: 99 :: rest) (va_int v :: args)
  = (character_string v ++.) <$> rendering rest args.
Proof.
  intros [Hparse Hchar]. unfold rendering. cbn [length]. rewrite render_cons.
  rewrite Z.eqb_refl, Hparse. destruct (Conversion.Type_eq_dec _ _); [done|].
  cbn [vrespond_convert]. rewrite Hchar. cbn [mbind option_bind default].
  change (drop 1 (99 :: rest)) with rest.
  rewrite (render_fuel_eq (S (S (length rest))) (S (length rest))) by lia.
  by destruct (render (S (length rest)) rest args).
Qed.

Lemma status_format_bytes :
  status_format =
  chars "R{" ++ [34] ++ chars "l" ++ [34] ++ chars ":%d," ++ [34]
  ++ chars "v0" ++ [34] ++ chars ":%d," ++ [34] ++ chars "v1" ++ [34]
  ++ chars ":%d," ++ [34] ++ chars "m0" ++ [34] ++ chars ":%c%d," ++ [34]
  ++ chars "m1" ++ [34] ++ chars ":%c%d," ++ [34] ++ chars "m2" ++ [34]
  ++ chars ":%c%d," ++ [34] ++ chars "f0" ++ [34] ++ chars ":%c%d," ++ [34]
  ++ chars "f1" ++ [34] ++ chars ":%c%d}" ++ [13; 10].
Proof. reflexivity. Qed.

Lemma rendering_status rd :
  renders_decimal conversion -> renders_char conversion ->
  rendering status_format
    [ va_int (indicator_get_state rd);
      va_int (b2i (valve0_get rd)); va_int (b2i (valve1_get rd));
      va_int (fresh (moisture0_updated rd)); va_int (moisture0_value rd);
      va_int (fresh (moisture1_updated rd)); va_int (moisture1_value rd);
      va_int (fresh (moisture1_updated rd)); va_int 0;
      va_int (fresh (flow0_updated rd)); va_int (flow0_value rd);
      va_int (fresh (flow1_updated rd)); va_int (flow1_value rd) ]
  = Some (status_line rd).
Proof.
  intros Hd Hc. rewrite status_format_bytes.
  cbv [chars list_ascii_of_string map nat_of_ascii app].
  cbn [N_of_ascii N_of_digits N.to_nat Pos.to_nat Pos.iter_op Nat.add
       Z.of_nat Pos.of_succ_nat Pos.succ N.add N.mul Pos.add Pos.mul].
  repeat first
    [ rewrite (rendering_d _ _ _ Hd)
    | rewrite (rendering_c _ _ _ Hc)
    | rewrite rendering_literal by done ].
  rewrite rendering_nil.
  assert (forall u, character_string (fresh u) = [fresh u]) as Hf
    by (intros []; apply character_string_byte; simpl; lia).
  rewrite !Hf. reflexivity.
Qed.

End AppResponses.

Section AppDispatch.

Context {conversion : Conversion.t}.

Import App.

Local Arguments decimal : simpl never.
Local Arguments character_string : simpl never.

(** X12. A byte above space that the parser does not expect, in COMMAND a
    byte that is no command letter and in TARGET a byte that is no digit,
    is answered with [Ec'<byte>'] or [Et'<byte>'] and CR LF, as far as the
    ring has room; [parse] returns [false] and the parser is reset. *)
Theorem unexpected_byte_reported c p tx :
  renders_char conversion -> tx_valid tx -> 32 < c < 2 ^ 8 ->
  (Parser.state p = Parser.COMMAND /\ c ∉ chars "sSrRvV") \/
  (Parser.state p = Parser.TARGET /\ Parser.is_digit c = false) ->
  exists tx',
    Parser.parse c p tx = Some (false, Parser.reset p, tx') /\
    tx_sent tx' = tx_sent tx /\
    unread tx' =
      unread tx ++
      take (Z.to_nat (free_space tx))
        ([69; if Parser.state p is Parser.COMMAND then 99 else 116; 39]
         ++ [c] ++ [39] ++ CRLF).
Proof.
  intros Hdec Hv Hc [[Hs Hlet] | [Hs Hd]].
  - change (chars "sSrRvV") with [115; 83; 114; 82; 118; 86] in Hlet.
    rewrite !not_elem_of_cons in Hlet.
    destruct Hlet as (H1 & H2 & H3 & H4 & H5 & H6 & _).
    destruct (respond__unread (chars "Ec'%c'" ++ CRLF) [va_int c] tx _ Hv
                (rendering_Ec c Hdec)) as (tx' & Hr & _ & Hs' & Hu').
    exists tx'. unfold Parser.parse. rewrite Hs.
    rewrite (proj2 (Z.eqb_neq c 115)), (proj2 (Z.eqb_neq c 83)),
      (proj2 (Z.eqb_neq c 114)), (proj2 (Z.eqb_neq c 82)),
      (proj2 (Z.eqb_neq c 118)), (proj2 (Z.eqb_neq c 86)) by done.
    cbn [orb]. rewrite (proj2 (Z.ltb_lt 32 c)) by lia. rewrite Hr.
    split_and!; [done..|].
    rewrite Hu', character_string_byte by lia. done.
  - destruct (respond__unread (chars "Et'%c'" ++ CRLF) [va_int c] tx _ Hv
                (rendering_Et c Hdec)) as (tx' & Hr & _ & Hs' & Hu').
    exists tx'. unfold Parser.parse. rewrite Hs, Hd.
    rewrite (proj2 (Z.eqb_neq c 27)), (proj2 (Z.ltb_lt 32 c)) by lia.
    rewrite Hr. split_and!; [done..|].
    rewrite Hu', character_string_byte by lia. done.
Qed.

(** X13. Dispatching a completed VALVE command: target 0 or 1 pulses that
    valve for [values[0]] and acknowledges with [AV0] or [AV1]; any other
    target pulses no valve and answers [Ev], the target in decimal, CR LF.
    The console print precedes either. *)
Theorem valve_dispatch rd a v rest :
  renders_decimal conversion -> tx_valid (tx a) ->
  Parser.command (parser a) = Parser.VALVE ->
  Parser.values (parser a) = v :: rest ->
  let target := Parser.target (parser a) in
  let printed :=
    console_printf (chars "Valve target: %d pulse: %d" ++ CRLF)
      [va_int target; va_int v] in
  exists a',
    perform_command rd a = Some a' /\
    tx_sent (tx a') = tx_sent (tx a) /\
    (target = 0 \/ target = 1 ->
       actions a' = actions a ++ [printed; pulse (valve_of target) v] /\
       unread (tx a') =
         unread (tx a) ++
         take (Z.to_nat (free_space (tx a)))
           (chars "AV" ++ [48 + target] ++ CRLF)) /\
    (target <> 0 -> target <> 1 ->
       actions a' = actions a ++ [printed] /\
       unread (tx a') =
         unread (tx a) ++
         take (Z.to_nat (free_space (tx a)))
           (chars "Ev" ++ decimal target ++ CRLF)).
Proof.
  intros Hdec Hv Hc Hvs target printed.
  unfold perform_command. rewrite Hc, Hvs. simpl. fold target. fold printed.
  destruct (Z.eqb_spec target 0) as [H0|H0].
  { destruct (respond_in_unread (chars "AV0" ++ CRLF) []
                (act (pulse valve0_ v) (act printed a))
                (chars "AV0" ++ CRLF) Hv eq_refl)
      as (t' & Hr & Hv' & Hs' & Hu').
    eexists. split; [exact Hr|]. rewrite H0. simpl.
    split_and!; [done| |lia]. intros _. by rewrite <- app_assoc. }
  destruct (Z.eqb_spec target 1) as [H1|H1].
  { destruct (respond_in_unread (chars "AV1" ++ CRLF) []
                (act (pulse valve1_ v) (act printed a))
                (chars "AV1" ++ CRLF) Hv eq_refl)
      as (t' & Hr & Hv' & Hs' & Hu').
    eexists. split; [exact Hr|]. rewrite H1. simpl.
    split_and!; [done| |lia]. intros _. by rewrite <- app_assoc. }
  destruct (respond_in_unread (chars "Ev%d" ++ CRLF) [va_int target]
              (act printed a) _ Hv (rendering_Ev target Hdec))
    as (t' & Hr & Hv' & Hs' & Hu').
  eexists. split; [exact Hr|]. simpl. split_and!; [done|lia|done].
Qed.

(** X14. Dispatching STATUS asks nothing of the hardware and queues one
    line: the indicator state, the two valve states, and five readings each
    behind a space when fresh and a [-] when stale. The third moisture
    field [m2] carries the freshness mark of the second moisture sensor and
    the value 0. *)
Theorem status_dispatch rd a :
  renders_decimal conversion -> renders_char conversion ->
  tx_valid (tx a) -> Parser.command (parser a) = Parser.STATUS ->
  exists a',
    perform_command rd a = Some a' /\
    actions a' = actions a /\ parser a' = parser a /\
    tx_sent (tx a') = tx_sent (tx a) /\
    unread (tx a') =
      unread (tx a) ++ take (Z.to_nat (free_space (tx a))) (status_line rd).
Proof.
  intros Hd Hc Hv Hcmd. unfold perform_command. rewrite Hcmd.
  destruct (respond_in_unread _ _ a _ Hv (rendering_status rd Hd Hc))
    as (t' & Hr & Hv' & Hs' & Hu').
  eexists. split; [exact Hr|]. by split_and!.
Qed.

End AppDispatch.

(** ** Whole inputs *)

Section AppStreams.

Context {conversion : Conversion.t}.

Import App.

Lemma Parser_parse_total c p tx :
  renders_char conversion -> parser_ok p -> tx_valid tx ->
  is_Some (Parser.parse c p tx).
Proof.
  intros Hdec Hok Hv.
  destruct (Parser.state p) eqn:Hs;
    [| |by apply parse_values_defined; auto..].
  - unfold Parser.parse. rewrite Hs.
    repeat match goal with
      | |- context [if ?b then _ else _] => destruct b
      end; try by eexists.
    destruct (respond__unread (chars "Ec'%c'" ++ CRLF) [va_int c] tx _ Hv
                (rendering_Ec c Hdec)) as (tx' & -> & _).
    by eexists.
  - unfold Parser.parse. rewrite Hs.
    repeat match goal with
      | |- context [if ?b then _ else _] => destruct b
      end; try by eexists.
    destruct (respond__unread (chars "Et'%c'" ++ CRLF) [va_int c] tx _ Hv
                (rendering_Et c Hdec)) as (tx' & -> & _).
    by eexists.
Qed.

Lemma perform_command_total rd a :
  renders_decimal conversion -> renders_char conversion ->
  length (Parser.values (parser a)) = Parser.NUM_VALUES ->
  tx_valid (tx a) ->
  is_Some (perform_command rd a).
Proof.
  intros Hd Hc Hl Hv.
  assert (forall format args x bytes,
            tx x = tx a -> rendering format args = Some bytes ->
            is_Some (respond_in format args x)) as Hresp.
  { intros format args x bytes Hx Hr.
    destruct (respond_in_unread format args x bytes) as (t' & -> & _);
      [by rewrite Hx|done|by eexists]. }
  unfold perform_command.
  destruct (Parser.values (parser a)) as [|v rest] eqn:Hvs; [done|].
  destruct (Parser.command (parser a)); simpl.
  - by eexists.
  - eapply Hresp; [done|by apply rendering_status].
  - repeat ztest; try by eexists.
    eapply Hresp; [done|by apply rendering_Er].
  - repeat ztest.
    + by eapply (Hresp _ _ _ (chars "AV0" ++ CRLF)).
    + by eapply (Hresp _ _ _ (chars "AV1" ++ CRLF)).
    + eapply Hresp; [done|by apply rendering_Ev].
Qed.

Lemma parse_keeps_app_ok rd c a :
  renders_decimal conversion -> renders_char conversion -> app_ok a ->
  exists a', parse rd c a = Some a' /\ app_ok a'.
Proof.
  intros Hd Hc [Hv Hok]. unfold parse.
  destruct (halted a) eqn:Hh; [exists a; split; [done|]; split; [done|congruence]|].
  specialize (Hok eq_refl).
  destruct (Parser_parse_total c (parser a) (tx a) Hc Hok Hv)
    as [[[flag p] x] Hp].
  simpl. rewrite Hp. simpl.
  destruct (parse_keeps_ok _ _ _ _ _ _ Hok Hp) as [Hfalse Hreset].
  destruct (Parser_parse_frame _ _ _ _ _ _ Hp Hv) as (Hv1 & _).
  destruct flag; [|eexists; split; [done|]; split; [done|intros _; by apply Hfalse]].
  assert (length (Parser.values p) = Parser.NUM_VALUES) as Hl.
  { destruct Hreset as [Hl _]. simpl in Hl. by rewrite length_fmap in Hl. }
  destruct (perform_command_total rd
              (set_parser p (set_tx x
                 (set_timeout_ (uint64_wrap (TIMEOUT_DELAY + time_us_64 rd))
                    a)))) as [a2 Hc2]; [done..|].
  rewrite Hc2. simpl.
  destruct (perform_command_frame _ _ _ Hc2 Hv1) as (Hv2 & _).
  apply perform_command_fields in Hc2 as (Hp2 & _).
  destruct (halted a2) eqn:Hh2; eexists; (split; [done|]); split; simpl;
    try done; try congruence.
  intros _. rewrite Hp2. simpl. apply Hreset.
Qed.

Lemma feed_keeps_app_ok env bytes : forall i a,
  renders_decimal conversion -> renders_char conversion -> app_ok a ->
  exists a', feed env i bytes a = Some a' /\ app_ok a'.
Proof.
  induction bytes as [|c bytes IH]; intros i a Hd Hc Hok; simpl.
  { by exists a. }
  destruct (parse_keeps_app_ok (env i) c a Hd Hc Hok) as (a1 & -> & Hok1).
  simpl. by apply IH.
Qed.

Lemma parse_rx_buffer rd c a a' :
  parse rd c a = Some a' -> rx_buffer a' = rx_buffer a.
Proof.
  unfold parse. destruct (halted a); [by intros [= <-]|].
  destruct (Parser.parse c _ _) as [[[flag p] x]|]; [|done]. simpl.
  destruct flag; [|by intros [= <-]].
  destruct (perform_command rd _) as [a2|] eqn:Hc; [|done]. simpl.
  apply perform_command_fields in Hc as (_ & Hrx & _).
  destruct (halted a2); intros [= <-]; simpl; by rewrite Hrx.
Qed.

(** The loop of [read_done] over a stretch of the receive buffer handles
    the bytes stored there in order. *)
Lemma read_loop_feed env bytes : forall pre post a,
  rx_buffer a = pre ++ bytes ++ post ->
  read_loop env (seq (length pre) (length bytes)) a
  = feed env (length pre) bytes a.
Proof.
  induction bytes as [|c bytes IH]; intros pre post a Hrx; simpl; [done|].
  simpl in Hrx. rewrite Hrx, list_lookup_middle by done. simpl.
  destruct (parse (env (length pre)) c a) as [a1|] eqn:Hp; [|done]. simpl.
  apply parse_rx_buffer in Hp.
  replace (S (length pre)) with (length (pre ++ [c]))
    by (rewrite length_app; simpl; lia).
  apply (IH (pre ++ [c]) post). rewrite Hp, Hrx, <- app_assoc. done.
Qed.

Lemma feed_set_rx b env bytes : forall i a,
  feed env i bytes (set_rx_buffer b a)
  = set_rx_buffer b <$> feed env i bytes a.
Proof.
  induction bytes as [|c bytes IH]; intros i a; simpl; [done|].
  rewrite parse_set_rx. destruct (parse (env i) c a) as [a1|]; [|done].
  simpl. apply IH.
Qed.

Lemma receive_feed env bytes a :
  (length bytes <= RX_BUFFER_SIZE)%nat ->
  receive env bytes a
  = set_rx_buffer (bytes ++ drop (length bytes) (rx_buffer a))
      <$> feed env 0 bytes a.
Proof.
  intros Hlen. unfold receive, read_done.
  rewrite size_wrap_small, Nat2Z.id
    by (unfold RX_BUFFER_SIZE in Hlen; simpl in Hlen; lia).
  rewrite (read_loop_feed env bytes [] (drop (length bytes) (rx_buffer a)))
    by done.
  apply feed_set_rx.
Qed.

Lemma feed_app env b1 : forall b2 i a,
  feed env i (b1 ++ b2) a
  = feed env i b1 a ≫= feed env (i + length b1) b2.
Proof.
  induction b1 as [|c b1 IH]; intros b2 i a; simpl.
  { by rewrite Nat.add_0_r. }
  destruct (parse (env i) c a) as [a1|]; [|done]. simpl.
  rewrite IH. by replace (S i + length b1)%nat with (i + S (length b1))%nat
    by lia.
Qed.

Lemma feed_shift env n bytes : forall i a,
  feed (fun k => env (n + k)%nat) i bytes a = feed env (n + i) bytes a.
Proof.
  induction bytes as [|c bytes IH]; intros i a; simpl; [done|].
  destruct (parse (env (n + i)%nat) c a) as [a1|]; [|done]. simpl.
  rewrite IH. by replace (n + S i)%nat with (S (n + i)) by lia.
Qed.

(** X15. No input drives the program into undefined behaviour: from a
    well-formed state every delivery of up to [RX_BUFFER_SIZE] bytes is
    handled to the end, with no slot outside [values] touched and no
    argument missing from a response, and leaves a well-formed state. *)
Theorem receive_is_safe env bytes a :
  renders_decimal conversion -> renders_char conversion ->
  app_ok a -> (length bytes <= RX_BUFFER_SIZE)%nat ->
  exists a', receive env bytes a = Some a' /\ app_ok a'.
Proof.
  intros Hd Hc Hok Hlen. rewrite receive_feed by done.
  destruct (feed_keeps_app_ok env bytes 0 a Hd Hc Hok) as (a1 & -> & Hok1).
  by eexists.
Qed.

(** X16. A stream of bytes may be cut anywhere: handing the two parts to
    [read_done] one after the other leaves the ring, the parser, the
    deadline and the requests to the collaborators exactly as handing over
    the whole does. *)
Theorem receive_in_two_parts env b1 b2 a :
  (length (b1 ++ b2) <= RX_BUFFER_SIZE)%nat ->
  observable <$> receive env (b1 ++ b2) a =
  observable <$>
    (receive env b1 a ≫= receive (fun k => env (length b1 + k)%nat) b2).
Proof.
  intros Hlen. rewrite length_app in Hlen.
  rewrite !receive_feed by (rewrite ?length_app; lia).
  rewrite feed_app. simpl.
  destruct (feed env 0 b1 a) as [a1|]; [|done]. simpl.
  rewrite receive_feed by lia. rewrite feed_set_rx, feed_shift, Nat.add_0_r.
  by destruct (feed env (length b1) b2 a1).
Qed.

End AppStreams.

(** ** Whole command lines *)

Section AppLines.

Context {conversion : Conversion.t}.

Import App.

(** A run of bytes none of which completes a command only moves the parser,
    the ring and the deadline. *)
Lemma feed_incomplete env bytes : forall i a p t,
  halted a = false -> bytes <> [] ->
  Parser.parse_all bytes (parser a) (tx a)
    = Some (replicate (length bytes) false, p, t) ->
  feed env i bytes a =
    Some (set_parser p (set_tx t
            (set_timeout_
               (uint64_wrap
                  (TIMEOUT_DELAY + time_us_64 (env (i + length bytes - 1)%nat)))
               a))).
Proof.
  induction bytes as [|c bytes IH]; intros i a p t Hh Hne; [done|].
  cbn [Parser.parse_all feed].
  destruct (Parser.parse c (parser a) (tx a)) as [[[[] p1] t1]|] eqn:Hp;
    [done| |done].
  simpl.
  destruct (Parser.parse_all bytes p1 t1) as [[[fl p2] t2]|] eqn:Hall; [|done].
  simpl. intros [= -> <- <-].
  unfold parse at 1. rewrite Hh. simpl. rewrite Hp. simpl.
  destruct bytes as [|c' bytes].
  { simpl in *. injection Hall as <- <-.
    by replace (i + 1 - 1)%nat with i by lia. }
  erewrite IH; [|done|done|exact Hall].
  replace (S i + length (c' :: bytes) - 1)%nat
    with (i + length (c :: c' :: bytes) - 1)%nat by (simpl; lia).
  reflexivity.
Qed.

Lemma feed_line env (bytes : list char) (c : char) a p1 t1 p t :
  halted a = false -> bytes <> [] ->
  Parser.parse_all bytes (parser a) (tx a)
    = Some (replicate (length bytes) false, p1, t1) ->
  Parser.parse c p1 t1 = Some (true, p, t) ->
  feed env 0 (bytes ++ [c]) a =
    a2 ← perform_command (env (length bytes))
           (set_parser p (set_tx t
              (set_timeout_
                 (uint64_wrap
                    (TIMEOUT_DELAY + time_us_64 (env (length bytes))))
                 a)));
    if halted a2 then Some a2
    else Some (set_parser (Parser.reset (parser a2)) a2).
Proof.
  intros Hh Hne Hall Hp. rewrite feed_app.
  rewrite (feed_incomplete env bytes 0 a p1 t1 Hh Hne Hall). simpl.
  unfold parse. simpl. rewrite Hh, Hp. simpl.
  match goal with
  | |- (perform_command ?r ?x ≫= _) ≫= _ = perform_command ?r ?y ≫= _ =>
      change x with y; destruct (perform_command r y) as [a2|]; [|done]
  end.
  simpl. by destruct (halted a2).
Qed.

Lemma parse_all_reset_header (r : char) (ds : list char) tx :
  r = 82 \/ r = 114 ->
  ds <> [] -> Forall (fun c => Parser.is_digit c = true) ds ->
  Parser.parse_all (r :: ds) parser_idle tx =
    Some (replicate (length (r :: ds)) false,
          Parser.mk Parser.VALUE Parser.RESET 0 0
            [digits_value ds mod 2 ^ 16; 0], tx).
Proof.
  intros Hr Hne Hds. cbn [Parser.parse_all].
  assert (Parser.parse r parser_idle tx
          = Some (false, parser_awaiting Parser.RESET 0, tx)) as ->
    by (by destruct Hr as [-> | ->]).
  simpl. by rewrite parse_all_digits; [|done|by eexists|done|done].
Qed.

Lemma parse_all_valve_header (l d : char) (ds : list char) tx :
  l = 86 \/ l = 118 -> Parser.is_digit d = true ->
  ds <> [] -> Forall (fun c => Parser.is_digit c = true) ds ->
  Parser.parse_all (l :: d :: ds) parser_idle tx =
    Some (replicate (length (l :: d :: ds)) false,
          Parser.mk Parser.VALUE Parser.VALVE (d - 48) 0
            [digits_value ds mod 2 ^ 16; 0], tx).
Proof.
  intros Hl Hd Hne Hds. cbn [Parser.parse_all].
  assert (Parser.parse l parser_idle tx
          = Some (false, Parser.mk Parser.TARGET Parser.VALVE 0 0 [0; 0], tx))
    as -> by (by destruct Hl as [-> | ->]).
  simpl.
  assert (Parser.parse d (Parser.mk Parser.TARGET Parser.VALVE 0 0 [0; 0]) tx
          = Some (false, parser_awaiting Parser.VALVE (d - 48), tx)) as ->.
  { apply is_digit_range in Hd as Hdr. unfold Parser.parse. simpl.
    rewrite Hd. destruct (Z.eqb_spec d 27); [lia|].
    unfold Parser.set_state, Parser.set_target, parser_awaiting, uint8_wrap.
    simpl. by rewrite Z.mod_small by lia. }
  simpl. by rewrite parse_all_digits; [|done|by eexists|done|done].
Qed.

Lemma parse_terminator_VALUE term command target index values tx :
  Parser.is_terminator term = true ->
  Parser.parse term (Parser.mk Parser.VALUE command target index values) tx
  = Some (true, Parser.mk Parser.VALUE command target index values, tx).
Proof.
  intros (Hesc & Hdig & Hsep)%is_terminator_tests.
  unfold Parser.parse. simpl. by rewrite Hesc, Hdig, Hsep.
Qed.

(** X17. A reset line, [R] or [r], digits and a terminator, is judged by
    the number the digits spell reduced modulo [2^16]: when that is 5511
    the line ends in [reset_usb_boot] with no response, when it is 1033 in
    [watchdog_reboot] after [RESET_DELAY_MS], the parser reset and no
    response. So [R71047] enters the boot loader as [R5511] does. *)
Theorem reset_line_dispatch env a (r : char) (ds : list char) (term : char) :
  halted a = false -> parser a = parser_idle ->
  r = 82 \/ r = 114 ->
  ds <> [] -> Forall (fun c => Parser.is_digit c = true) ds ->
  Parser.is_terminator term = true ->
  (length (r :: ds ++ [term]) <= RX_BUFFER_SIZE)%nat ->
  let v := digits_value ds mod 2 ^ 16 in
  let printed := console_printf (chars "Reset value: %d" ++ CRLF) [va_int v] in
  (v = 5511 ->
   exists a',
     receive env (r :: ds ++ [term]) a = Some a' /\
     actions a' = actions a ++ [printed; reset_usb_boot 0 0] /\
     halted a' = true /\ tx a' = tx a) /\
  (v = 1033 ->
   exists a',
     receive env (r :: ds ++ [term]) a = Some a' /\
     actions a' = actions a ++ [printed; watchdog_reboot 0 0 RESET_DELAY_MS] /\
     halted a' = false /\ parser a' = parser_idle /\ tx a' = tx a).
Proof.
  intros Hh Hp Hr Hne Hds Hterm Hlen v printed.
  pose proof (parse_all_reset_header r ds (tx a) Hr Hne Hds) as Hall.
  rewrite <- Hp in Hall at 1.
  pose proof (feed_line env (r :: ds) term a _ _ _ _ Hh ltac:(done) Hall
                (parse_terminator_VALUE term _ _ _ _ _ Hterm)) as Hfeed.
  rewrite receive_feed by done.
  change (r :: ds ++ [term]) with ((r :: ds) ++ [term]).
  rewrite Hfeed. unfold perform_command. simpl. fold v. fold printed.
  split; intros Hv.
  - assert ((v =? 5511) = true) as -> by (by rewrite Hv).
    simpl. eexists. split; [reflexivity|]. simpl. rewrite <- app_assoc.
    by split_and!.
  - assert ((v =? 5511) = false) as -> by (by rewrite Hv).
    assert ((v =? 1033) = true) as -> by (by rewrite Hv).
    simpl. rewrite Hh. simpl. eexists. split; [reflexivity|]. simpl.
    rewrite <- app_assoc. by split_and!.
Qed.

(** X18. A valve line, [V] or [v], the target digit 0 or 1, digits and a
    terminator, pulses that valve for the number the digits spell (modulo
    [2^16]), prints to the console first and acknowledges with [AV0] or
    [AV1], CR LF, as far as the ring has room; the parser is reset. *)
Theorem valve_line_dispatch env a (l d : char) (ds : list char)
  (term : char) :
  halted a = false -> parser a = parser_idle -> tx_valid (tx a) ->
  l = 86 \/ l = 118 -> d = 48 \/ d = 49 ->
  ds <> [] -> Forall (fun c => Parser.is_digit c = true) ds ->
  Parser.is_terminator term = true ->
  (length (l :: d :: ds ++ [term]) <= RX_BUFFER_SIZE)%nat ->
  let v := digits_value ds mod 2 ^ 16 in
  exists a',
    receive env (l :: d :: ds ++ [term]) a = Some a' /\
    actions a' =
      actions a ++
      [console_printf (chars "Valve target: %d pulse: %d" ++ CRLF)
         [va_int (d - 48); va_int v];
       pulse (valve_of (d - 48)) v] /\
    parser a' = parser_idle /\ halted a' = false /\
    tx_sent (tx a') = tx_sent (tx a) /\
    unread (tx a') =
      unread (tx a) ++
      take (Z.to_nat (free_space (tx a))) (chars "AV" ++ [d] ++ CRLF).
Proof.
  intros Hh Hp Hv Hl Hd Hne Hds Hterm Hlen v.
  assert (Parser.is_digit d = true) as Hdig by (by destruct Hd as [-> | ->]).
  pose proof (parse_all_valve_header l d ds (tx a) Hl Hdig Hne Hds) as Hall.
  rewrite <- Hp in Hall at 1.
  pose proof (feed_line env (l :: d :: ds) term a _ _ _ _ Hh ltac:(done) Hall
                (parse_terminator_VALUE term _ _ _ _ _ Hterm)) as Hfeed.
  rewrite receive_feed by done.
  change (l :: d :: ds ++ [term]) with ((l :: d :: ds) ++ [term]).
  rewrite Hfeed. unfold perform_command. simpl. fold v.
  destruct Hd as [-> | ->]; simpl.
  - match goal with |- context [respond_in ?f ?args ?x] =>
      destruct (respond_in_unread f args x (chars "AV0" ++ CRLF) Hv eq_refl)
        as (t' & -> & Hv' & Hs' & Hu')
    end.
    simpl. rewrite Hh. eexists. split; [done|]. simpl.
    rewrite <- app_assoc. by split_and!.
  - match goal with |- context [respond_in ?f ?args ?x] =>
      destruct (respond_in_unread f args x (chars "AV1" ++ CRLF) Hv eq_refl)
        as (t' & -> & Hv' & Hs' & Hu')
    end.
    simpl. rewrite Hh. eexists. split; [done|]. simpl.
    rewrite <- app_assoc. by split_and!.
Qed.

End AppLines.

Section Transport.

Context {conversion : Conversion.t}.

(** X19. What a response call queues is what the transport is handed: after
    the call, two rounds of sending the whole span offered carry the bytes
    that were already unread followed by the rendering, cut to the free
    space, and leave the ring empty. *)
Theorem response_reaches_transport format args t bytes :
  tx_valid t -> rendering format args = Some bytes ->
  exists t',
    respond_ format args t = Some t' /\
    span_bytes t' ++ span_bytes (drain t') =
      unread t ++ take (Z.to_nat (free_space t)) bytes /\
    unread (drain (drain t')) = [].
Proof.
  intros Hv Hr.
  destruct (respond__unread format args t bytes Hv Hr)
    as (t' & Hresp & Hv' & _ & Hu').
  exists t'. destruct (two_drains t' Hv') as (Hspans & Hempty & _).
  split_and!; [done|congruence|done].
Qed.

End Transport.

(** ** Instances *)

Lemma response_reaches_transport_witness :
  let t := {| output_buffer := replicate 2048 7; tx_index := 3;
              tx_sent := 2040 |} in
  let format := chars "Er%d" ++ CRLF in
  let bytes := chars "Er42" ++ CRLF in
  tx_valid t /\
  @rendering decimal_conversion format [va_int 42] = Some bytes /\
  exists t',
    @respond_ decimal_conversion format [va_int 42] t = Some t' /\
    span_bytes t' ++ span_bytes (drain t') =
      unread t ++ take (Z.to_nat (free_space t)) bytes /\
    unread (drain (drain t')) = [].
Proof.
  assert (tx_valid {| output_buffer := replicate 2048 7; tx_index := 3;
                      tx_sent := 2040 |}) as Hv
    by (split_and!; vm_compute; done).
  split_and!; [exact Hv|reflexivity|].
  apply (@response_reaches_transport decimal_conversion
           (chars "Er%d" ++ CRLF) [va_int 42] _ (chars "Er42" ++ CRLF) Hv
           eq_refl).
Defined.

Lemma app_parse_frame_witness :
  let a := App.boot in
  let a' := App.set_tx (tx_after (chars "Ec'X'" ++ CRLF) (App.tx a))
              (App.set_timeout_ 10000000 a) in
  @App.parse decimal_conversion idle 88 a = Some a' /\
  tx_valid (App.tx a) /\
  tx_valid (App.tx a') /\ tx_sent (App.tx a') = tx_sent (App.tx a) /\
  unread (App.tx a) `prefix_of` unread (App.tx a') /\
  App.rx_buffer a' = App.rx_buffer a /\
  App.actions a `prefix_of` App.actions a'.
Proof.
  assert (@App.parse decimal_conversion idle 88 App.boot
          = Some (App.set_tx (tx_after (chars "Ec'X'" ++ CRLF)
                                (App.tx App.boot))
                    (App.set_timeout_ 10000000 App.boot))) as Hp
    by (vm_compute; reflexivity).
  assert (tx_valid (App.tx App.boot)) as Hv
    by (split_and!; vm_compute; done).
  split; [exact Hp|]. split; [exact Hv|].
  apply (@app_parse_frame decimal_conversion idle 88 App.boot _ Hp Hv).
Defined.

Lemma byte_refreshes_deadline_witness :
  let rd := App.mkReadings 1000 0 false false false 0 false 0 false 0 false 0 in
  let a' := App.set_timeout_ 10001000 App.boot in
  App.halted App.boot = false /\
  @App.parse decimal_conversion rd 10 App.boot = Some a' /\
  App.timeout_ a' = uint64_wrap (App.TIMEOUT_DELAY + App.time_us_64 rd) /\
  (App.valve0_get idle = false -> App.valve1_get idle = false ->
   App.indicator_state (App.periodic idle a') =
     Some (if App.timeout_ a' <? App.time_us_64 idle then App.DISCONNECTED
           else App.CONNECTED)).
Proof.
  assert (@App.parse decimal_conversion
            (App.mkReadings 1000 0 false false false 0 false 0 false 0 false 0)
            10 App.boot
          = Some (App.set_timeout_ 10001000 App.boot)) as Hp
    by (vm_compute; reflexivity).
  split; [reflexivity|]. split; [exact Hp|].
  apply (@byte_refreshes_deadline decimal_conversion _ 10 App.boot _ idle
           eq_refl Hp).
Defined.

Lemma unexpected_byte_reported_witness :
  let p := Parser.mk Parser.TARGET Parser.VALVE 0 0 [0; 0] in
  let tx := tx_init (replicate 2048 0) in
  renders_char decimal_conversion /\ tx_valid tx /\ 32 < 88 < 2 ^ 8 /\
  ((Parser.state p = Parser.COMMAND /\ 88 ∉ chars "sSrRvV") \/
   (Parser.state p = Parser.TARGET /\ Parser.is_digit 88 = false)) /\
  exists tx',
    @Parser.parse decimal_conversion 88 p tx
      = Some (false, Parser.reset p, tx') /\
    tx_sent tx' = tx_sent tx /\
    unread tx' =
      unread tx ++
      take (Z.to_nat (free_space tx))
        ([69; if Parser.state p is Parser.COMMAND then 99 else 116; 39]
         ++ [88] ++ [39] ++ CRLF).
Proof.
  assert (renders_char decimal_conversion) as Hc
    by (split; intros; reflexivity).
  assert (tx_valid (tx_init (replicate 2048 0))) as Hv
    by (split_and!; vm_compute; done).
  assert (32 < 88 < 2 ^ 8) as Hr by (split; reflexivity).
  assert ((Parser.state (Parser.mk Parser.TARGET Parser.VALVE 0 0 [0; 0])
           = Parser.COMMAND /\ 88 ∉ chars "sSrRvV") \/
          (Parser.state (Parser.mk Parser.TARGET Parser.VALVE 0 0 [0; 0])
           = Parser.TARGET /\ Parser.is_digit 88 = false)) as Hs
    by (right; split; reflexivity).
  split_and!; [exact Hc|exact Hv|apply Hr|apply Hr|exact Hs|].
  apply (@unexpected_byte_reported decimal_conversion 88
           (Parser.mk Parser.TARGET Parser.VALVE 0 0 [0; 0])
           (tx_init (replicate 2048 0)) Hc Hv Hr Hs).
Defined.

Lemma valve_dispatch_witness :
  let a :=
    App.set_parser (Parser.mk Parser.VALUE Parser.VALVE 7 0 [30; 0]) App.boot in
  let printed :=
    App.console_printf (chars "Valve target: %d pulse: %d" ++ CRLF)
      [va_int 7; va_int 30] in
  renders_decimal decimal_conversion /\ tx_valid (App.tx a) /\
  Parser.command (App.parser a) = Parser.VALVE /\
  Parser.values (App.parser a) = [30; 0] /\
  exists a',
    @App.perform_command decimal_conversion idle a = Some a' /\
    tx_sent (App.tx a') = tx_sent (App.tx a) /\
    (7 = 0 \/ 7 = 1 ->
       App.actions a' =
         App.actions a ++ [printed; App.pulse (valve_of 7) 30] /\
       unread (App.tx a') =
         unread (App.tx a) ++
         take (Z.to_nat (free_space (App.tx a)))
           (chars "AV" ++ [48 + 7] ++ CRLF)) /\
    (7 <> 0 -> 7 <> 1 ->
       App.actions a' = App.actions a ++ [printed] /\
       unread (App.tx a') =
         unread (App.tx a) ++
         take (Z.to_nat (free_space (App.tx a)))
           (chars "Ev" ++ decimal 7 ++ CRLF)).
Proof.
  assert (renders_decimal decimal_conversion) as Hd
    by (split; intros; reflexivity).
  assert (tx_valid (App.tx App.boot)) as Hv
    by (split_and!; vm_compute; done).
  split_and!; [exact Hd|exact Hv|reflexivity|reflexivity|].
  apply (@valve_dispatch decimal_conversion idle
           (App.set_parser (Parser.mk Parser.VALUE Parser.VALVE 7 0 [30; 0])
              App.boot) 30 [0] Hd Hv eq_refl eq_refl).
Defined.

Lemma status_dispatch_witness :
  let a := App.set_parser (Parser.set_command Parser.STATUS parser_idle)
             App.boot in
  renders_decimal decimal_conversion /\ renders_char decimal_conversion /\
  tx_valid (App.tx a) /\ Parser.command (App.parser a) = Parser.STATUS /\
  exists a',
    @App.perform_command decimal_conversion idle a = Some a' /\
    App.actions a' = App.actions a /\ App.parser a' = App.parser a /\
    tx_sent (App.tx a') = tx_sent (App.tx a) /\
    unread (App.tx a') =
      unread (App.tx a) ++
      take (Z.to_nat (free_space (App.tx a))) (status_line idle).
Proof.
  assert (renders_decimal decimal_conversion) as Hd
    by (split; intros; reflexivity).
  assert (renders_char decimal_conversion) as Hc
    by (split; intros; reflexivity).
  assert (tx_valid (App.tx App.boot)) as Hv
    by (split_and!; vm_compute; done).
  split_and!; [exact Hd|exact Hc|exact Hv|reflexivity|].
  apply (@status_dispatch decimal_conversion idle
           (App.set_parser (Parser.set_command Parser.STATUS parser_idle)
              App.boot) Hd Hc Hv eq_refl).
Defined.

Lemma receive_is_safe_witness :
  let bytes := chars "V9,x" ++ [ESC] ++ chars "R5511,S" in
  renders_decimal decimal_conversion /\ renders_char decimal_conversion /\
  app_ok App.boot /\ (length bytes <= App.RX_BUFFER_SIZE)%nat /\
  exists a',
    @App.receive decimal_conversion (fun _ => idle) bytes App.boot = Some a' /\
    app_ok a'.
Proof.
  assert (renders_decimal decimal_conversion) as Hd
    by (split; intros; reflexivity).
  assert (renders_char decimal_conversion) as Hc
    by (split; intros; reflexivity).
  assert (app_ok App.boot) as Hok.
  { split; [split_and!; vm_compute; done|]. intros _.
    unfold parser_ok. simpl. split_and!; try done.
    repeat constructor; done. }
  assert (length (chars "V9,x" ++ [ESC] ++ chars "R5511,S")
          <= App.RX_BUFFER_SIZE)%nat as Hlen by (vm_compute; lia).
  split_and!; [exact Hd|exact Hc|exact Hok|exact Hlen|].
  apply (@receive_is_safe decimal_conversion (fun _ => idle) _ App.boot
           Hd Hc Hok Hlen).
Defined.

Lemma receive_in_two_parts_witness :
  let b1 := chars "V01" in
  let b2 := chars "00" ++ [CR] in
  (length (b1 ++ b2) <= App.RX_BUFFER_SIZE)%nat /\
  observable <$>
    @App.receive decimal_conversion (fun _ => idle) (b1 ++ b2) App.boot =
  observable <$>
    (@App.receive decimal_conversion (fun _ => idle) b1 App.boot
       ≫= @App.receive decimal_conversion
            (fun k => (fun _ => idle) (length b1 + k)%nat) b2).
Proof.
  assert (length (chars "V01" ++ chars "00" ++ [CR])
          <= App.RX_BUFFER_SIZE)%nat as Hlen by (vm_compute; lia).
  split; [exact Hlen|].
  apply (@receive_in_two_parts decimal_conversion (fun _ => idle)
           (chars "V01") (chars "00" ++ [CR]) App.boot Hlen).
Defined.

Lemma reset_line_dispatch_witness :
  let ds := chars "71047" in
  let v := digits_value ds mod 2 ^ 16 in
  let printed :=
    App.console_printf (chars "Reset value: %d" ++ CRLF) [va_int v] in
  let env := fun _ : nat => idle in
  let line := 114 :: ds ++ [LF] in
  App.halted App.boot = false /\ App.parser App.boot = parser_idle /\
  (114 = 82 \/ 114 = 114) /\
  ds <> [] /\ Forall (fun c => Parser.is_digit c = true) ds /\
  Parser.is_terminator LF = true /\
  (length line <= App.RX_BUFFER_SIZE)%nat /\
  (v = 5511 ->
   exists a',
     @App.receive decimal_conversion env (114 :: ds ++ [LF]) App.boot
       = Some a' /\
     App.actions a' =
       App.actions App.boot ++ [printed; App.reset_usb_boot 0 0] /\
     App.halted a' = true /\ App.tx a' = App.tx App.boot) /\
  (v = 1033 ->
   exists a',
     @App.receive decimal_conversion env (114 :: ds ++ [LF]) App.boot
       = Some a' /\
     App.actions a' =
       App.actions App.boot ++
       [printed; App.watchdog_reboot 0 0 App.RESET_DELAY_MS] /\
     App.halted a' = false /\ App.parser a' = parser_idle /\
     App.tx a' = App.tx App.boot).
Proof.
  assert (114 = 82 \/ 114 = 114) as Hr by (right; reflexivity).
  assert (chars "71047" <> []) as Hne by discriminate.
  assert (Forall (fun c => Parser.is_digit c = true) (chars "71047")) as Hds
    by (repeat constructor).
  assert (Nat.le (length (114 :: chars "71047" ++ [LF])) App.RX_BUFFER_SIZE)
    as Hlen by (vm_compute; lia).
  split_and!;
    [reflexivity|reflexivity|exact Hr|exact Hne|exact Hds|reflexivity
    |exact Hlen|..];
    apply (@reset_line_dispatch decimal_conversion (fun _ => idle) App.boot
             114 (chars "71047") LF eq_refl eq_refl Hr Hne Hds eq_refl Hlen).
Defined.

Lemma reset_line_wraps :
  digits_value (chars "71047") mod 2 ^ 16 = 5511.
Proof. reflexivity. Qed.

Lemma valve_line_dispatch_witness :
  let ds := chars "250" in
  let v := digits_value ds mod 2 ^ 16 in
  let env := fun _ : nat => idle in
  let line := 118 :: 49 :: ds ++ [LF] in
  App.halted App.boot = false /\ App.parser App.boot = parser_idle /\
  tx_valid (App.tx App.boot) /\
  (118 = 86 \/ 118 = 118) /\ (49 = 48 \/ 49 = 49) /\
  ds <> [] /\ Forall (fun c => Parser.is_digit c = true) ds /\
  Parser.is_terminator LF = true /\
  (length line <= App.RX_BUFFER_SIZE)%nat /\
  exists a',
    @App.receive decimal_conversion env (118 :: 49 :: ds ++ [LF]) App.boot
      = Some a' /\
    App.actions a' =
      App.actions App.boot ++
      [App.console_printf (chars "Valve target: %d pulse: %d" ++ CRLF)
         [va_int (49 - 48); va_int v];
       App.pulse (valve_of (49 - 48)) v] /\
    App.parser a' = parser_idle /\ App.halted a' = false /\
    tx_sent (App.tx a') = tx_sent (App.tx App.boot) /\
    unread (App.tx a') =
      unread (App.tx App.boot) ++
      take (Z.to_nat (free_space (App.tx App.boot)))
        (chars "AV" ++ [49] ++ CRLF).
Proof.
  assert (tx_valid (App.tx App.boot)) as Hv
    by (split_and!; vm_compute; done).
  assert (118 = 86 \/ 118 = 118) as Hl by (right; reflexivity).
  assert (49 = 48 \/ 49 = 49) as Hd by (right; reflexivity).
  assert (chars "250" <> []) as Hne by discriminate.
  assert (Forall (fun c => Parser.is_digit c = true) (chars "250")) as Hds
    by (repeat constructor).
  assert (Nat.le (length (118 :: 49 :: chars "250" ++ [LF]))
            App.RX_BUFFER_SIZE) as Hlen by (vm_compute; lia).
  split_and!;
    [reflexivity|reflexivity|exact Hv|exact Hl|exact Hd|exact Hne|exact Hds
    |reflexivity|exact Hlen|].
  apply (@valve_line_dispatch decimal_conversion (fun _ => idle) App.boot
           118 49 (chars "250") LF eq_refl eq_refl Hv Hl Hd Hne Hds eq_refl
           Hlen).
Defined.

(** * The second value of a valve command *)

Section SecondValue.

Context {conversion : Conversion.t}.

Import App.

Lemma ends_value_tests c :
  ends_value c = true -> (c =? 27) = false /\ Parser.is_digit c = false.
Proof.
  unfold ends_value. by destruct (c =? 27), (Parser.is_digit c).
Qed.

Lemma ends_value_cases c :
  ends_value c = true ->
  Parser.is_terminator c = true \/ is_separator c = true.
Proof.
  unfold ends_value, Parser.is_terminator, is_separator.
  destruct (c =? 27), (Parser.is_digit c), ((c =? 44) || (c =? 58)); auto.
Qed.

(** NEXT_VALUE acts on ESC and on digits only. *)
Lemma parse_all_passed_over (junk : list char) p tx :
  Parser.state p = Parser.NEXT_VALUE ->
  Forall (fun c => ends_value c = true) junk ->
  Parser.parse_all junk p tx = Some (replicate (length junk) false, p, tx).
Proof.
  intros Hs. induction 1 as [|c junk (Hesc & Hdig)%ends_value_tests _ IH];
    [done|].
  cbn [Parser.parse_all]. unfold Parser.parse at 1.
  rewrite Hs, Hesc, Hdig. simpl. by rewrite IH.
Qed.

Lemma parse_all_second_value (junk ds : list char) v tx :
  Forall (fun c => ends_value c = true) junk ->
  ds <> [] -> Forall (fun c => Parser.is_digit c = true) ds ->
  Parser.parse_all (junk ++ ds)
    (Parser.mk Parser.NEXT_VALUE Parser.VALVE 0 1 [v; 0]) tx =
    Some (replicate (length (junk ++ ds)) false,
          Parser.mk Parser.VALUE Parser.VALVE 0 1
            [v; digits_value ds mod 2 ^ 16], tx).
Proof.
  intros Hjunk Hne Hds.
  erewrite parse_all_app; [|by apply parse_all_passed_over].
  rewrite parse_all_digits; [|done|by eexists|done|done].
  simpl. by rewrite length_app, replicate_add.
Qed.

(** In VALUE with index 1 a separator ends the command as a terminator
    does: [++index] leaves the array. *)
Lemma parse_end_second_value (e : char) v w tx :
  ends_value e = true ->
  Parser.parse e (Parser.mk Parser.VALUE Parser.VALVE 0 1 [v; w]) tx =
    Some (true,
          Parser.mk Parser.VALUE Parser.VALVE 0
            (if is_separator e then 2 else 1) [v; w], tx).
Proof.
  intros (Hesc & Hdig)%ends_value_tests.
  unfold Parser.parse, is_separator. simpl. rewrite Hesc, Hdig.
  by destruct ((e =? 44) || (e =? 58)).
Qed.

Lemma parse_all_cancelled (bytes : list char) p p1 tx :
  Parser.parse_all bytes p tx
    = Some (replicate (length bytes) false, p1, tx) ->
  Parser.state p1 <> Parser.COMMAND ->
  Parser.parse_all (bytes ++ [ESC]) p tx =
    Some (replicate (length (bytes ++ [ESC])) false, Parser.reset p1, tx).
Proof.
  intros Hall Hs. rewrite (parse_all_app _ _ _ _ _ _ Hall).
  cbn [Parser.parse_all].
  assert (Parser.parse ESC p1 tx = Some (false, Parser.reset p1, tx)) as ->
    by (unfold Parser.parse; by destruct (Parser.state p1)).
  simpl. by rewrite length_app, replicate_add.
Qed.

(** A delivery none of whose bytes completes a command moves the parser
    and the ring as [Parser::parse] does and asks nothing of the
    collaborators. *)
Lemma receive_incomplete env (bytes : list char) a p t :
  halted a = false -> (length bytes <= RX_BUFFER_SIZE)%nat ->
  Parser.parse_all bytes (parser a) (tx a)
    = Some (replicate (length bytes) false, p, t) ->
  exists a2,
    receive env bytes a = Some a2 /\ parser a2 = p /\
    actions a2 = actions a /\ tx a2 = t /\ halted a2 = false.
Proof.
  intros Hh Hlen Hall. rewrite receive_feed by done.
  destruct bytes as [|c bytes].
  { simpl in *. injection Hall as <- <-. by eexists. }
  rewrite (feed_incomplete env (c :: bytes) 0 a p t Hh ltac:(done) Hall).
  by eexists.
Qed.

(** The dispatch of a VALVE command for target 0 whose first value is [v],
    whatever the second value and [index] are. *)
Lemma receive_valve0_line env (bytes : list char) (e : char) a p1 index v w :
  halted a = false -> tx_valid (tx a) -> bytes <> [] ->
  (length (bytes ++ [e]) <= RX_BUFFER_SIZE)%nat ->
  Parser.parse_all bytes (parser a) (tx a)
    = Some (replicate (length bytes) false, p1, tx a) ->
  Parser.parse e p1 (tx a)
    = Some (true, Parser.mk Parser.VALUE Parser.VALVE 0 index [v; w], tx a) ->
  exists a2,
    receive env (bytes ++ [e]) a = Some a2 /\
    actions a2 =
      actions a ++
      [console_printf (chars "Valve target: %d pulse: %d" ++ CRLF)
         [va_int 0; va_int v];
       pulse valve0_ v] /\
    parser a2 = parser_idle /\ halted a2 = false /\
    tx_sent (tx a2) = tx_sent (tx a) /\
    unread (tx a2) =
      unread (tx a) ++
      take (Z.to_nat (free_space (tx a))) (chars "AV0" ++ CRLF).
Proof.
  intros Hh Hv Hne Hlen Hall Hp.
  rewrite receive_feed by done.
  rewrite (feed_line env bytes e a _ _ _ _ Hh Hne Hall Hp).
  unfold perform_command. simpl.
  match goal with |- context [respond_in ?f ?args ?x] =>
    destruct (respond_in_unread f args x (chars "AV0" ++ CRLF) Hv eq_refl)
      as (t' & -> & Hv' & Hs' & Hu')
  end.
  simpl. rewrite Hh. eexists. split; [done|]. simpl.
  rewrite <- app_assoc. by split_and!.
Qed.

(** A run of bytes without ESC is made of bytes that end a value and of
    digits; read from the left it is bytes that end a value only, or such
    bytes and then digits only, or it holds digits followed by a byte
    that ends a value. *)
Lemma digit_run_cases (bs : list char) :
  Forall (fun c => c <> 27) bs ->
  Forall (fun c => Parser.is_digit c = true) bs \/
  exists ds e rest,
    bs = ds ++ e :: rest /\
    Forall (fun c => Parser.is_digit c = true) ds /\ ends_value e = true.
Proof.
  induction 1 as [|c bs Hc _ IH]; [by left|].
  destruct (Parser.is_digit c) eqn:Hd.
  - destruct IH as [Hall|(ds & e & rest & -> & Hds & He)].
    + left. by constructor.
    + right. exists (c :: ds), e, rest. split_and!; [done| |done].
      by constructor.
  - right. exists [], c, bs. split_and!; [done|done|].
    unfold ends_value. rewrite Hd. by destruct (Z.eqb_spec c 27).
Qed.

Lemma value_run_cases (bs : list char) :
  Forall (fun c => c <> 27) bs ->
  Forall (fun c => ends_value c = true) bs \/
  (exists junk ds,
     bs = junk ++ ds /\ Forall (fun c => ends_value c = true) junk /\
     ds <> [] /\ Forall (fun c => Parser.is_digit c = true) ds) \/
  (exists junk ds e rest,
     bs = junk ++ ds ++ e :: rest /\
     Forall (fun c => ends_value c = true) junk /\
     ds <> [] /\ Forall (fun c => Parser.is_digit c = true) ds /\
     ends_value e = true).
Proof.
  intros Hbs. induction Hbs as [|c bs Hc Hbs IH]; [by left|].
  destruct (Parser.is_digit c) eqn:Hd.
  - right. destruct (digit_run_cases bs Hbs)
      as [Hall|(ds & e & rest & -> & Hds & He)].
    + left. exists [], (c :: bs). split_and!; [done|done|done|].
      by constructor.
    + right. exists [], (c :: ds), e, rest.
      split_and!; [done|done|done| |done]. by constructor.
  - assert (ends_value c = true) as He.
    { unfold ends_value. rewrite Hd. by destruct (Z.eqb_spec c 27). }
    destruct IH as [Hall|[(junk & ds & -> & Hj & Hne & Hds)
                         |(junk & ds & e & rest & -> & Hj & Hne & Hds & Hee)]].
    + left. by constructor.
    + right. left. exists (c :: junk), ds. split_and!; [done| |done|done].
      by constructor.
    + right. right. exists (c :: junk), ds, e, rest.
      split_and!; [done| |done|done|done]. by constructor.
Qed.

(** C1, amended. The bytes [V0100] followed by a terminator (any byte but
    ESC, a digit, [,] and [:]; CR for one) complete a VALVE command with
    target 0 and values [100, 0]: [parse] returns [true] on the
    terminator, the dispatcher prints to the console, pulses valve 0 for
    100 and queues [AV0], CR, LF (as far as the ring has room), and the
    parser is reset. With the separator, [V0100,], the parser waits in
    NEXT_VALUE with index 1 and passes over the terminator: nothing
    completes, nothing is asked of the hardware and the ring is
    untouched. From that state [a1], in deliveries of at most
    [RX_BUFFER_SIZE] bytes:
    - bytes [junk] that are neither ESC nor digits are all passed over;
    - digits [ds] behind them are gathered as the second value, still
      with nothing completed;
    - the first byte [e] behind the digits that is neither ESC nor a
      digit, a separator as much as a terminator, completes the command
      with values [100, ds mod 2^16]; it is dispatched as before: console
      print, valve 0 pulsed for 100, [AV0], CR, LF, parser reset;
    - an ESC in place of [e], or before any digit, cancels the command:
      parser reset, nothing dispatched, no response;
    - a delivery [bs] without ESC either holds such digits followed by
      such a byte, or asks nothing of the hardware, leaves the ring
      untouched and the VALVE command pending. *)
Theorem valve_command_dispatched env a term env1 a1
  (junk ds : list char) (e : char) (bs : list char) :
  tx_valid (tx a) -> halted a = false -> parser a = parser_idle ->
  Parser.is_terminator term = true ->
  tx_valid (tx a1) -> halted a1 = false ->
  parser a1 = Parser.mk Parser.NEXT_VALUE Parser.VALVE 0 1 [100; 0] ->
  Forall (fun c => ends_value c = true) junk ->
  ds <> [] -> Forall (fun c => Parser.is_digit c = true) ds ->
  ends_value e = true ->
  (length (junk ++ ds ++ [e]) <= RX_BUFFER_SIZE)%nat ->
  Forall (fun c => c <> 27) bs -> (length bs <= RX_BUFFER_SIZE)%nat ->
  Parser.parse_all (chars "V0100" ++ [term]) parser_idle (tx a) =
    Some ([false; false; false; false; false; true],
          Parser.mk Parser.VALUE Parser.VALVE 0 0 [100; 0], tx a) /\
  (exists a',
     receive env (chars "V0100" ++ [term]) a = Some a' /\
     actions a' =
       actions a ++
       [console_printf (chars "Valve target: %d pulse: %d" ++ CRLF)
          [va_int 0; va_int 100];
        pulse valve0_ 100] /\
     parser a' = parser_idle /\
     tx_sent (tx a') = tx_sent (tx a) /\
     unread (tx a') =
       unread (tx a) ++
       take (Z.to_nat (free_space (tx a))) (chars "AV0" ++ CRLF)) /\
  Parser.parse_all (chars "V0100," ++ [term]) parser_idle (tx a) =
    Some (replicate 7 false,
          Parser.mk Parser.NEXT_VALUE Parser.VALVE 0 1 [100; 0], tx a) /\
  (exists a',
     receive env (chars "V0100," ++ [term]) a = Some a' /\
     actions a' = actions a /\ tx a' = tx a /\
     parser a' = Parser.mk Parser.NEXT_VALUE Parser.VALVE 0 1 [100; 0] /\
     halted a' = false) /\
  (exists a2,
     receive env1 junk a1 = Some a2 /\
     parser a2 = Parser.mk Parser.NEXT_VALUE Parser.VALVE 0 1 [100; 0] /\
     actions a2 = actions a1 /\ tx a2 = tx a1 /\ halted a2 = false) /\
  (exists a2,
     receive env1 (junk ++ ds) a1 = Some a2 /\
     parser a2 =
       Parser.mk Parser.VALUE Parser.VALVE 0 1
         [100; digits_value ds mod 2 ^ 16] /\
     actions a2 = actions a1 /\ tx a2 = tx a1 /\ halted a2 = false) /\
  Parser.parse_all (junk ++ ds ++ [e]) (parser a1) (tx a1) =
    Some (replicate (length junk + length ds) false ++ [true],
          Parser.mk Parser.VALUE Parser.VALVE 0
            (if is_separator e then 2 else 1)
            [100; digits_value ds mod 2 ^ 16], tx a1) /\
  (exists a2,
     receive env1 (junk ++ ds ++ [e]) a1 = Some a2 /\
     actions a2 =
       actions a1 ++
       [console_printf (chars "Valve target: %d pulse: %d" ++ CRLF)
          [va_int 0; va_int 100];
        pulse valve0_ 100] /\
     parser a2 = parser_idle /\ halted a2 = false /\
     tx_sent (tx a2) = tx_sent (tx a1) /\
     unread (tx a2) =
       unread (tx a1) ++
       take (Z.to_nat (free_space (tx a1))) (chars "AV0" ++ CRLF)) /\
  (exists a2,
     receive env1 (junk ++ ds ++ [ESC]) a1 = Some a2 /\
     parser a2 = parser_idle /\
     actions a2 = actions a1 /\ tx a2 = tx a1 /\ halted a2 = false) /\
  (exists a2,
     receive env1 (junk ++ [ESC]) a1 = Some a2 /\
     parser a2 = parser_idle /\
     actions a2 = actions a1 /\ tx a2 = tx a1 /\ halted a2 = false) /\
  ((exists junk' ds' e' rest,
      bs = junk' ++ ds' ++ e' :: rest /\
      Forall (fun c => ends_value c = true) junk' /\
      ds' <> [] /\ Forall (fun c => Parser.is_digit c = true) ds' /\
      ends_value e' = true) \/
   (exists a2,
      receive env1 bs a1 = Some a2 /\
      actions a2 = actions a1 /\ tx a2 = tx a1 /\ halted a2 = false /\
      Parser.state (parser a2) <> Parser.COMMAND /\
      Parser.command (parser a2) = Parser.VALVE /\
      Parser.target (parser a2) = 0 /\
      Parser.values (parser a2) !! 0%nat = Some 100)).
Proof.
  intros Hv Hh Hp Hterm Hv1 Hh1 Hp1 Hjunk Hne Hds He Hlen Hbs Hlenbs.
  destruct (valve_V0100_lines env a term Hv Hh Hp Hterm)
    as (Hc1 & Hc2 & Hc3 & Hc4).
  rewrite !length_app in Hlen. simpl in Hlen.
  assert (forall (js : list char),
            Forall (fun c => ends_value c = true) js ->
            Parser.parse_all js (parser a1) (tx a1)
            = Some (replicate (length js) false,
                    Parser.mk Parser.NEXT_VALUE Parser.VALVE 0 1 [100; 0],
                    tx a1)) as Hover.
  { intros js Hjs. rewrite Hp1. by apply parse_all_passed_over. }
  assert (forall (js xs : list char),
            Forall (fun c => ends_value c = true) js -> xs <> [] ->
            Forall (fun c => Parser.is_digit c = true) xs ->
            Parser.parse_all (js ++ xs) (parser a1) (tx a1)
            = Some (replicate (length (js ++ xs)) false,
                    Parser.mk Parser.VALUE Parser.VALVE 0 1
                      [100; digits_value xs mod 2 ^ 16],
                    tx a1)) as Hsecond.
  { intros js xs Hjs Hxs Hdx. rewrite Hp1. by apply parse_all_second_value. }
  split_and!; [exact Hc1|exact Hc2|exact Hc3|exact Hc4|..].
  - apply receive_incomplete; [done|lia|by apply Hover].
  - apply receive_incomplete; [done|rewrite length_app; lia|by apply Hsecond].
  - rewrite app_assoc.
    rewrite (parse_all_app _ _ _ _ _ _ (Hsecond junk ds Hjunk Hne Hds)).
    cbn [Parser.parse_all]. rewrite parse_end_second_value by done.
    simpl. by rewrite length_app.
  - rewrite app_assoc.
    eapply receive_valve0_line;
      [done|done|by destruct junk, ds|rewrite !length_app; simpl; lia
      |by apply Hsecond|by apply parse_end_second_value].
  - rewrite app_assoc.
    destruct (receive_incomplete env1 ((junk ++ ds) ++ [ESC]) a1
                (Parser.reset
                   (Parser.mk Parser.VALUE Parser.VALVE 0 1
                      [100; digits_value ds mod 2 ^ 16])) (tx a1))
      as (a2 & Hr & Hp2 & H2); [done|rewrite !length_app; simpl; lia| |].
    { apply parse_all_cancelled; [by apply Hsecond|done]. }
    exists a2. by rewrite Hr, Hp2.
  - destruct (receive_incomplete env1 (junk ++ [ESC]) a1
                (Parser.reset
                   (Parser.mk Parser.NEXT_VALUE Parser.VALVE 0 1 [100; 0]))
                (tx a1))
      as (a2 & Hr & Hp2 & H2); [done|rewrite !length_app; simpl; lia| |].
    { apply parse_all_cancelled; [by apply Hover|done]. }
    exists a2. by rewrite Hr, Hp2.
  - destruct (value_run_cases bs Hbs)
      as [Hall|[(js & xs & -> & Hjs & Hxs & Hdx)|Hdone]].
    + right.
      destruct (receive_incomplete env1 bs a1 _ _ Hh1 Hlenbs (Hover bs Hall))
        as (a2 & Hr & Hp2 & Ha2 & Ht2 & Hh2).
      exists a2. rewrite Hp2. by split_and!.
    + right.
      destruct (receive_incomplete env1 (js ++ xs) a1 _ _ Hh1 Hlenbs
                  (Hsecond js xs Hjs Hxs Hdx))
        as (a2 & Hr & Hp2 & Ha2 & Ht2 & Hh2).
      exists a2. rewrite Hp2. by split_and!.
    + by left.
Qed.

End SecondValue.

(** * The parser at start-up *)

Section StaticParser.

Context {conversion : Conversion.t}.

(** C9, amended. The initialiser list of the constructor sets [state],
    [command], [target] and [values] and does not write [index], which
    keeps what its storage held. The one parser of the program is a static
    object, zero-initialised before its constructor runs: at start-up
    [index] is 0 and [index < values.size()] holds, before [reset] has
    ever been called. From there every delivery is handled with each
    value stored inside the array, and the invariant is kept by every
    delivery from every well-formed state. [reset] sets [index] to 0
    again; [parse] changes [index] only by [++index] or by [reset]. *)
Theorem static_parser_index_zero env (bytes : list char) :
  renders_decimal conversion -> renders_char conversion ->
  (length bytes <= App.RX_BUFFER_SIZE)%nat ->
  (forall index0,
     Parser.state (Parser.ctor index0) = Parser.COMMAND /\
     Parser.command (Parser.ctor index0) = Parser.NONE /\
     Parser.target (Parser.ctor index0) = 0 /\
     Parser.values (Parser.ctor index0) = [0; 0] /\
     Parser.index (Parser.ctor index0) = index0) /\
  App.parser App.boot = Parser.ctor 0 /\
  Parser.index (App.parser App.boot) = 0 /\
  Parser.index (App.parser App.boot)
    < Z.of_nat (length (Parser.values (App.parser App.boot))) /\
  parser_ok (App.parser App.boot) /\ app_ok App.boot /\
  (exists a', App.receive env bytes App.boot = Some a' /\ app_ok a') /\
  (forall a,
     app_ok a -> exists a', App.receive env bytes a = Some a' /\ app_ok a') /\
  (forall a,
     app_ok a -> App.halted a = false ->
     0 <= Parser.index (App.parser a)
       < Z.of_nat (length (Parser.values (App.parser a)))) /\
  (forall p, Parser.index (Parser.reset p) = 0) /\
  (forall c p tx flag p' tx',
     Parser.parse c p tx = Some (flag, p', tx') ->
     Parser.index p' = Parser.index p \/
     Parser.index p' = uint8_wrap (Parser.index p + 1) \/
     p' = Parser.reset p).
Proof.
  intros Hd Hc Hlen.
  assert (parser_ok (App.parser App.boot)) as Hok.
  { split_and!; simpl; try done; try lia. by repeat constructor. }
  assert (app_ok App.boot) as Hboot.
  { split; [|done]. split_and!; vm_compute; done. }
  assert (forall a, app_ok a ->
            exists a', App.receive env bytes a = Some a' /\ app_ok a')
    as Hstep.
  { intros a Ha. rewrite receive_feed by done.
    destruct (feed_keeps_app_ok env bytes 0 a Hd Hc Ha) as (a1 & -> & Hok1).
    by eexists. }
  split_and!; try done.
  - by apply Hstep.
  - intros a [_ Ha] Hh. destruct (Ha Hh) as (Hl & _ & Hi & _).
    rewrite Hl. exact Hi.
  - intros c p tx flag p' tx'. unfold Parser.parse, Parser.store_value.
    destruct (Parser.state p);
      repeat match goal with
        | |- context [if ?b then _ else _] => destruct b
        | |- context [respond_ ?f ?a ?t] => destruct (respond_ f a t)
        | |- context [Parser.values p !! ?i] =>
            destruct (Parser.values p !! i)
        end; simpl; intros [= <- <- <-]; auto.
Qed.

End StaticParser.

(** C9 as stated fails of the program. Its one parser is a static object:
    [index] is 0 at start-up, inside the array, and no other content of
    its storage is possible; the first value of the first command, handled
    before [reset] has ever been called, is stored in [values[0]]. *)
Lemma static_parser_index_determinate :
  Parser.index (App.parser App.boot) = 0 /\
  Parser.index (App.parser App.boot)
    < Z.of_nat (length (Parser.values (App.parser App.boot))) /\
  ~ (exists index0,
       index0 <> 0 /\ Parser.index (App.parser App.boot) = index0) /\
  ~ (exists index0,
       ~ index0 < Z.of_nat (length (Parser.values (App.parser App.boot))) /\
       Parser.index (App.parser App.boot) = index0) /\
  exists a',
    @App.receive decimal_conversion (fun _ => idle) (chars "R5") App.boot
      = Some a' /\
    Parser.state (App.parser a') = Parser.VALUE /\
    Parser.index (App.parser a') = 0 /\
    Parser.values (App.parser a') = [5; 0].
Proof.
  split_and!.
  - reflexivity.
  - simpl. lia.
  - intros (index0 & Hne & Hi). simpl in Hi. congruence.
  - intros (index0 & Hne & Hi). simpl in Hi, Hne. lia.
  - eexists. split; [vm_compute; reflexivity|]. by split_and!.
Qed.

(** ** Instances *)

Lemma static_parser_index_zero_witness :
  let env := fun _ : nat => idle in
  let bytes := chars "V07,9" ++ CRLF in
  renders_decimal decimal_conversion /\ renders_char decimal_conversion /\
  Nat.le (length bytes) App.RX_BUFFER_SIZE /\
  (forall index0,
     Parser.state (Parser.ctor index0) = Parser.COMMAND /\
     Parser.command (Parser.ctor index0) = Parser.NONE /\
     Parser.target (Parser.ctor index0) = 0 /\
     Parser.values (Parser.ctor index0) = [0; 0] /\
     Parser.index (Parser.ctor index0) = index0) /\
  App.parser App.boot = Parser.ctor 0 /\
  Parser.index (App.parser App.boot) = 0 /\
  Parser.index (App.parser App.boot)
    < Z.of_nat (length (Parser.values (App.parser App.boot))) /\
  parser_ok (App.parser App.boot) /\ app_ok App.boot /\
  (exists a',
     @App.receive decimal_conversion env bytes App.boot = Some a' /\
     app_ok a') /\
  (forall a,
     app_ok a ->
     exists a',
       @App.receive decimal_conversion env bytes a = Some a' /\ app_ok a') /\
  (forall a,
     app_ok a -> App.halted a = false ->
     0 <= Parser.index (App.parser a)
       < Z.of_nat (length (Parser.values (App.parser a)))) /\
  (forall p, Parser.index (Parser.reset p) = 0) /\
  (forall c p tx flag p' tx',
     @Parser.parse decimal_conversion c p tx = Some (flag, p', tx') ->
     Parser.index p' = Parser.index p \/
     Parser.index p' = uint8_wrap (Parser.index p + 1) \/
     p' = Parser.reset p).
Proof.
  assert (renders_decimal decimal_conversion) as Hd
    by (split; intros; reflexivity).
  assert (renders_char decimal_conversion) as Hc
    by (split; intros; reflexivity).
  assert (Nat.le (length (chars "V07,9" ++ CRLF)) App.RX_BUFFER_SIZE) as Hlen
    by (vm_compute; lia).
  refine (conj Hd (conj Hc (conj Hlen _))).
  exact (@static_parser_index_zero decimal_conversion (fun _ => idle)
           (chars "V07,9" ++ CRLF) Hd Hc Hlen).
Defined.

Lemma valve_command_dispatched_witness :
  let env := fun _ : nat => idle in
  let a := App.boot in
  let waiting := Parser.mk Parser.NEXT_VALUE Parser.VALVE 0 1 [100; 0] in
  let a1 :=
    App.mk (App.tx App.boot) waiting
      (chars "V0100," ++ [CR] ++ replicate 58 0) 10000000 [] false in
  let junk := [LF; 32] in
  let ds := chars "7" in
  let e := 44 in
  let bs := [LF; 55] in
  let printed :=
    App.console_printf (chars "Valve target: %d pulse: %d" ++ CRLF)
      [va_int 0; va_int 100] in
  @App.receive decimal_conversion env (chars "V0100," ++ [CR]) App.boot
    = Some a1 /\
  tx_valid (App.tx a) /\ App.halted a = false /\
  App.parser a = parser_idle /\ Parser.is_terminator CR = true /\
  tx_valid (App.tx a1) /\ App.halted a1 = false /\
  App.parser a1 = waiting /\
  Forall (fun c => ends_value c = true) junk /\
  ds <> [] /\ Forall (fun c => Parser.is_digit c = true) ds /\
  ends_value e = true /\
  Nat.le (length (junk ++ ds ++ [e])) App.RX_BUFFER_SIZE /\
  Forall (fun c => c <> 27) bs /\ Nat.le (length bs) App.RX_BUFFER_SIZE /\
  @Parser.parse_all decimal_conversion (chars "V0100" ++ [CR]) parser_idle
    (App.tx a) =
    Some ([false; false; false; false; false; true],
          Parser.mk Parser.VALUE Parser.VALVE 0 0 [100; 0], App.tx a) /\
  (exists a',
     @App.receive decimal_conversion env (chars "V0100" ++ [CR]) a = Some a' /\
     App.actions a' =
       App.actions a ++ [printed; App.pulse App.valve0_ 100] /\
     App.parser a' = parser_idle /\
     tx_sent (App.tx a') = tx_sent (App.tx a) /\
     unread (App.tx a') =
       unread (App.tx a) ++
       take (Z.to_nat (free_space (App.tx a))) (chars "AV0" ++ CRLF)) /\
  @Parser.parse_all decimal_conversion (chars "V0100," ++ [CR]) parser_idle
    (App.tx a) =
    Some (replicate 7 false, waiting, App.tx a) /\
  (exists a',
     @App.receive decimal_conversion env (chars "V0100," ++ [CR]) a = Some a' /\
     App.actions a' = App.actions a /\ App.tx a' = App.tx a /\
     App.parser a' = waiting /\ App.halted a' = false) /\
  (exists a2,
     @App.receive decimal_conversion env junk a1 = Some a2 /\
     App.parser a2 = waiting /\
     App.actions a2 = App.actions a1 /\ App.tx a2 = App.tx a1 /\
     App.halted a2 = false) /\
  (exists a2,
     @App.receive decimal_conversion env (junk ++ ds) a1 = Some a2 /\
     App.parser a2 =
       Parser.mk Parser.VALUE Parser.VALVE 0 1
         [100; digits_value ds mod 2 ^ 16] /\
     App.actions a2 = App.actions a1 /\ App.tx a2 = App.tx a1 /\
     App.halted a2 = false) /\
  @Parser.parse_all decimal_conversion (junk ++ ds ++ [e]) (App.parser a1)
    (App.tx a1) =
    Some (replicate (length junk + length ds) false ++ [true],
          Parser.mk Parser.VALUE Parser.VALVE 0
            (if is_separator e then 2 else 1)
            [100; digits_value ds mod 2 ^ 16], App.tx a1) /\
  (exists a2,
     @App.receive decimal_conversion env (junk ++ ds ++ [e]) a1 = Some a2 /\
     App.actions a2 =
       App.actions a1 ++ [printed; App.pulse App.valve0_ 100] /\
     App.parser a2 = parser_idle /\ App.halted a2 = false /\
     tx_sent (App.tx a2) = tx_sent (App.tx a1) /\
     unread (App.tx a2) =
       unread (App.tx a1) ++
       take (Z.to_nat (free_space (App.tx a1))) (chars "AV0" ++ CRLF)) /\
  (exists a2,
     @App.receive decimal_conversion env (junk ++ ds ++ [ESC]) a1 = Some a2 /\
     App.parser a2 = parser_idle /\
     App.actions a2 = App.actions a1 /\ App.tx a2 = App.tx a1 /\
     App.halted a2 = false) /\
  (exists a2,
     @App.receive decimal_conversion env (junk ++ [ESC]) a1 = Some a2 /\
     App.parser a2 = parser_idle /\
     App.actions a2 = App.actions a1 /\ App.tx a2 = App.tx a1 /\
     App.halted a2 = false) /\
  ((exists junk' ds' e' rest,
      bs = junk' ++ ds' ++ e' :: rest /\
      Forall (fun c => ends_value c = true) junk' /\
      ds' <> [] /\ Forall (fun c => Parser.is_digit c = true) ds' /\
      ends_value e' = true) \/
   (exists a2,
      @App.receive decimal_conversion env bs a1 = Some a2 /\
      App.actions a2 = App.actions a1 /\ App.tx a2 = App.tx a1 /\
      App.halted a2 = false /\
      Parser.state (App.parser a2) <> Parser.COMMAND /\
      Parser.command (App.parser a2) = Parser.VALVE /\
      Parser.target (App.parser a2) = 0 /\
      Parser.values (App.parser a2) !! 0%nat = Some 100)).
Proof.
  assert (tx_valid (App.tx App.boot)) as Hv
    by (split_and!; vm_compute; done).
  assert (Forall (fun c => ends_value c = true) [LF; 32]) as Hjunk
    by (repeat constructor).
  assert (chars "7" <> []) as Hne by discriminate.
  assert (Forall (fun c => Parser.is_digit c = true) (chars "7")) as Hds
    by (repeat constructor).
  assert (Nat.le (length ([LF; 32] ++ chars "7" ++ [44]))
            App.RX_BUFFER_SIZE) as Hlen by (vm_compute; lia).
  assert (Forall (fun c : Z => c <> 27) [LF; 55]) as Hbs
    by (repeat constructor; discriminate).
  assert (Nat.le (length [LF; 55]) App.RX_BUFFER_SIZE) as Hlenbs
    by (vm_compute; lia).
  refine (conj _ (conj Hv (conj eq_refl (conj eq_refl (conj eq_refl
           (conj Hv (conj eq_refl (conj eq_refl (conj Hjunk (conj Hne
           (conj Hds (conj eq_refl (conj Hlen (conj Hbs (conj Hlenbs
           _))))))))))))))).
  - vm_compute. reflexivity.
  - exact (@valve_command_dispatched decimal_conversion (fun _ => idle)
             App.boot CR (fun _ => idle)
             (App.mk (App.tx App.boot)
                (Parser.mk Parser.NEXT_VALUE Parser.VALVE 0 1 [100; 0])
                (chars "V0100," ++ [CR] ++ replicate 58 0) 10000000 [] false)
             [LF; 32] (chars "7") 44 [LF; 55]
             Hv eq_refl eq_refl eq_refl Hv eq_refl eq_refl Hjunk Hne Hds
             eq_refl Hlen Hbs Hlenbs).
Defined.
